(** * wplacer token acquisition: a shallow embedding of [background.js]

    The development follows the three parts of the extension's background
    script:
    - the wait/threshold tracker of the service worker
      ([pollForTokenRequest] and the runtime message listener),
    - the page-world code injected by the [injectPawtect] action (module
      location, discovery scan, [computePawtect], the [fetch] hook),
    - the two auxiliary page-world computations ([seedPawtect] and
      [computePawtectForT]).

    Browser services (network, dynamic import, the opaque wasm module, text
    encoding) are parameters of the page-world section. *)

From Stdlib Require Import ZArith String Ascii List Bool Lia.
From Stdlib.Strings Require Import Byte.
From Stdlib Require Import DecimalString Permutation.
From stdpp Require Import base gmap strings list.
Import ListNotations.
Open Scope string_scope.
Open Scope list_scope.
Open Scope Z_scope.

(* ===================================================================== *)
(** * JavaScript values *)
(* ===================================================================== *)

Module Js.

#[local] Set Warnings "-register-all".

(** The values that flow through the script: messages, [fetch] arguments
    and the result of the wasm export.  Numbers are the integers the script
    handles (timestamps, pointers, lengths). *)
Inductive JsVal : Type :=
| VUndefined
| VNull
| VBool (b : bool)
| VNum (n : Z)
| VStr (s : string)
| VArr (items : list JsVal)
| VObj (fields : list (string * JsVal)).

(** [if (v)], [!v], [a && b], [a || b] *)
Definition truthy (v : JsVal) : bool :=
  match v with
  | VUndefined | VNull => false
  | VBool b => b
  | VNum n => negb (n =? 0)
  | VStr s => negb (String.eqb s "")
  | VArr _ | VObj _ => true
  end.

Fixpoint assoc (k : string) (fs : list (string * JsVal)) : JsVal :=
  match fs with
  | [] => VUndefined
  | (k', v) :: fs' => if String.eqb k k' then v else assoc k fs'
  end.

(** [v.k] for a value that is not null or undefined; only plain objects
    carry the properties the script reads. *)
Definition get (v : JsVal) (k : string) : JsVal :=
  match v with
  | VObj fs => assoc k fs
  | _ => VUndefined
  end.

(** [args[i]] *)
Definition arg (i : nat) (args : list JsVal) : JsVal := nth i args VUndefined.

Definition isArray (v : JsVal) : bool :=
  match v with VArr _ => true | _ => false end.
Definition isString (v : JsVal) : bool :=
  match v with VStr _ => true | _ => false end.
Definition isNumber (v : JsVal) : bool :=
  match v with VNum _ => true | _ => false end.

(** [a || b] *)
Definition or_else (a b : JsVal) : JsVal := if truthy a then a else b.

End Js.
Import Js.

(* ===================================================================== *)
(** * The wait/threshold tracker (service worker) *)
(* ===================================================================== *)

Module Tracker.

Definition TOKEN_WAIT_THRESHOLD_MS : Z := 30000.

(** The script's global variables. *)
Record State : Type := mkState {
  tokenWaitStartTime : option Z;   (* [null] or a [Date.now()] reading *)
  autoReloadEnabled : bool;
  autoClearEnabled : bool
}.

Definition initial : State :=
  {| tokenWaitStartTime := None; autoReloadEnabled := true; autoClearEnabled := true |}.

(** [if (tokenWaitStartTime)]: [null] and [0] are falsy. *)
Definition is_waiting (s : State) : bool :=
  match tokenWaitStartTime s with
  | Some t => negb (t =? 0)
  | None => false
  end.

(** [Date.now() - tokenWaitStartTime]; [null] counts as 0 in a subtraction. *)
Definition elapsed (now : Z) (s : State) : Z :=
  match tokenWaitStartTime s with
  | Some t => now - t
  | None => now
  end.

Inductive Phase : Type := IDLE | WAITING.

Definition phase (s : State) : Phase := if is_waiting s then WAITING else IDLE.

(** [chrome.storage.local.get(['wplacerPort','autoReload','autoClear'])] *)
Record Storage : Type := mkStorage {
  wplacerPort : option Z;
  autoReload : option bool;
  autoClear : option bool
}.

Record Settings : Type := mkSettings {
  port : Z;
  s_autoReload : bool;
  s_autoClear : bool
}.

Definition getSettings (st : Storage) (s : State) : Settings * State :=
  let ar := match autoReload st with Some b => b | None => true end in
  let ac := match autoClear st with Some b => b | None => true end in
  let p := match wplacerPort st with
           | Some p => if p =? 0 then 80 else p
           | None => 80
           end in
  ({| port := p; s_autoReload := ar; s_autoClear := ac |},
   {| tokenWaitStartTime := tokenWaitStartTime s;
      autoReloadEnabled := ar; autoClearEnabled := ac |}).

(** The lines [pollForTokenRequest] writes to the console, one per branch. *)
Inductive LogLine : Type :=
| LogRequiresToken         (* "Server requires a token." *)
| LogStartedTracking       (* "Started tracking token wait time." *)
| LogExceeded (waitTime : Z)
    (* "Token wait time exceeded threshold (...). Clearing pawtect cache before reload." *)
| LogAutoReload            (* "Auto-reload enabled. Initiating reload." *)
| LogClearAfterReload
    (* "Auto-clear enabled and waiting for token. Clearing cache after reload." *)
| LogReloadDisabled        (* "Auto-reload disabled. Skipping reload." *)
| LogNoLongerNeeded        (* "Token no longer needed. Resetting wait timer." *)
| LogPollStatus            (* "Server poll failed with status: ..." *)
| LogPollError.            (* "Could not connect to the server to poll for tokens." *)

(** What the tracker does to the outside world. *)
Inductive Effect : Type :=
| ConsoleLog (l : LogLine)
| TokenStatusChanged (waiting : bool) (waitTime : option Z)
| ClearPawtectCache
| InitiateReload
| PostToken (t pawtect fp colors : JsVal)
| SendCookie
| QuickLogout
| RunInPage (action : string)
| Respond (v : JsVal).

(** Outcome of [fetch(".../token-needed")] followed by [response.json()]. *)
Inductive Poll : Type :=
| PollThrows                 (* network failure or a body that is not JSON *)
| PollNotOk                  (* [!response.ok] *)
| PollData (needed : bool).  (* [data.needed] as a condition *)

(** The readings of [Date.now()] at its four call sites in
    [pollForTokenRequest]: when tracking starts, when the wait time is
    computed, when the timer is reset, and after the reload. *)
Record Clock : Type := mkClock {
  now_start : Z;
  now_wait : Z;
  now_reset : Z;
  now_half : Z
}.

Definition set_timer (t : option Z) (s : State) : State :=
  {| tokenWaitStartTime := t;
     autoReloadEnabled := autoReloadEnabled s;
     autoClearEnabled := autoClearEnabled s |}.

(** The overdue test of the WAITING branch. *)
Definition overdue (waitTime : Z) (settings : Settings) : bool :=
  (waitTime >? TOKEN_WAIT_THRESHOLD_MS) && s_autoClear settings.

(** The first half of the [data.needed] branch: start tracking, or report
    the wait time and run the overdue transition. *)
Definition track_wait (settings : Settings) (clk : Clock) (s : State)
  : State * list Effect :=
  if negb (is_waiting s) then
    (set_timer (Some (now_start clk)) s,
     [ConsoleLog LogStartedTracking; TokenStatusChanged true (Some 0)])
  else
    let waitTime := elapsed (now_wait clk) s in
    let waitTimeSeconds := waitTime / 1000 in
    let notify := TokenStatusChanged true (Some waitTimeSeconds) in
    if overdue waitTime settings then
      (set_timer (Some (now_reset clk)) s,
       [notify; ConsoleLog (LogExceeded waitTime); ClearPawtectCache])
    else (s, [notify]).

(** The second half: reload, and the clear that follows the reload. *)
Definition reload_step (settings : Settings) (clk : Clock) (s : State)
  : list Effect :=
  if s_autoReload settings then
    ConsoleLog LogAutoReload :: InitiateReload ::
    (if s_autoClear settings
        && (elapsed (now_half clk) s >? TOKEN_WAIT_THRESHOLD_MS / 2)
     then [ConsoleLog LogClearAfterReload; ClearPawtectCache] else [])
  else [ConsoleLog LogReloadDisabled].

Definition pollForTokenRequest (st : Storage) (poll : Poll) (clk : Clock)
  (s : State) : State * list Effect :=
  let '(settings, s0) := getSettings st s in
  match poll with
  | PollThrows => (s0, [ConsoleLog LogPollError])
  | PollNotOk => (s0, [ConsoleLog LogPollStatus])
  | PollData true =>
      let '(s1, e1) := track_wait settings clk s0 in
      (s1, ConsoleLog LogRequiresToken :: e1 ++ reload_step settings clk s1)
  | PollData false =>
      if is_waiting s0 then
        (set_timer None s0,
         [ConsoleLog LogNoLongerNeeded; TokenStatusChanged false None])
      else (s0, [])
  end.

(** Reading a tick's effects: the overdue transition is the console line
    of the overdue branch directly followed by the cache clear; the clear
    after the reload is its own console line directly followed by the cache
    clear. *)
Fixpoint overdue_clear_in (es : list Effect) : bool :=
  match es with
  | ConsoleLog (LogExceeded _) :: ClearPawtectCache :: _ => true
  | _ :: rest => overdue_clear_in rest
  | [] => false
  end.

Fixpoint reload_clear_in (es : list Effect) : bool :=
  match es with
  | ConsoleLog LogClearAfterReload :: ClearPawtectCache :: _ => true
  | _ :: rest => reload_clear_in rest
  | [] => false
  end.

Definition is_clear (e : Effect) : bool :=
  match e with ClearPawtectCache => true | _ => false end.

Definition is_reload (e : Effect) : bool :=
  match e with InitiateReload => true | _ => false end.

(** ** The runtime message listener *)

Record Message : Type := mkMessage {
  action : JsVal;
  type : JsVal;
  fields : JsVal;          (* the request object itself *)
  sender_tab : option Z    (* [sender.tab?.id] *)
}.

Definition is_str (v : JsVal) (s : string) : bool :=
  match v with VStr s' => String.eqb s' s | _ => false end.

Definition reset_on_token (s : State) : State :=
  if is_waiting s then set_timer None s else s.

(** [handleTokenPair]: the reset, then the POST to the server. *)
Definition handleTokenPair (turnstileToken pawtectToken fp colors : JsVal)
  (s : State) : State * list Effect :=
  (reset_on_token s,
   [PostToken turnstileToken pawtectToken (or_else fp VNull) (or_else colors VNull)]).

Definition send_token_step (m : Message) (s : State) : State * list Effect :=
  if is_str (type m) "SEND_TOKEN" then
    (reset_on_token s,
     [PostToken (get (fields m) "token")
                (or_else (get (fields m) "pawtect") VNull)
                (or_else (get (fields m) "fp") VNull)
                (or_else (get (fields m) "colors") VNull)])
  else (s, []).

Definition token_pair_step (m : Message) (s : State)
  : State * list Effect * bool :=
  if is_str (action m) "tokenPairReceived" then
    if truthy (get (fields m) "turnstile") && truthy (get (fields m) "pawtect") then
      (reset_on_token s,
       [PostToken (get (fields m) "turnstile") (get (fields m) "pawtect")
                  (or_else (get (fields m) "fp") VNull)
                  (or_else (get (fields m) "colors") VNull);
        Respond (VObj [("success", VBool true)])], true)
    else
      (s, [Respond (VObj [("success", VBool false);
                          ("error", VStr "Missing turnstile or pawtect token")])],
       true)
  else (s, [], false).

Definition run_in_page (name : string) (m : Message) : list Effect :=
  (match sender_tab m with
   | Some id => if id =? 0 then [] else [RunInPage name]
   | None => []
   end) ++ [Respond (VObj [("ok", VBool true)])].

(** The listener: the new state, its effects and its return value.  [now]
    is the reading of [Date.now()] in the [getTokenStatus] branch and [st]
    the storage read by [settingsUpdated]. *)
Definition onMessage (st : Storage) (now : Z) (m : Message) (s : State)
  : State * list Effect * bool :=
  if is_str (action m) "sendCookie" then (s, [SendCookie], true)
  else if is_str (action m) "clearPawtectCache" then (s, [ClearPawtectCache], true)
  else if is_str (action m) "getTokenStatus" then
    (s,
     [Respond (if is_waiting s
               then VObj [("waiting", VBool true); ("waitTime", VNum (elapsed now s / 1000))]
               else VObj [("waiting", VBool false); ("waitTime", VNum 0)])],
     true)
  else if is_str (action m) "settingsUpdated" then
    (snd (getSettings st s), [Respond (VObj [("success", VBool true)])], true)
  else if is_str (action m) "injectPawtect" then (s, run_in_page "injectPawtect" m, true)
  else if is_str (action m) "seedPawtect" then (s, run_in_page "seedPawtect" m, true)
  else if is_str (action m) "computePawtectForT" then
    (s, run_in_page "computePawtectForT" m, true)
  else if is_str (action m) "quickLogout" then (s, [QuickLogout], true)
  else
    let '(s1, e1) := send_token_step m s in
    let '(s2, e2, r) := token_pair_step m s1 in
    (s2, e1 ++ e2, r).

(** The actions that are served before the listener looks at [type]. *)
Definition early_actions : list string :=
  ["sendCookie"; "clearPawtectCache"; "getTokenStatus"; "settingsUpdated";
   "injectPawtect"; "seedPawtect"; "computePawtectForT"; "quickLogout"].

Definition reaches_token_branches (m : Message) : bool :=
  negb (existsb (is_str (action m)) early_actions).

(** ** Reading a tick, and the inputs of the checks below *)

Definition tick_needed (st : Storage) (clk : Clock) (s : State) :=
  pollForTokenRequest st (PollData true) clk s.

Definition auto_clear_setting (st : Storage) (s : State) : bool :=
  s_autoClear (fst (getSettings st s)).

(** A waiting tracker that started at 1000 and is polled at 31000: exactly
    30000 ms have elapsed. *)
Definition at_threshold_state : State := mkState (Some 1000) true true.
Definition at_threshold_clock : Clock := mkClock 31000 31000 31005 31010.
Definition default_storage : Storage := mkStorage None None None.

Definition send_token_message : Message :=
  mkMessage VUndefined (VStr "SEND_TOKEN")
    (VObj [("type", VStr "SEND_TOKEN"); ("token", VStr "tok")]) (Some 7).

Definition both_clears_clock : Clock := mkClock 40000 40000 40100 56000.

(** ** Runs of the service worker *)

Definition auto_reload_setting (st : Storage) (s : State) : bool :=
  s_autoReload (fst (getSettings st s)).

(** What reaches the tracker: an alarm tick with the storage contents, the
    poll outcome and the clock readings of that tick, or a runtime message
    with the storage contents and the clock reading of its handler. *)
Inductive Input : Type :=
| Tick (st : Storage) (poll : Poll) (clk : Clock)
| Incoming (st : Storage) (now : Z) (m : Message).

Definition step (i : Input) (s : State) : State :=
  match i with
  | Tick st poll clk => fst (pollForTokenRequest st poll clk s)
  | Incoming st now m => fst (fst (onMessage st now m s))
  end.

(** The handlers run one after the other, in the order of arrival. *)
Definition run (inputs : list Input) (s : State) : State :=
  fold_left (fun s i => step i s) inputs s.

(** A message that delivers a token: [SEND_TOKEN], or [tokenPairReceived]
    with both tokens. *)
Definition delivers_token (m : Message) : bool :=
  reaches_token_branches m
  && (is_str (type m) "SEND_TOKEN"
      || (is_str (action m) "tokenPairReceived"
          && truthy (get (fields m) "turnstile")
          && truthy (get (fields m) "pawtect"))).

(** What an input says about the need for a token, if anything. *)
Definition signal (i : Input) : option bool :=
  match i with
  | Tick _ (PollData needed) _ => Some needed
  | Tick _ _ _ => None
  | Incoming _ _ m => if delivers_token m then Some false else None
  end.

Definition last_signal (inputs : list Input) (before : bool) : bool :=
  fold_left (fun b i => match signal i with Some x => x | None => b end)
    inputs before.

(** The clock never reads 0 where the tick stores a reading. *)
Definition clock_after_epoch (i : Input) : bool :=
  match i with
  | Tick _ _ clk => negb (now_start clk =? 0) && negb (now_reset clk =? 0)
  | Incoming _ _ _ => true
  end.

End Tracker.

(* ===================================================================== *)
(** * Regular expressions of the script *)
(* ===================================================================== *)

Module Regex.

(** Regular expressions over the characters of a string, matched by
    derivatives.  Strings are the byte strings of the URLs and script texts
    the page code looks at. *)
Inductive re : Type :=
| Void
| Eps
| Sym (p : ascii -> bool)
| Cat (a b : re)
| Alt (a b : re)
| Star (a : re).

Fixpoint nullable (r : re) : bool :=
  match r with
  | Void => false
  | Eps => true
  | Sym _ => false
  | Cat a b => nullable a && nullable b
  | Alt a b => nullable a || nullable b
  | Star _ => true
  end.

Definition cat (a b : re) : re :=
  match a, b with
  | Void, _ => Void
  | _, Void => Void
  | Eps, _ => b
  | _, _ => Cat a b
  end.

Definition alt (a b : re) : re :=
  match a, b with
  | Void, _ => b
  | _, Void => a
  | _, _ => Alt a b
  end.

Fixpoint deriv (c : ascii) (r : re) : re :=
  match r with
  | Void => Void
  | Eps => Void
  | Sym p => if p c then Eps else Void
  | Cat a b =>
      if nullable a then alt (cat (deriv c a) b) (deriv c b)
      else cat (deriv c a) b
  | Alt a b => alt (deriv c a) (deriv c b)
  | Star a => cat (deriv c a) (Star a)
  end.

Fixpoint matches (r : re) (s : string) : bool :=
  match s with
  | EmptyString => nullable r
  | String c s' => matches (deriv c r) s'
  end.

Definition any : re := Sym (fun _ => true).

(** [.] without the [s] flag: every character but a line terminator. *)
Definition dot : re :=
  Sym (fun c => negb (Ascii.eqb c "010" || Ascii.eqb c "013")).

Definition upper (c : ascii) : ascii :=
  let n := nat_of_ascii c in
  if (97 <=? n)%nat && (n <=? 122)%nat then ascii_of_nat (n - 32) else c.

Definition chr (c : ascii) : re := Sym (Ascii.eqb c).

(** A character under the [i] flag. *)
Definition chr_i (c : ascii) : re := Sym (fun x => Ascii.eqb (upper x) (upper c)).

Fixpoint lit (s : string) : re :=
  match s with
  | EmptyString => Eps
  | String c s' => Cat (chr c) (lit s')
  end.

Fixpoint lit_i (s : string) : re :=
  match s with
  | EmptyString => Eps
  | String c s' => Cat (chr_i c) (lit_i s')
  end.

Definition opt (r : re) : re := Alt r Eps.

(** [re.test(s)] for a pattern without anchors: a match anywhere. *)
Definition test (r : re) (s : string) : bool :=
  matches (Cat (Star any) (Cat r (Star any))) s.

(** [re.test(s)] for a pattern that ends in [$]. *)
Definition test_to_end (r : re) (s : string) : bool :=
  matches (Cat (Star any) r) s.

(** [/\/s0\/pixel\//] *)
Definition pixel_path : re := lit "/s0/pixel/".

(** The chunk filter of the discovery scan, flag [i]: the literal
    [/_app/immutable/chunks/], any run of [.], the literal [.js], an optional
    [?] with any run of [.] after it, and the end of the input. *)
Definition chunk_path : re :=
  Cat (lit_i "/_app/immutable/chunks/")
      (Cat (Star dot) (Cat (lit_i ".js") (opt (Cat (chr "?") (Star dot))))).

(** [/get_pawtected_endpoint_payload|__wbindgen_malloc/i] *)
Definition pawtect_signature : re :=
  Alt (lit_i "get_pawtected_endpoint_payload") (lit_i "__wbindgen_malloc").

(** The strings an expression stands for, as a reference for [matches]. *)
Inductive denotes : re -> string -> Prop :=
| DEps : denotes Eps ""
| DSym p c : p c = true -> denotes (Sym p) (String c "")
| DCat a b s t : denotes a s -> denotes b t -> denotes (Cat a b) (s +:+ t)
| DAltL a b s : denotes a s -> denotes (Alt a b) s
| DAltR a b s : denotes b s -> denotes (Alt a b) s
| DStarNil a : denotes (Star a) ""
| DStarCons a s t : denotes a s -> denotes (Star a) t -> denotes (Star a) (s +:+ t).

(** Every character of the string is in the class. *)
Fixpoint all_chars (p : ascii -> bool) (s : string) : bool :=
  match s with
  | EmptyString => true
  | String c rest => p c && all_chars p rest
  end.

(** No line terminator in the string: what a run of [.] can cover. *)
Definition one_line (s : string) : bool :=
  all_chars (fun c => negb (Ascii.eqb c "010" || Ascii.eqb c "013")) s.

Definition is_pixel_post_url (url : string) : bool := test pixel_path url.
Definition is_chunk_candidate (src : string) : bool := test_to_end chunk_path src.
Definition has_pawtect_signature (text : string) : bool := test pawtect_signature text.

End Regex.

(* ===================================================================== *)
(** * The page-world code *)
(* ===================================================================== *)

Module Page.
Import Regex.

(** ** State, events and completions *)

(** How a JavaScript computation ends: it returns, or it throws (an
    [async] function that rejects). *)
Inductive Completion (A : Type) : Type :=
| Normal (a : A)
| Abrupt.
Arguments Normal {A} a.
Arguments Abrupt {A}.

(** The object handed to [window.postMessage]. *)
Record TokenMessage : Type := mkTokenMessage {
  msg_type : string;
  msg_token : JsVal;
  msg_origin : string
}.

Inductive Event : Type :=
| Import (url : string)               (* [import(url)] *)
| NetFetch (url : string)             (* a request of the injected code itself *)
| OriginalFetch (args : list JsVal)   (* a call of the page's own [fetch] *)
| Compute (url body : string)         (* an invocation of [computePawtect] *)
| PostMessage (m : TokenMessage).

(** [window.fetch]: the browser's function, or a hook around what was
    installed before it. *)
Inductive FetchImpl : Type :=
| NativeFetch
| HookedFetch (originalFetch : FetchImpl).

Fixpoint hook_depth (f : FetchImpl) : nat :=
  match f with
  | NativeFetch => 0
  | HookedFetch g => S (hook_depth g)
  end.

(** The page state the injected code reads and writes. *)
Record World : Type := mkWorld {
  localStorage : gmap string string;
  pawtectChunk : JsVal;          (* [window.__wplacerPawtectChunk] *)
  pawtectHooked : bool;          (* [window.__wplacerPawtectHooked] *)
  windowFetch : FetchImpl;       (* [window.fetch] *)
  xhrHooks : nat;                (* wrappers around [XMLHttpRequest.prototype.open/send] *)
  memory : list byte             (* [wasm.memory.buffer] *)
}.

Definition set_localStorage (f : gmap string string -> gmap string string)
  (w : World) : World :=
  mkWorld (f (localStorage w)) (pawtectChunk w) (pawtectHooked w)
          (windowFetch w) (xhrHooks w) (memory w).

Definition set_pawtectChunk (v : JsVal) (w : World) : World :=
  mkWorld (localStorage w) v (pawtectHooked w) (windowFetch w) (xhrHooks w)
          (memory w).

Definition set_memory (m : list byte) (w : World) : World :=
  mkWorld (localStorage w) (pawtectChunk w) (pawtectHooked w) (windowFetch w)
          (xhrHooks w) m.

(** The page state after [localStorage.setItem('wplacer_pawtect_path', url)]
    and [window.__wplacerPawtectChunk = url]. *)
Definition found (url : string) (w : World) : World :=
  set_pawtectChunk (VStr url)
    (set_localStorage (fun ls => <["wplacer_pawtect_path" := url]> ls) w).

(** A computation: from a page state to a completion, the state it leaves
    and the events it produced, oldest first. *)
Definition M (A : Type) : Type := World -> Completion A * World * list Event.

Definition ret {A} (a : A) : M A := fun w => (Normal a, w, []).
Definition throw {A} : M A := fun w => (Abrupt, w, []).

Definition bind {A B} (m : M A) (k : A -> M B) : M B := fun w =>
  let '(c, w1, e1) := m w in
  match c with
  | Normal a => let '(c2, w2, e2) := k a w1 in (c2, w2, e1 ++ e2)
  | Abrupt => (Abrupt, w1, e1)
  end.

(** [try { m } catch { h }] *)
Definition try_catch {A} (m : M A) (h : M A) : M A := fun w =>
  let '(c, w1, e1) := m w in
  match c with
  | Normal a => (Normal a, w1, e1)
  | Abrupt => let '(c2, w2, e2) := h w1 in (c2, w2, e1 ++ e2)
  end.

(** [try { m } catch { }] *)
Definition attempt (m : M unit) : M unit := try_catch m (ret tt).

(** A call of an [async] function whose promise is dropped: the caller goes
    on whatever the callee's completion. *)
Definition spawn {A} (m : M A) : M unit := fun w =>
  let '(_, w1, e1) := m w in (Normal tt, w1, e1).

Definition emit (e : Event) : M unit := fun w => (Normal tt, w, [e]).
Definition read {A} (f : World -> A) : M A := fun w => (Normal (f w), w, []).
Definition modify (f : World -> World) : M unit := fun w => (Normal tt, f w, []).

Notation "'let*' x ':=' m 'in' k" := (bind m (fun x => k))
  (at level 10, x pattern, m at level 100, k at level 200).

Definition completion {A} (r : Completion A * World * list Event) : Completion A :=
  fst (fst r).
Definition world_of {A} (r : Completion A * World * list Event) : World :=
  snd (fst r).
Definition events_of {A} (r : Completion A * World * list Event) : list Event :=
  snd r.

(** ** The browser and the module, as seen by the injected code *)

(** An imported module namespace: which of the exports [_], [i] and [r]
    are functions. *)
Record JsModule : Type := mkJsModule {
  mod_url : string;
  has_underscore : bool;
  has_i : bool;
  has_r : bool
}.

(** A response as the discovery scan uses it. *)
Inductive FetchOutcome : Type :=
| NetFails
| Response (ok : bool) (text : option string).   (* [None]: [text()] rejects *)

(** A [Request] built by the hook. *)
Record Request : Type := mkRequest {
  req_method : string;
  req_url : string;
  req_clone_text : option string    (* [req.clone().text()], [None] if it throws *)
}.

(** An operation of the module on its linear memory. *)
Definition MemOp (A : Type) : Type := list byte -> Completion A * list byte.

Record Env : Type := mkEnv {
  location_origin : string;
  resolve_url : string -> option string;      (* [new URL(x, location.href).href] *)
  script_srcs : list string;                  (* [script[src]] elements *)
  link_hrefs : list string;                   (* modulepreload and script links *)
  resource_entries : option (list string);    (* names of resource entries *)
  net_fetch : string -> FetchOutcome;
  dyn_import : string -> option JsModule;     (* [None]: the import rejects *)
  fetch_me : Completion JsVal;                (* the identity lookup, parsed *)
  mod_start : JsModule -> MemOp unit;         (* [mod._()] *)
  mod_i : JsModule -> JsVal -> MemOp unit;
  mod_r : JsModule -> string -> MemOp unit;
  wasm_malloc : Z -> Z -> MemOp Z;            (* [__wbindgen_malloc] *)
  wasm_payload : Z -> Z -> MemOp JsVal;       (* [get_pawtected_endpoint_payload] *)
  wasm_free : JsVal -> JsVal -> Z -> MemOp unit;
  text_encode : string -> list byte;          (* [TextEncoder.encode] *)
  text_decode : list byte -> string;          (* [TextDecoder.decode] *)
  to_index : JsVal -> option Z;               (* index conversion of a non-number *)
  new_request : JsVal -> JsVal -> Completion Request;
  native_fetch : list JsVal -> Completion JsVal;
  window_fp : JsVal;                          (* [window.wplacerFP] *)
  random_fp : string;
  random_coords : Z * Z;
  to_string : JsVal -> string;                (* [String(v)] *)
  json_stringify : JsVal -> string
}.

(** ** Typed-array views of the module memory *)

(** [new Uint8Array(buffer, ptr, len)] for numbers: a range error outside
    the buffer. *)
Definition mem_view (mem : list byte) (ptr len : Z) : option (list byte) :=
  if (0 <=? ptr) && (0 <=? len) && (ptr + len <=? Z.of_nat (length mem))
  then Some (firstn (Z.to_nat len) (skipn (Z.to_nat ptr) mem))
  else None.

(** [new Uint8Array(buffer, ptr, len).set(bytes)] with [len] the length of
    [bytes]. *)
Definition mem_write (mem : list byte) (ptr : Z) (bytes : list byte)
  : option (list byte) :=
  if (0 <=? ptr) && (ptr + Z.of_nat (length bytes) <=? Z.of_nat (length mem))
  then Some (firstn (Z.to_nat ptr) mem ++ bytes
             ++ skipn (Z.to_nat ptr + length bytes) mem)
  else None.

Definition ls_path_key : string := "wplacer_pawtect_path".
Definition ls_chunk_key : string := "wplacerPawtectChunk".
Definition backend : string := "https://backend.wplace.live".
Definition fallback_path : string := "/_app/immutable/chunks/BdJF80pX.js".
Definition fallback_absolute : string :=
  "https://wplace.live/_app/immutable/chunks/BdJF80pX.js".
Definition TOKEN_MESSAGE : string := "WPLACER_PAWTECT_TOKEN".

(** A [Set] of strings in insertion order. *)
Definition set_add (x : string) (xs : list string) : list string :=
  if existsb (String.eqb x) xs then xs else xs ++ [x].

Definition nonempty (s : string) : bool := negb (String.eqb s "").

(** ** The function injected by [injectPawtect] *)

Section Injected.
Variable E : Env.

(** An operation of the module, run on the page's copy of its memory. *)
Definition on_memory {A} (op : MemOp A) : M A := fun w =>
  let '(c, m) := op (memory w) in (c, set_memory m w, []).

Definition of_completion {A} (c : Completion A) : M A := fun w => (c, w, []).

Definition of_option {A} (o : option A) : M A :=
  match o with Some a => ret a | None => throw end.

Definition getItem (k : string) : M (option string) :=
  read (fun w => localStorage w !! k).

Definition setItem (k v : string) : M unit :=
  modify (set_localStorage (fun ls => <[k := v]> ls)).

Definition removeItem (k : string) : M unit :=
  modify (set_localStorage (fun ls => delete k ls)).

(** The page function of [clearPawtectCache]. *)
Definition clear_cached_path : M bool :=
  let* _ := removeItem ls_path_key in
  let* _ := removeItem ls_chunk_key in
  let* _ := modify (set_pawtectChunk VNull) in
  ret true.

Definition getOptimizedPawtectUrl : M (option string) :=
  let* cached := getItem ls_path_key in
  match cached with
  | Some c =>
      if nonempty c then
        let* _ := modify (set_pawtectChunk (VStr c)) in ret (Some c)
      else
        let* chunk := read pawtectChunk in
        match chunk with
        | VStr u => if nonempty u then ret (Some u) else ret None
        | _ => ret None
        end
  | None =>
      let* chunk := read pawtectChunk in
      match chunk with
      | VStr u => if nonempty u then ret (Some u) else ret None
      | _ => ret None
      end
  end.

(** The URLs the scan collects: scripts, then links, then resource
    entries; a source that does not resolve is skipped, duplicates keep
    their first position. *)
Definition add_resolved (acc : list string) (src : string) : list string :=
  match resolve_url E src with
  | Some href => set_add href acc
  | None => acc
  end.

Definition add_entry (acc : list string) (name : string) : list string :=
  if nonempty name then set_add name acc else acc.

Definition collected_urls : list string :=
  let from_scripts := fold_left add_resolved (script_srcs E) [] in
  let from_links := fold_left add_resolved (link_hrefs E) from_scripts in
  match resource_entries E with
  | Some names => fold_left add_entry names from_links
  | None => from_links
  end.

Definition chunkCandidates : list string :=
  List.filter is_chunk_candidate collected_urls.

(** What the loop accepts: an ok response whose text carries one of the
    two signatures. *)
Definition accepts (url : string) : bool :=
  match net_fetch E url with
  | Response true (Some text) => has_pawtect_signature text
  | _ => false
  end.

(** The body of the [for] loop over the candidates: a failed request, a
    response that is not ok, an unreadable body and a text without the
    signature all lead to the next candidate. *)
Fixpoint scan (candidates : list string) : M (option string) :=
  match candidates with
  | [] => ret None
  | url :: rest =>
      let* _ := emit (NetFetch url) in
      match net_fetch E url with
      | NetFails => scan rest
      | Response false _ => scan rest
      | Response true None => scan rest
      | Response true (Some text) =>
          if has_pawtect_signature text then
            let* _ := setItem ls_path_key url in
            let* _ := modify (set_pawtectChunk (VStr url)) in
            ret (Some url)
          else scan rest
      end
  end.

Definition discoverPawtectChunk : M (option string) :=
  try_catch (scan chunkCandidates) (ret None).

Definition import (url : string) : M JsModule :=
  let* _ := emit (Import url) in
  of_option (dyn_import E url).

(** The loop over the fast candidates: the first import that succeeds is
    returned, a failed one is logged and skipped. *)
Fixpoint try_fast (urls : list string) : M (option JsModule) :=
  match urls with
  | [] => ret None
  | url :: rest =>
      let* r := try_catch (let* m := import url in ret (Some m)) (ret None) in
      match r with
      | Some m => ret (Some m)
      | None => try_fast rest
      end
  end.

(** [new URL(fallback_path, location.origin).href] on a page with an http
    or https origin. *)
Definition fallback_on_origin : string := location_origin E +:+ fallback_path.

Definition fastCandidates (cachedUrl : option string) : list string :=
  (match cachedUrl with Some c => [c] | None => [] end)
  ++ [fallback_on_origin; fallback_absolute].

Definition importModule : M (option JsModule) :=
  let* cachedUrl := getOptimizedPawtectUrl in
  let* r := try_fast (fastCandidates cachedUrl) in
  match r with
  | Some m => ret (Some m)
  | None =>
      let* discoveredUrl := discoverPawtectChunk in
      match discoveredUrl with
      | Some u => try_catch (let* m := import u in ret (Some m)) (ret None)
      | None => ret None
      end
  end.

(** ** Calling the module *)

(** [await mod._()] *)
Definition start (m : JsModule) : M unit :=
  if has_underscore m then on_memory (mod_start E m) else throw.

(** The identity hint, inside its own [try]. *)
Definition identity_hint (m : JsModule) : M unit :=
  attempt
    (let* _ := emit (NetFetch (backend +:+ "/me")) in
     let* me := of_completion (fetch_me E) in
     if truthy (get me "id") && has_i m
     then on_memory (mod_i E m (get me "id"))
     else ret tt).

(** From [mod._()] to the call of the export: the steps shared by
    [computePawtect], [seedPawtect] and [computePawtectForT]. *)
Definition invoke (m : JsModule) (url bodyStr : string) : M JsVal :=
  let* _ := start m in
  let* _ := identity_hint m in
  let* _ := (if has_r m then on_memory (mod_r E m url) else ret tt) in
  let bytes := text_encode E bodyStr in
  let len := Z.of_nat (length bytes) in
  let* inPtr := on_memory (wasm_malloc E len 1) in
  let* mem := read memory in
  let* mem' := of_option (mem_write mem inPtr bytes) in
  let* _ := modify (set_memory mem') in
  on_memory (wasm_payload E inPtr len).

(** The byte offset and the length of a view given as JavaScript values:
    [undefined] selects the default. *)
Definition index_of (v : JsVal) : option (option Z) :=
  match v with
  | VNum n => Some (Some n)
  | VUndefined => Some None
  | _ => match to_index E v with Some n => Some (Some n) | None => None end
  end.

Definition view (mem : list byte) (ptr len : JsVal) : option (list byte) :=
  match index_of ptr, index_of len with
  | Some p, Some l =>
      let p' := match p with Some n => n | None => 0 end in
      let l' := match l with Some n => n | None => Z.of_nat (length mem) - p' end in
      mem_view mem p' l'
  | _, _ => None
  end.

(** [dec.decode(new Uint8Array(wasm.memory.buffer, ptr, len))] followed by
    [try { wasm.__wbindgen_free(ptr, len, 1) } catch { }]. *)
Definition decode_at (ptr len : JsVal) : M JsVal :=
  let* mem := read memory in
  let* bytes := of_option (view mem ptr len) in
  let token := VStr (text_decode E bytes) in
  let* _ := attempt (on_memory (wasm_free E ptr len 1)) in
  ret token.

Definition has_ptr_len (out : JsVal) : bool :=
  truthy out && isNumber (get out "ptr") && isNumber (get out "len").

(** The chain over the shape of [out]; [unrecognized] is what [token]
    holds when no branch applies. *)
Definition decode_out (unrecognized : JsVal) (out : JsVal) : M JsVal :=
  match out with
  | VArr items => decode_at (arg 0 items) (arg 1 items)
  | VStr str => ret (VStr str)
  | _ =>
      if has_ptr_len out then decode_at (get out "ptr") (get out "len")
      else ret unrecognized
  end.

Definition recognized (out : JsVal) : bool :=
  isArray out || isString out || has_ptr_len out.

Definition post (token : JsVal) (origin : string) : M unit :=
  emit (PostMessage (mkTokenMessage TOKEN_MESSAGE token origin)).

Definition computePawtect (url bodyStr : string) : M JsVal :=
  let* _ := emit (Compute url bodyStr) in
  let* imported := importModule in
  match imported with
  | None => ret VNull
  | Some m =>
      if negb (has_underscore m) then ret VNull
      else
        let* out := invoke m url bodyStr in
        let* token := decode_out VNull out in
        let* _ := post token "pixel" in
        ret token
  end.

(** ** The [fetch] hook *)

(** The second half of the hook's POST branch: clone the request and read
    its text. *)
Definition compute_from_clone (req : Request) : M unit :=
  attempt
    (let* text := of_option (req_clone_text req) in
     spawn (computePawtect (req_url req) text)).

(** The [try] block of the hook. *)
Definition observe (args : list JsVal) : M unit :=
  attempt
    (let input := arg 0 args in
     let init := or_else (arg 1 args) (VObj []) in
     let* req := of_completion (new_request E input init) in
     if String.eqb (req_method req) "POST" && is_pixel_post_url (req_url req) then
       match get init "body" with
       | VStr raw =>
           if nonempty raw then spawn (computePawtect (req_url req) raw)
           else compute_from_clone req
       | _ => compute_from_clone req
       end
     else ret tt).

(** A call of [window.fetch]. *)
Fixpoint call_fetch (f : FetchImpl) (args : list JsVal) : M JsVal :=
  match f with
  | NativeFetch =>
      let* _ := emit (OriginalFetch args) in
      of_completion (native_fetch E args)
  | HookedFetch originalFetch =>
      let* _ := observe args in
      call_fetch originalFetch args
  end.

Definition page_fetch (args : list JsVal) : M JsVal := fun w =>
  call_fetch (windowFetch w) args w.

(** The injected function: the flag, then the two hooks. *)
Definition injectPawtect : M unit := fun w =>
  if pawtectHooked w then (Normal tt, w, [])
  else
    (Normal tt,
     mkWorld (localStorage w) (pawtectChunk w) true
             (HookedFetch (windowFetch w)) (S (xhrHooks w)) (memory w),
     []).

(** ** The seeding and the turnstile-only computations *)

Definition cached_or_fallback : M JsModule :=
  let* cachedUrl := getItem ls_path_key in
  match cachedUrl with
  | Some c => if nonempty c then import c else import fallback_path
  | None => import fallback_path
  end.

Definition seed_url : string := backend +:+ "/s0/pixel/1/1".

Definition seedPawtect (rawBody : string) : M unit :=
  attempt
    (let* imported := cached_or_fallback in
     let* out := invoke imported seed_url rawBody in
     let* token := decode_out VUndefined out in
     post token "seed").

Definition turnstile_body (tValue : JsVal) : string :=
  let fp := if truthy (window_fp E) && nonempty (to_string E (window_fp E))
            then to_string E (window_fp E) else random_fp E in
  let '(rx, ry) := random_coords E in
  json_stringify E
    (VObj [("colors", VArr [VNum 0]); ("coords", VArr [VNum rx; VNum ry]);
           ("fp", VStr fp); ("t", VStr (to_string E (or_else tValue (VStr ""))))]).

Definition computePawtectForT (tValue : JsVal) : M unit :=
  attempt
    (let* imported := cached_or_fallback in
     let* out := invoke imported seed_url (turnstile_body tValue) in
     let* token := decode_out VUndefined out in
     post token "simple").

(** ** The XMLHttpRequest hooks *)

(** The two properties the [open] hook leaves on a request object. *)
Record Xhr : Type := mkXhr {
  wplacer_url : option string;       (* [this.__wplacer_url] *)
  wplacer_method : option string     (* [this.__wplacer_method] *)
}.

(** A value used as a string. *)
Definition js_string (v : JsVal) : string :=
  match v with VStr str => str | _ => to_string E v end.

(** The hook around [open(method, url)]: the URL is resolved first, so a
    URL that does not resolve leaves both properties as they were.  The
    original [open] then receives the arguments unchanged. *)
Definition xhr_open (args : list JsVal) (x : Xhr) : Xhr * list JsVal :=
  (match resolve_url E (js_string (arg 1 args)) with
   | Some href =>
       mkXhr (Some href) (Some (js_string (or_else (arg 0 args) (VStr ""))))
   | None => x
   end, args).

(** What [send] can be given. *)
Inductive XhrBody : Type :=
| BodyText (str : string)
| BodyBuffer (bytes : list byte)                    (* an [ArrayBuffer] *)
| BodyView (buffer : list byte) (offset len : Z)    (* a typed array on a buffer *)
| BodyBlob (text : option string)                   (* [None]: [text()] rejects *)
| BodyOther.                                        (* [null], form data, ... *)

(** [toUpperCase] on the letters a to z. *)
Fixpoint toUpperCase (str : string) : string :=
  match str with
  | EmptyString => EmptyString
  | String c rest => String (upper c) (toUpperCase rest)
  end.

Definition maybeCompute (url raw : string) : M unit :=
  if nonempty raw then spawn (computePawtect url raw) else ret tt.

(** The [try] block of the hook around [send(body)]. *)
Definition xhr_observe (body : XhrBody) (x : Xhr) : M unit :=
  attempt
    (let method := match wplacer_method x with Some m => m | None => "" end in
     let url := match wplacer_url x with Some u => u | None => "" end in
     if String.eqb (toUpperCase method) "POST" && is_pixel_post_url url then
       match body with
       | BodyText str => maybeCompute url str
       | BodyBuffer bytes => attempt (maybeCompute url (text_decode E bytes))
       | BodyView buffer _ _ => attempt (maybeCompute url (text_decode E buffer))
       | BodyBlob (Some str) => attempt (maybeCompute url str)
       | BodyBlob None => ret tt
       | BodyOther => ret tt
       end
     else ret tt).

(** The text the hook takes from a body, if any. *)
Definition body_text (body : XhrBody) : option string :=
  match body with
  | BodyText str => Some str
  | BodyBuffer bytes => Some (text_decode E bytes)
  | BodyView buffer _ _ => Some (text_decode E buffer)
  | BodyBlob t => t
  | BodyOther => None
  end.

End Injected.

(** ** Reading page states and event lists *)

(** The stored path, when [if (cached)] holds. *)
Definition cached_path (w : World) : option string :=
  match localStorage w !! "wplacer_pawtect_path" with
  | Some c => if nonempty c then Some c else None
  | None => None
  end.

(** The in-memory URL, when it is a non-empty string. *)
Definition last_known (w : World) : option string :=
  match pawtectChunk w with
  | VStr u => if nonempty u then Some u else None
  | _ => None
  end.

Definition first_choice (w : World) : option string :=
  match cached_path w with
  | Some c => Some c
  | None => last_known w
  end.

(** The page state in which [importModule] continues after its first line. *)
Definition after_lookup (w : World) : World :=
  match cached_path w with
  | Some c => set_pawtectChunk (VStr c) w
  | None => w
  end.

Definition imports (es : list Event) : list string :=
  omap (fun e => match e with Import u => Some u | _ => None end) es.

Definition requests (es : list Event) : list string :=
  omap (fun e => match e with NetFetch u => Some u | _ => None end) es.

Definition computes (es : list Event) : list (string * string) :=
  omap (fun e => match e with Compute u b => Some (u, b) | _ => None end) es.

Definition forwarded (es : list Event) : list (list JsVal) :=
  omap (fun e => match e with OriginalFetch a => Some a | _ => None end) es.

Definition posted (es : list Event) : list TokenMessage :=
  omap (fun e => match e with PostMessage m => Some m | _ => None end) es.

(** What the code below [computePawtect]'s first line may produce, for a
    broadcast tagged [origin]: imports, requests of its own and token
    messages with that tag. *)
Definition inner_event (origin : string) (e : Event) : Prop :=
  match e with
  | Import _ | NetFetch _ => True
  | PostMessage m => msg_type m = TOKEN_MESSAGE /\ msg_origin m = origin
  | Compute _ _ | OriginalFetch _ => False
  end.

(** What the [try] block of the hook may produce: calls of
    [computePawtect] and their inner events, never a call of the page's own
    [fetch]. *)
Definition hook_event (e : Event) : Prop :=
  match e with
  | OriginalFetch _ => False
  | Compute _ _ => True
  | _ => inner_event "pixel" e
  end.

(** A token message tagged [origin]; other events are unconstrained. *)
Definition tagged (origin : string) (e : Event) : Prop :=
  match e with
  | PostMessage m => msg_type m = TOKEN_MESSAGE /\ msg_origin m = origin
  | _ => True
  end.

(** The origin tags found in the script. *)
Definition origin_tags : list string := ["pixel"; "seed"; "simple"].

(** [m] is broadcast by one of the computations of the page-world code,
    started in the page state [w]. *)
Definition published (E : Env) (w : World) (m : TokenMessage) : Prop :=
  (exists url body, In (PostMessage m) (events_of (computePawtect E url body w))) \/
  (exists f args, In (PostMessage m) (events_of (call_fetch E f args w))) \/
  (exists rawBody, In (PostMessage m) (events_of (seedPawtect E rawBody w))) \/
  (exists tValue, In (PostMessage m) (events_of (computePawtectForT E tValue w))).

(** What the steps after the import may produce in the seeding and the
    turnstile-only computations: the identity lookup and the broadcast. *)
Definition after_import_event (e : Event) : Prop :=
  match e with
  | NetFetch u => u = backend +:+ "/me"
  | PostMessage _ => True
  | _ => False
  end.

(** The module URL the seeding and the turnstile-only computations import. *)
Definition seed_module_url (w : World) : string :=
  match cached_path w with
  | Some c => c
  | None => fallback_path
  end.

(** ** The iteration order of a [Set] *)

(** The elements of a list in the order of their first occurrence. *)
Fixpoint first_seen (xs : list string) : list string :=
  match xs with
  | [] => []
  | x :: rest => x :: List.filter (fun y => negb (String.eqb x y)) (first_seen rest)
  end.

(** Everything the scan offers to its [Set], in document order. *)
Definition sources (E : Env) : list string :=
  omap (resolve_url E) (script_srcs E)
  ++ omap (resolve_url E) (link_hrefs E)
  ++ match resource_entries E with
     | Some names => List.filter nonempty names
     | None => []
     end.

(** ** Which events a computation can produce, and whether it can throw *)

Definition emits {A} (P : Event -> Prop) (m : M A) : Prop :=
  forall w, Forall P (events_of (m w)).

Definition returns {A} (m : M A) : Prop :=
  forall w, exists a, completion (m w) = Normal a.

End Page.

(* ===================================================================== *)
(** * A small page for the checks *)
(* ===================================================================== *)

Module Demo.
Import Page.

Definition chunk_a : string := "https://wplace.live/_app/immutable/chunks/aaa.js".
Definition chunk_paw : string := "https://wplace.live/_app/immutable/chunks/paw.js".
Definition style : string := "https://wplace.live/style.css".

Definition the_module (url : string) : JsModule := mkJsModule url true true true.

Definition token_bytes : list byte := list_byte_of_string "tok".

Definition request_of (input init : JsVal) : Completion Request :=
  match input with
  | VStr u =>
      Normal (mkRequest
                (match get init "method" with VStr m => m | _ => "GET" end)
                u
                (match get init "body" with
                 | VStr b => Some b
                 | VUndefined => Some ""
                 | _ => None
                 end))
  | _ => Abrupt
  end.

(** A page with three scripts, one of which carries the signature; the
    module answers [out] after writing the bytes of "tok" at offset 8.
    [importable] tells which URLs can be imported. *)
Definition env (importable : string -> bool) (out : JsVal) : Env := {|
  location_origin := "https://wplace.live";
  resolve_url := Some;
  script_srcs := [chunk_a; style; chunk_paw];
  link_hrefs := [chunk_a];
  resource_entries := Some [chunk_paw; ""];
  net_fetch := fun url =>
    if String.eqb url chunk_paw then Response true (Some "function __wbindgen_malloc(){}")
    else if String.eqb url chunk_a then Response true (Some "console.log(1)")
    else NetFails;
  dyn_import := fun url => if importable url then Some (the_module url) else None;
  fetch_me := Normal (VObj [("id", VNum 7)]);
  mod_start := fun _ mem =>
    (Normal tt, if Nat.eqb (length mem) 0 then repeat x00 64 else mem);
  mod_i := fun _ _ mem => (Normal tt, mem);
  mod_r := fun _ _ mem => (Normal tt, mem);
  wasm_malloc := fun _ _ mem => (Normal 16, mem);
  wasm_payload := fun _ _ mem =>
    (Normal out, match mem_write mem 8 token_bytes with Some m => m | None => mem end);
  wasm_free := fun _ _ _ mem => (Normal tt, mem);
  text_encode := list_byte_of_string;
  text_decode := string_of_list_byte;
  to_index := fun _ => None;
  new_request := request_of;
  native_fetch := fun _ => Normal (VStr "response");
  window_fp := VUndefined;
  random_fp := "00112233445566778899aabbccddeeff";
  random_coords := (12, 34);
  to_string := fun v => match v with VStr str => str | _ => "" end;
  json_stringify := fun _ => "{}"
|}.

Definition everything (_ : string) : bool := true.
Definition nothing (_ : string) : bool := false.
Definition only (url : string) (u : string) : bool := String.eqb u url.

Definition fresh : World := mkWorld ∅ VUndefined false NativeFetch 0 [].

(** The placement request of the end-to-end scenario. *)
Definition quote : string := String "034" EmptyString.

Definition pixel_body : string :=
  "{" +:+ quote +:+ "colors" +:+ quote +:+ ":[0],"
  +:+ quote +:+ "coords" +:+ quote +:+ ":[1,1],"
  +:+ quote +:+ "fp" +:+ quote +:+ ":" +:+ quote +:+ "x" +:+ quote +:+ ","
  +:+ quote +:+ "t" +:+ quote +:+ ":" +:+ quote +:+ "y" +:+ quote +:+ "}".

Definition pixel_url : string := "https://backend.wplace.live/s0/pixel/12/34".

Definition pixel_post : list JsVal :=
  [VStr pixel_url; VObj [("method", VStr "POST"); ("body", VStr pixel_body)]].

Definition with_cache (url : string) : World :=
  mkWorld {[ "wplacer_pawtect_path" := url ]} VUndefined false NativeFetch 0 [].

End Demo.

(* ===================================================================== *)
(** * The reload, cache-clearing and cookie helpers (service worker) *)
(* ===================================================================== *)

Module Worker.
Import Tracker.

Record Tab : Type := mkTab { tab_id : Z; tab_active : bool }.

(** What the helpers do to the browser, the popup and the local server. *)
Inductive Action : Type :=
| StatusUpdate (status : string)        (* a [statusUpdate] message, sent at once *)
| StatusUpdateLater (status : string)   (* the same, from [setTimeout(..., 1500)] *)
| ReloadForToken (tabId : Z)            (* [chrome.tabs.sendMessage(id, reloadForToken)] *)
| TabsReload (tabId : Z)                (* [chrome.tabs.reload(id)] *)
| ClearScript (tabId : Z)               (* the clearing function run in a tab *)
| ClearedLog (tabId : Z) (success : bool)
| Callback (v : JsVal)
| PostUser (url : string) (j : string) (s : option string) (expirationDate : JsVal).

Definition RELOADING : string := "Reloading page...".
Definition NONE_FOUND : string := "No wplace.live tabs found to reload.".
Definition RELOADED : string := "Page reloaded successfully.".

(** [tabs.find(t => t.active) || tabs[0]] *)
Definition pick_target (tabs : list Tab) : option Tab :=
  match List.find tab_active tabs with
  | Some t => Some t
  | None => hd_error tabs
  end.

(** The [catch] block of [initiateReload]: a second query, whose first tab
    is reloaded; [None] is a query that throws, which makes the whole
    function reject. *)
Definition reload_fallback (again : option (list Tab)) : bool * list Action :=
  match again with
  | None => (false, [])
  | Some [] => (true, [StatusUpdate NONE_FOUND])
  | Some (t :: _) => (true, [TabsReload (tab_id t); StatusUpdateLater RELOADED])
  end.

(** [initiateReload]: [tabs] is the result of the first query, [delivered]
    tells whether the reload message to a tab is answered, [again] is the
    result of the query in the [catch] block.  The boolean is [false] when
    the function rejects. *)
Definition initiateReload (tabs : option (list Tab)) (delivered : Z -> bool)
  (again : option (list Tab)) : bool * list Action :=
  match tabs with
  | None =>
      let '(ok, acts) := reload_fallback again in (ok, StatusUpdate RELOADING :: acts)
  | Some ts =>
      match pick_target ts with
      | None => (true, [StatusUpdate RELOADING; StatusUpdate NONE_FOUND])
      | Some t =>
          if delivered (tab_id t) then
            (true, [StatusUpdate RELOADING; ReloadForToken (tab_id t);
                    StatusUpdateLater RELOADED])
          else
            let '(ok, acts) := reload_fallback again in
            (ok, StatusUpdate RELOADING :: ReloadForToken (tab_id t) :: acts)
      end
  end.

Definition is_hard_reload (a : Action) : bool :=
  match a with TabsReload _ => true | _ => false end.

Definition reload_requests (acts : list Action) : list Z :=
  omap (fun a => match a with ReloadForToken id => Some id | _ => None end) acts.

Definition hard_reloads (acts : list Action) : list Z :=
  omap (fun a => match a with TabsReload id => Some id | _ => None end) acts.

Definition callbacks (acts : list Action) : list JsVal :=
  omap (fun a => match a with Callback v => Some v | _ => None end) acts.

(** ** [clearPawtectCache] *)



Definition call_back (has_callback : bool) (v : JsVal) : list Action :=
  if has_callback then [Callback v] else [].



(** ** [getServerUrl] and [sendCookie] *)

Definition show_number (n : Z) : string := NilZero.string_of_int (Z.to_int n).

Definition getServerUrl (path : string) (st : Storage) (s : State) : string * State :=
  let '(settings, s') := getSettings st s in
  ("http://127.0.0.1:" +:+ show_number (port settings) +:+ path, s').

Record Cookie : Type := mkCookie { cookie_value : string; expirationDate : JsVal }.

(** The answer of the local server to [POST /user]. *)
Inductive UserReply : Type :=
| UserFails                  (* the request throws or the body is not JSON *)
| UserStatus                 (* [!response.ok] *)
| UserInfo (name : JsVal).

Definition NO_COOKIE : JsVal :=
  VObj [("success", VBool false);
        ("error", VStr "Cookie 'j' not found. Are you logged in?")].
Definition NO_SERVER : JsVal :=
  VObj [("success", VBool false);
        ("error", VStr "Could not connect to the wplacer server.")].

Definition sendCookie (has_callback : bool) (j s : option Cookie) (st : Storage)
  (reply : UserReply) (state : State) : State * list Action :=
  match j with
  | None => (state, call_back has_callback NO_COOKIE)
  | Some jCookie =>
      let '(url, state') := getServerUrl "/user" st state in
      (state',
       PostUser url (cookie_value jCookie)
         (match s with Some sCookie => Some (cookie_value sCookie) | None => None end)
         (expirationDate jCookie)
       :: call_back has_callback
            (match reply with
             | UserInfo name => VObj [("success", VBool true); ("name", name)]
             | _ => NO_SERVER
             end))
  end.

(** ** The [tabs.onUpdated] listener *)

(** Does a tab update make the worker send the cookie: the status is
    [complete] and the tab's URL, when it has one, starts with
    [https://wplace.live]. *)
Definition sends_cookie_on_update (status : JsVal) (url : option string) : bool :=
  is_str status "complete"
  && match url with
     | Some u => String.prefix "https://wplace.live" u
     | None => false
     end.

End Worker.

(* ===================================================================== *)
(** * Properties of the tracker *)
(* ===================================================================== *)

Section TrackerFacts.
Import Tracker.

Lemma getSettings_timer st s :
  tokenWaitStartTime (snd (getSettings st s)) = tokenWaitStartTime s.
Proof. reflexivity. Qed.

Lemma getSettings_waiting st s :
  is_waiting (snd (getSettings st s)) = is_waiting s.
Proof. reflexivity. Qed.

Lemma getSettings_elapsed st now s :
  elapsed now (snd (getSettings st s)) = elapsed now s.
Proof. reflexivity. Qed.

Lemma reload_step_no_overdue settings clk s :
  overdue_clear_in (reload_step settings clk s) = false.
Proof.
  unfold reload_step.
  destruct (s_autoReload settings); [|reflexivity].
  destruct (s_autoClear settings && _); reflexivity.
Qed.

Lemma reset_on_token_idle s : tokenWaitStartTime (reset_on_token s) = None \/
  is_waiting (reset_on_token s) = false.
Proof.
  unfold reset_on_token. destruct (is_waiting s) eqn:E; [left; reflexivity|].
  right. exact E.
Qed.

Lemma reset_on_token_running s :
  is_waiting s = true -> tokenWaitStartTime (reset_on_token s) = None.
Proof. intros H. unfold reset_on_token. rewrite H. reflexivity. Qed.

Lemma reset_on_token_cleared s :
  tokenWaitStartTime s = None -> reset_on_token s = s.
Proof. intros H. unfold reset_on_token, is_waiting. rewrite H. reflexivity. Qed.

Lemma cleared_is_idle s :
  tokenWaitStartTime s = None -> tokenWaitStartTime s = None /\ phase s = IDLE.
Proof. intros H. unfold phase, is_waiting. rewrite H. split; reflexivity. Qed.

(** ** The overdue transition *)

(** C1, as stated, fails at the boundary: with auto-clear enabled and an
    elapsed time of exactly 30000 ms (which is at least 30000 ms) the tick
    runs no overdue transition and leaves the timer where it was. *)
Lemma overdue_not_fired_at_30000 :
  is_waiting at_threshold_state = true /\
  elapsed (now_wait at_threshold_clock) at_threshold_state = 30000 /\
  auto_clear_setting default_storage at_threshold_state = true /\
  overdue_clear_in
    (snd (tick_needed default_storage at_threshold_clock at_threshold_state)) = false /\
  tokenWaitStartTime
    (fst (tick_needed default_storage at_threshold_clock at_threshold_state)) = Some 1000.
Proof. repeat split; reflexivity. Qed.

(** C1, amended: on a tick of a waiting tracker whose poll reports that a
    token is needed, the overdue transition (console line, cache clear,
    timer reset to the reading taken after the clear) runs if and only if
    strictly more than 30000 ms have elapsed since the wait started and
    auto-clear is enabled; when it does not run the timer is untouched. *)
Theorem overdue_fires_iff_exceeds st clk s :
  is_waiting s = true ->
  let r := tick_needed st clk s in
  (overdue_clear_in (snd r) = true <->
     elapsed (now_wait clk) s > TOKEN_WAIT_THRESHOLD_MS /\
     auto_clear_setting st s = true) /\
  (overdue_clear_in (snd r) = true ->
     tokenWaitStartTime (fst r) = Some (now_reset clk)) /\
  (overdue_clear_in (snd r) = false ->
     tokenWaitStartTime (fst r) = tokenWaitStartTime s).
Proof.
  intros Hw r. subst r. unfold tick_needed, pollForTokenRequest, auto_clear_setting.
  destruct (getSettings st s) as [settings s0] eqn:Hg.
  assert (Hw0 : is_waiting s0 = true)
    by (replace s0 with (snd (getSettings st s)) by (rewrite Hg; reflexivity);
        rewrite getSettings_waiting; exact Hw).
  assert (He : elapsed (now_wait clk) s0 = elapsed (now_wait clk) s)
    by (replace s0 with (snd (getSettings st s)) by (rewrite Hg; reflexivity);
        apply getSettings_elapsed).
  assert (Ht : tokenWaitStartTime s0 = tokenWaitStartTime s)
    by (replace s0 with (snd (getSettings st s)) by (rewrite Hg; reflexivity);
        apply getSettings_timer).
  unfold track_wait. rewrite Hw0. cbn [negb fst snd]. rewrite He.
  unfold overdue.
  destruct (Z.gtb_spec (elapsed (now_wait clk) s) TOKEN_WAIT_THRESHOLD_MS) as [Hgt|Hle];
    destruct (s_autoClear settings) eqn:Hac; cbn [andb fst snd app overdue_clear_in].
  - repeat split; auto; try lia; try discriminate.
  - rewrite reload_step_no_overdue.
    repeat split; auto; try discriminate; intros [_ ?]; discriminate.
  - rewrite reload_step_no_overdue.
    repeat split; auto; try discriminate; intros [? _]; lia.
  - rewrite reload_step_no_overdue.
    repeat split; auto; try discriminate; intros [? _]; lia.
Qed.

Lemma overdue_fires_iff_exceeds_witness :
  is_waiting (mkState (Some 1000) true true) = true /\
  overdue_clear_in
    (snd (tick_needed default_storage (mkClock 31001 31001 31005 31010)
            (mkState (Some 1000) true true))) = true /\
  overdue_clear_in
    (snd (tick_needed default_storage (mkClock 30999 30999 31005 31010)
            (mkState (Some 1000) true true))) = false.
Proof.
  split; [reflexivity|]. split.
  - apply (overdue_fires_iff_exceeds default_storage
             (mkClock 31001 31001 31005 31010) (mkState (Some 1000) true true));
      [reflexivity|]. split; [reflexivity | reflexivity].
  - reflexivity.
Defined.

(** ** Token arrival *)

(** C2: in every state whose wait timer is running, each of the three
    token-arrival paths clears the timer and leaves the tracker IDLE: a
    [SEND_TOKEN] message (whatever it carries), a [tokenPairReceived]
    message that carries a turnstile and a pawtect token, and a poll whose
    answer is needed = false.  No setting, clock reading or elapsed time
    enters. *)
Theorem token_arrival_clears_wait st now clk s :
  is_waiting s = true ->
  (forall m, reaches_token_branches m = true ->
     is_str (type m) "SEND_TOKEN" = true ->
     let s' := fst (fst (onMessage st now m s)) in
     tokenWaitStartTime s' = None /\ phase s' = IDLE) /\
  (forall m, is_str (action m) "tokenPairReceived" = true ->
     truthy (get (fields m) "turnstile") = true ->
     truthy (get (fields m) "pawtect") = true ->
     let s' := fst (fst (onMessage st now m s)) in
     tokenWaitStartTime s' = None /\ phase s' = IDLE) /\
  (let s' := fst (pollForTokenRequest st (PollData false) clk s) in
   tokenWaitStartTime s' = None /\ phase s' = IDLE) /\
  (forall t p fp colors,
     let s' := fst (handleTokenPair t p fp colors s) in
     tokenWaitStartTime s' = None /\ phase s' = IDLE).
Proof.
  intros Hw. split; [|split; [|split]].
  - intros m Hr Ht s'. subst s'.
    unfold reaches_token_branches, early_actions in Hr.
    cbn [existsb] in Hr. rewrite !negb_orb in Hr.
    repeat (apply andb_prop in Hr; destruct Hr as [?H Hr]).
    unfold onMessage.
    repeat match goal with
           | H : negb ?b = true |- context [if ?b then _ else _] =>
               apply negb_true_iff in H; rewrite H
           end.
    unfold send_token_step. rewrite Ht.
    unfold token_pair_step.
    assert (Hn : tokenWaitStartTime (reset_on_token s) = None)
      by (apply reset_on_token_running; exact Hw).
    destruct (is_str (action m) "tokenPairReceived");
      [destruct (truthy _ && truthy _)|]; cbn [fst snd];
      rewrite ?(reset_on_token_cleared _ Hn); apply cleared_is_idle, Hn.
  - intros m Ha Ht Hp s'. subst s'.
    unfold onMessage.
    assert (Hearly : forall a, In a early_actions -> is_str (action m) a = false).
    { intros a Hin. unfold is_str in *. destruct (action m); try reflexivity.
      apply String.eqb_eq in Ha. subst s0.
      cbn in Hin. intuition (subst; reflexivity). }
    rewrite !Hearly by (cbn; tauto).
    unfold token_pair_step. rewrite Ha, Ht, Hp. cbn [andb].
    unfold send_token_step.
    destruct (is_str (type m) "SEND_TOKEN"); cbn [fst snd].
    + rewrite (reset_on_token_cleared _ (reset_on_token_running s Hw)).
      apply cleared_is_idle, reset_on_token_running, Hw.
    + apply cleared_is_idle, reset_on_token_running, Hw.
  - cbn zeta. unfold pollForTokenRequest.
    destruct (getSettings st s) as [settings s0] eqn:Hg.
    assert (Hw0 : is_waiting s0 = true)
      by (replace s0 with (snd (getSettings st s)) by (rewrite Hg; reflexivity);
          rewrite getSettings_waiting; exact Hw).
    rewrite Hw0. split; reflexivity.
  - intros t p fp colors s'. subst s'. cbn [handleTokenPair fst].
    apply cleared_is_idle, reset_on_token_running, Hw.
Qed.

Lemma token_arrival_clears_wait_witness :
  is_waiting (mkState (Some 1000) true true) = true /\
  tokenWaitStartTime
    (fst (fst (onMessage default_storage 5000 send_token_message
                 (mkState (Some 1000) true true)))) = None.
Proof.
  split; [reflexivity|].
  apply (token_arrival_clears_wait default_storage 5000
           (mkClock 0 0 0 0) (mkState (Some 1000) true true)); reflexivity.
Defined.

(** ** The two cache clears of one tick *)

(** C9: the clear of the overdue transition and the clear that follows the
    reload are decided by separate tests and can both run in one tick: a
    tracker waiting since 1000, polled at 40000, resets its timer at 40100
    after the first clear; when the reload step returns at 56000, more than
    15000 ms after the reset, the second clear runs as well.  Each clear
    also occurs without the other. *)
Theorem both_clears_in_one_tick :
  (exists st clk s,
     is_waiting s = true /\
     now_wait clk <= now_reset clk <= now_half clk /\
     let es := snd (tick_needed st clk s) in
     overdue_clear_in es = true /\ reload_clear_in es = true /\
     length (filter is_clear es) = 2%nat /\
     length (filter is_reload es) = 1%nat) /\
  (exists st clk s,
     is_waiting s = true /\
     let es := snd (tick_needed st clk s) in
     overdue_clear_in es = true /\ reload_clear_in es = false) /\
  (exists st clk s,
     is_waiting s = true /\
     let es := snd (tick_needed st clk s) in
     overdue_clear_in es = false /\ reload_clear_in es = true).
Proof.
  repeat apply conj.
  - exists default_storage, both_clears_clock, (mkState (Some 1000) true true).
    cbn. repeat split; try reflexivity; lia.
  - exists default_storage, (mkClock 40000 40000 40100 40200),
      (mkState (Some 1000) true true).
    cbn. repeat split; reflexivity.
  - exists default_storage, (mkClock 20000 20000 20000 20100),
      (mkState (Some 1000) true true).
    cbn. repeat split; reflexivity.
Qed.

End TrackerFacts.

Section RegexChecks.
Import Regex.

Example pixel_url_matches :
  is_pixel_post_url "https://backend.wplace.live/s0/pixel/1/1" = true /\
  is_pixel_post_url "https://backend.wplace.live/me" = false.
Proof. split; vm_compute; reflexivity. Qed.

Example chunk_candidates :
  is_chunk_candidate "https://wplace.live/_app/immutable/chunks/BdJF80pX.js" = true /\
  is_chunk_candidate "https://wplace.live/_APP/immutable/chunks/a.JS?v=1" = true /\
  is_chunk_candidate "https://wplace.live/_app/immutable/chunks/a.json" = false /\
  is_chunk_candidate "https://wplace.live/_app/immutable/entry/start.js" = false.
Proof. repeat split; vm_compute; reflexivity. Qed.

Example signature_examples :
  has_pawtect_signature "export function GET_PAWTECTED_ENDPOINT_PAYLOAD(a,b){}" = true /\
  has_pawtect_signature "x.__wbindgen_malloc(n,1)" = true /\
  has_pawtect_signature "console.log(1)" = false.
Proof. repeat split; vm_compute; reflexivity. Qed.

End RegexChecks.

(* ===================================================================== *)
(** * Properties of the page-world code *)
(* ===================================================================== *)

Section PageFacts.
Import Regex Page.

(** ** The equations of the monad *)

Lemma run_bind {A B} (m : M A) (k : A -> M B) w :
  bind m k w =
  match m w with
  | (Normal a, w1, e1) =>
      (completion (k a w1), world_of (k a w1), e1 ++ events_of (k a w1))
  | (Abrupt, w1, e1) => (Abrupt, w1, e1)
  end.
Proof.
  unfold bind, completion, world_of, events_of.
  destruct (m w) as [[[a|] w1] e1]; [|reflexivity].
  destruct (k a w1) as [[c2 w2] e2]. reflexivity.
Qed.

Lemma run_bind_normal {A B} (m : M A) (k : A -> M B) w a w1 e1 :
  m w = (Normal a, w1, e1) ->
  bind m k w = (completion (k a w1), world_of (k a w1), e1 ++ events_of (k a w1)).
Proof. intros H. rewrite run_bind, H. reflexivity. Qed.

Lemma run_bind_abrupt {A B} (m : M A) (k : A -> M B) w w1 e1 :
  m w = (Abrupt, w1, e1) -> bind m k w = (Abrupt, w1, e1).
Proof. intros H. rewrite run_bind, H. reflexivity. Qed.

Lemma run_eta {A} (r : Completion A * World * list Event) :
  (completion r, world_of r, events_of r) = r.
Proof. destruct r as [[c w] e]. reflexivity. Qed.

Lemma run_try_normal {A} (m h : M A) w a w1 e1 :
  m w = (Normal a, w1, e1) -> try_catch m h w = (Normal a, w1, e1).
Proof. intros H. unfold try_catch. rewrite H. reflexivity. Qed.

(** ** Rules for [emits] and [returns] *)

Lemma emits_ret {A} P (a : A) : emits P (ret a).
Proof. intros w. constructor. Qed.

Lemma emits_throw {A} P : emits P (@throw A).
Proof. intros w. constructor. Qed.

Lemma emits_emit P e : P e -> emits P (emit e).
Proof. intros H w. repeat constructor. exact H. Qed.

Lemma emits_read {A} P (f : World -> A) : emits P (read f).
Proof. intros w. constructor. Qed.

Lemma emits_modify P f : emits P (modify f).
Proof. intros w. constructor. Qed.

Lemma emits_bind {A B} P (m : M A) (k : A -> M B) :
  emits P m -> (forall a, emits P (k a)) -> emits P (bind m k).
Proof.
  intros Hm Hk w. unfold bind, events_of. specialize (Hm w).
  destruct (m w) as [[c w1] e1]. destruct c as [a|]; [|exact Hm].
  specialize (Hk a w1). destruct (k a w1) as [[c2 w2] e2].
  cbn in *. apply Forall_app. split; assumption.
Qed.

Lemma emits_try_catch {A} P (m h : M A) :
  emits P m -> emits P h -> emits P (try_catch m h).
Proof.
  intros Hm Hh w. unfold try_catch, events_of. specialize (Hm w).
  destruct (m w) as [[c w1] e1]. destruct c as [a|]; [exact Hm|].
  specialize (Hh w1). destruct (h w1) as [[c2 w2] e2].
  cbn in *. apply Forall_app. split; assumption.
Qed.

Lemma emits_attempt P (m : M unit) : emits P m -> emits P (attempt m).
Proof. intros H. apply emits_try_catch; [exact H | apply emits_ret]. Qed.

Lemma emits_spawn {A} P (m : M A) : emits P m -> emits P (spawn m).
Proof.
  intros Hm w. unfold spawn, events_of. specialize (Hm w).
  destruct (m w) as [[c w1] e1]. exact Hm.
Qed.

Lemma emits_on_memory {A} P (op : MemOp A) : emits P (on_memory op).
Proof. intros w. unfold on_memory, events_of. destruct (op _). constructor. Qed.

Lemma emits_of_completion {A} P (c : Completion A) : emits P (of_completion c).
Proof. intros w. constructor. Qed.

Lemma emits_of_option {A} P (o : option A) : emits P (of_option o).
Proof. destruct o; [apply emits_ret | apply emits_throw]. Qed.

Lemma returns_ret {A} (a : A) : returns (ret a).
Proof. intros w. exists a. reflexivity. Qed.

Lemma returns_bind {A B} (m : M A) (k : A -> M B) :
  returns m -> (forall a, returns (k a)) -> returns (bind m k).
Proof.
  intros Hm Hk w. unfold bind, completion. destruct (Hm w) as [a Ha].
  unfold completion in Ha. destruct (m w) as [[c w1] e1]. cbn in Ha. subst c.
  destruct (Hk a w1) as [b Hb]. unfold completion in Hb.
  destruct (k a w1) as [[c2 w2] e2]. cbn in *. exists b. exact Hb.
Qed.

Lemma returns_try_catch {A} (m h : M A) : returns h -> returns (try_catch m h).
Proof.
  intros Hh w. unfold try_catch, completion.
  destruct (m w) as [[c w1] e1]. destruct c as [a|].
  - exists a. reflexivity.
  - destruct (Hh w1) as [b Hb]. unfold completion in Hb.
    destruct (h w1) as [[c2 w2] e2]. exists b. exact Hb.
Qed.

Lemma returns_attempt (m : M unit) : returns (attempt m).
Proof. apply returns_try_catch, returns_ret. Qed.

Lemma returns_spawn {A} (m : M A) : returns (spawn m).
Proof.
  intros w. unfold spawn, completion. destruct (m w) as [[c w1] e1].
  exists tt. reflexivity.
Qed.

Lemma returns_read {A} (f : World -> A) : returns (read f).
Proof. intros w. eexists. reflexivity. Qed.

Lemma returns_modify f : returns (modify f).
Proof. intros w. eexists. reflexivity. Qed.

Lemma returns_emit e : returns (emit e).
Proof. intros w. eexists. reflexivity. Qed.

Create HintDb js discriminated.
#[local] Hint Resolve emits_ret emits_throw emits_read emits_modify
  emits_on_memory emits_of_completion emits_of_option : js.
#[local] Hint Resolve returns_ret returns_attempt returns_spawn returns_read
  returns_modify returns_emit : js.

(** One step of a proof that a computation only produces events in [P]. *)
Ltac emits_step :=
  match goal with
  | |- emits _ (bind _ _) => apply emits_bind; [|intros ?]
  | |- emits _ (try_catch _ _) => apply emits_try_catch
  | |- emits _ (attempt _) => apply emits_attempt
  | |- emits _ (spawn _) => apply emits_spawn
  | |- emits _ (emit _) => apply emits_emit
  | |- emits _ (match ?x with _ => _ end) => destruct x
  | |- emits _ (if ?b then _ else _) => destruct b
  | |- emits _ _ => solve [auto with js]
  end.

(** ** The discovery scan *)

Section Scan.
Variable E : Env.

Lemma scan_step_reject url rest w :
  accepts E url = false ->
  scan E (url :: rest) w =
  (completion (scan E rest w), world_of (scan E rest w),
   NetFetch url :: events_of (scan E rest w)).
Proof.
  intros H. unfold accepts in H. cbn [scan].
  rewrite (run_bind_normal _ _ w tt w [NetFetch url]) by reflexivity.
  destruct (net_fetch E url) as [|[] [text|]]; try (rewrite H); reflexivity.
Qed.

Lemma scan_step_accept url rest w :
  accepts E url = true ->
  scan E (url :: rest) w = (Normal (Some url), found url w, [NetFetch url]).
Proof.
  intros H. unfold accepts in H. cbn [scan].
  rewrite (run_bind_normal _ _ w tt w [NetFetch url]) by reflexivity.
  destruct (net_fetch E url) as [|[] [text|]]; try discriminate.
  rewrite H. reflexivity.
Qed.

Lemma scan_exhausted candidates w :
  (forall x, In x candidates -> accepts E x = false) ->
  scan E candidates w = (Normal None, w, map NetFetch candidates).
Proof.
  induction candidates as [|url rest IH]; intros Hall; [reflexivity|].
  rewrite scan_step_reject by (apply Hall; left; reflexivity).
  rewrite IH by (intros x Hx; apply Hall; right; exact Hx).
  reflexivity.
Qed.

Lemma scan_first_match pre url post w :
  (forall x, In x pre -> accepts E x = false) ->
  accepts E url = true ->
  scan E (pre ++ url :: post) w =
  (Normal (Some url), found url w, map NetFetch (pre ++ [url])).
Proof.
  induction pre as [|p pre IH]; intros Hpre Hurl.
  - apply scan_step_accept, Hurl.
  - cbn [app]. rewrite scan_step_reject by (apply Hpre; left; reflexivity).
    rewrite IH by (try exact Hurl; intros x Hx; apply Hpre; right; exact Hx).
    reflexivity.
Qed.

(** Every list of candidates either has a first accepted element or none. *)
Lemma first_accepted (l : list string) :
  (forall x, In x l -> accepts E x = false) \/
  (exists pre url post,
     l = pre ++ url :: post /\
     (forall x, In x pre -> accepts E x = false) /\ accepts E url = true).
Proof.
  induction l as [|a l IH].
  - left. intros x [].
  - destruct (accepts E a) eqn:Ha.
    + right. exists [], a, l. repeat split; [intros x []|exact Ha].
    + destruct IH as [Hnone | (pre & url & post & -> & Hpre & Hurl)].
      * left. intros x [<-|Hx]; [exact Ha | apply Hnone, Hx].
      * right. exists (a :: pre), url, post. repeat split; [|exact Hurl].
        intros x [<-|Hx]; [exact Ha | apply Hpre, Hx].
Qed.

(** The [Set] of the scan holds its sources in the order they were first
    seen. *)
Lemma filter_absorb {A} (f g : A -> bool) (l : list A) :
  (forall y, f y = true -> g y = true) ->
  List.filter f (List.filter g l) = List.filter f l.
Proof.
  intros H. induction l as [|a l IH]; [reflexivity|]. cbn.
  destruct (g a) eqn:Hg; cbn.
  - rewrite IH. reflexivity.
  - destruct (f a) eqn:Hf; [|exact IH].
    apply H in Hf. congruence.
Qed.

Lemma filter_twice {A} (f g : A -> bool) (l : list A) :
  List.filter f (List.filter g l) = List.filter (fun y => g y && f y) l.
Proof.
  induction l as [|a l IH]; [reflexivity|]. cbn.
  destruct (g a); cbn; [destruct (f a)|]; rewrite ?IH; reflexivity.
Qed.

Lemma fold_set_add (xs acc : list string) :
  fold_left (fun a x => set_add x a) xs acc =
  acc ++ List.filter (fun y => negb (existsb (String.eqb y) acc)) (first_seen xs).
Proof.
  revert acc. induction xs as [|x xs IH]; intros acc.
  - cbn. rewrite app_nil_r. reflexivity.
  - cbn [fold_left first_seen List.filter]. rewrite IH. unfold set_add.
    destruct (existsb (String.eqb x) acc) eqn:Hx; cbn [negb].
    + f_equal. symmetry. apply filter_absorb. intros y Hy.
      destruct (String.eqb_spec x y) as [->|]; [|reflexivity].
      rewrite Hx in Hy. discriminate.
    + rewrite <- app_assoc. cbn [app]. do 2 f_equal.
      rewrite filter_twice. apply List.filter_ext. intros y.
      rewrite existsb_app. cbn [existsb]. rewrite orb_false_r, negb_orb.
      rewrite (String.eqb_sym y x). apply andb_comm.
Qed.

Lemma fold_add_resolved srcs acc :
  fold_left (add_resolved E) srcs acc =
  fold_left (fun a x => set_add x a) (omap (resolve_url E) srcs) acc.
Proof.
  revert acc. induction srcs as [|x srcs IH]; intros acc; [reflexivity|].
  cbn [fold_left omap list_omap]. rewrite IH. unfold add_resolved.
  destruct (resolve_url E x); reflexivity.
Qed.

Lemma fold_add_entry names acc :
  fold_left add_entry names acc =
  fold_left (fun a x => set_add x a) (List.filter nonempty names) acc.
Proof.
  revert acc. induction names as [|x names IH]; intros acc; [reflexivity|].
  cbn [fold_left List.filter]. rewrite IH. unfold add_entry.
  destruct (nonempty x); reflexivity.
Qed.

Lemma collected_in_order : collected_urls E = first_seen (sources E).
Proof.
  unfold collected_urls, sources.
  assert (H0 : forall xs, first_seen xs =
             fold_left (fun a x => set_add x a) xs []).
  { intros xs. rewrite fold_set_add. cbn [app existsb negb].
    symmetry. clear. induction (first_seen xs) as [|a l IH]; [reflexivity|].
    cbn. rewrite IH. reflexivity. }
  rewrite H0, !fold_left_app, <- !fold_add_resolved.
  destruct (resource_entries E) as [names|].
  - rewrite fold_add_entry. reflexivity.
  - reflexivity.
Qed.

End Scan.

(** ** The module locator *)

Section Locator.
Variable E : Env.

Lemma getOptimizedPawtectUrl_run w :
  getOptimizedPawtectUrl w =
  (Normal (first_choice w),
   match cached_path w with
   | Some c => set_pawtectChunk (VStr c) w
   | None => w
   end, []).
Proof.
  unfold getOptimizedPawtectUrl, first_choice, cached_path, last_known.
  rewrite (run_bind_normal _ _ w (localStorage w !! ls_path_key) w []) by reflexivity.
  change ls_path_key with "wplacer_pawtect_path".
  destruct (localStorage w !! "wplacer_pawtect_path") as [c|]; cbn [app].
  - destruct (nonempty c); [reflexivity|].
    rewrite (run_bind_normal _ _ w (pawtectChunk w) w []) by reflexivity.
    destruct (pawtectChunk w) as [| | | |u| |]; try reflexivity.
    destruct (nonempty u); reflexivity.
  - rewrite (run_bind_normal _ _ w (pawtectChunk w) w []) by reflexivity.
    destruct (pawtectChunk w) as [| | | |u| |]; try reflexivity.
    destruct (nonempty u); reflexivity.
Qed.

Lemma import_run url w :
  import E url w =
  (match dyn_import E url with Some m => Normal m | None => Abrupt end, w, [Import url]).
Proof.
  unfold import.
  rewrite (run_bind_normal _ _ w tt w [Import url]) by reflexivity.
  destruct (dyn_import E url); reflexivity.
Qed.

(** [try { return await import(url) } catch { }] *)
Lemma guarded_import_run url w :
  try_catch (bind (import E url) (fun m => ret (Some m))) (ret None) w =
  (Normal (dyn_import E url), w, [Import url]).
Proof.
  unfold try_catch. rewrite run_bind, import_run.
  destruct (dyn_import E url); reflexivity.
Qed.

Lemma try_fast_step url rest w :
  try_fast E (url :: rest) w =
  match dyn_import E url with
  | Some m => (Normal (Some m), w, [Import url])
  | None =>
      (completion (try_fast E rest w), world_of (try_fast E rest w),
       Import url :: events_of (try_fast E rest w))
  end.
Proof.
  cbn [try_fast]. rewrite run_bind, guarded_import_run.
  destruct (dyn_import E url); reflexivity.
Qed.

Lemma try_fast_exhausted urls w :
  (forall x, In x urls -> dyn_import E x = None) ->
  try_fast E urls w = (Normal None, w, map Import urls).
Proof.
  induction urls as [|url rest IH]; intros Hall; [reflexivity|].
  rewrite try_fast_step, (Hall url) by (left; reflexivity).
  rewrite IH by (intros x Hx; apply Hall; right; exact Hx).
  reflexivity.
Qed.

Lemma try_fast_first pre url post m w :
  (forall x, In x pre -> dyn_import E x = None) ->
  dyn_import E url = Some m ->
  try_fast E (pre ++ url :: post) w = (Normal (Some m), w, map Import (pre ++ [url])).
Proof.
  induction pre as [|p pre IH]; intros Hpre Hurl.
  - cbn [app]. rewrite try_fast_step, Hurl. reflexivity.
  - cbn [app]. rewrite try_fast_step, (Hpre p) by (left; reflexivity).
    rewrite IH by (try exact Hurl; intros x Hx; apply Hpre; right; exact Hx).
    reflexivity.
Qed.

Lemma try_fast_returns urls w :
  exists r, completion (try_fast E urls w) = Normal r.
Proof.
  induction urls as [|url rest IH]; [eexists; reflexivity|].
  rewrite try_fast_step. destruct (dyn_import E url); [eexists; reflexivity|].
  exact IH.
Qed.

Lemma discover_returns w : exists d, completion (discoverPawtectChunk E w) = Normal d.
Proof.
  unfold discoverPawtectChunk.
  destruct (first_accepted E (chunkCandidates E))
    as [Hall | (pre & url & post & Hc & Hpre & Hurl)].
  - rewrite (run_try_normal _ _ w _ _ _ (scan_exhausted E _ w Hall)).
    eexists. reflexivity.
  - rewrite Hc.
    rewrite (run_try_normal _ _ w _ _ _ (scan_first_match E pre url post w Hpre Hurl)).
    eexists. reflexivity.
Qed.

Lemma importModule_run w :
  importModule E w =
  let fast := fastCandidates E (first_choice w) in
  let w1 := after_lookup w in
  match try_fast E fast w1 with
  | (Normal (Some m), w2, e2) => (Normal (Some m), w2, e2)
  | (Normal None, w2, e2) =>
      let d := discoverPawtectChunk E w2 in
      match completion d with
      | Normal (Some u) =>
          (Normal (dyn_import E u), world_of d, e2 ++ events_of d ++ [Import u])
      | Normal None => (Normal None, world_of d, e2 ++ events_of d ++ [])
      | Abrupt => (Abrupt, world_of d, e2 ++ events_of d)
      end
  | (Abrupt, w2, e2) => (Abrupt, w2, e2)
  end.
Proof.
  unfold importModule. rewrite run_bind, getOptimizedPawtectUrl_run.
  cbn [app]. fold (after_lookup w). cbn zeta.
  rewrite run_bind.
  destruct (try_fast E (fastCandidates E (first_choice w)) (after_lookup w))
    as [[[[m|]|] w2] e2]; cbn [completion world_of events_of fst snd ret];
    [rewrite app_nil_r; reflexivity| |rewrite ?app_nil_r; reflexivity].
  rewrite run_bind.
  destruct (discoverPawtectChunk E w2) as [[[[u|]|] w3] e3];
    cbn [completion world_of events_of fst snd]; [| |reflexivity].
  - rewrite guarded_import_run. reflexivity.
  - reflexivity.
Qed.

End Locator.

(** C4, as stated, fails: with a stored path whose import is rejected (and
    the fallback chunk gone as well) the locator does enter the discovery
    scan and requests the candidates over the network. *)
Lemma stale_cache_enters_scan :
  cached_path (Demo.with_cache "https://wplace.live/_app/immutable/chunks/old.js")
  = Some "https://wplace.live/_app/immutable/chunks/old.js" /\
  requests (events_of
    (importModule (Demo.env (Demo.only Demo.chunk_paw) VNull)
       (Demo.with_cache "https://wplace.live/_app/immutable/chunks/old.js")))
  = [Demo.chunk_a; Demo.chunk_paw] /\
  completion
    (importModule (Demo.env (Demo.only Demo.chunk_paw) VNull)
       (Demo.with_cache "https://wplace.live/_app/immutable/chunks/old.js"))
  = Normal (Some (Demo.the_module Demo.chunk_paw)).
Proof. repeat split; vm_compute; reflexivity. Qed.

(** C4, amended: the locator never throws.  Its fast candidates are, in
    this order, the stored path if there is one, otherwise the in-memory
    URL if there is one, then the fallback on the page's origin and the
    absolute fallback.  They are imported in that order up to the first
    success, which is returned without any scan: in particular a stored
    path that imports is the only thing tried.  The discovery scan is
    entered exactly when every fast candidate fails to import, after all of
    them, and the URL it returns is imported last. *)
Theorem locator_order (E : Env) (w : World) :
  let r := importModule E w in
  let fast := fastCandidates E (first_choice w) in
  (exists m, completion r = Normal m) /\
  fast = match cached_path w, last_known w with
         | Some c, _ => [c]
         | None, Some u => [u]
         | None, None => []
         end ++ [fallback_on_origin E; fallback_absolute] /\
  (forall pre u post m,
     fast = pre ++ u :: post ->
     (forall x, In x pre -> dyn_import E x = None) ->
     dyn_import E u = Some m ->
     completion r = Normal (Some m) /\
     events_of r = map Import (pre ++ [u])) /\
  (forall c m,
     cached_path w = Some c -> dyn_import E c = Some m ->
     completion r = Normal (Some m) /\ events_of r = [Import c]) /\
  ((forall x, In x fast -> dyn_import E x = None) ->
     let d := discoverPawtectChunk E (after_lookup w) in
     events_of r =
       map Import fast ++ events_of d
       ++ match completion d with Normal (Some u) => [Import u] | _ => [] end /\
     completion r =
       Normal (match completion d with
               | Normal (Some u) => dyn_import E u
               | _ => None
               end)).
Proof.
  intros r fast. subst r.
  assert (Hfirst : forall pre u post m,
     fast = pre ++ u :: post ->
     (forall x, In x pre -> dyn_import E x = None) ->
     dyn_import E u = Some m ->
     completion (importModule E w) = Normal (Some m) /\
     events_of (importModule E w) = map Import (pre ++ [u])).
  { intros pre u post m Hf Hpre Hu. rewrite importModule_run. cbn zeta.
    fold fast. rewrite Hf.
    rewrite (try_fast_first E pre u post m _ Hpre Hu). split; reflexivity. }
  split; [|split; [|split; [|split]]].
  - rewrite importModule_run. cbn zeta.
    destruct (try_fast E _ _) as [[[[m|]|] w2] e2] eqn:Hfast.
    + eexists; reflexivity.
    + destruct (discover_returns E w2) as [d Hd]. rewrite Hd.
      destruct d; eexists; reflexivity.
    + destruct (try_fast_returns E (fastCandidates E (first_choice w))
                  (after_lookup w)) as [x Hx].
      rewrite Hfast in Hx. discriminate.
  - subst fast. unfold fastCandidates, first_choice.
    destruct (cached_path w); [reflexivity|]. destruct (last_known w); reflexivity.
  - exact Hfirst.
  - intros c m Hc Hm.
    apply (Hfirst [] c [fallback_on_origin E; fallback_absolute] m);
      [|intros x []|exact Hm].
    subst fast. unfold fastCandidates, first_choice. rewrite Hc. reflexivity.
  - intros Hall d. rewrite importModule_run. cbn zeta. fold fast.
    rewrite (try_fast_exhausted E fast _ Hall). fold d.
    destruct (discover_returns E (after_lookup w)) as [x Hx]. fold d in Hx.
    rewrite Hx. destruct x; split; reflexivity.
Qed.

Lemma locator_order_witness :
  completion
    (importModule (Demo.env Demo.everything VNull) (Demo.with_cache Demo.chunk_paw))
  = Normal (Some (Demo.the_module Demo.chunk_paw)) /\
  events_of
    (importModule (Demo.env Demo.everything VNull) (Demo.with_cache Demo.chunk_paw))
  = [Import Demo.chunk_paw].
Proof.
  destruct (locator_order (Demo.env Demo.everything VNull)
              (Demo.with_cache Demo.chunk_paw)) as (_ & _ & _ & Hcached & _).
  apply (Hcached Demo.chunk_paw (Demo.the_module Demo.chunk_paw));
    vm_compute; reflexivity.
Defined.

(** ** What the injected code emits *)

Section Emission.
Variable E : Env.
Variable origin : string.

Lemma emits_getOptimizedPawtectUrl : emits (inner_event origin) getOptimizedPawtectUrl.
Proof. unfold getOptimizedPawtectUrl, getItem. repeat emits_step. Qed.

Lemma emits_scan candidates : emits (inner_event origin) (scan E candidates).
Proof.
  induction candidates as [|url rest IH]; cbn [scan]; [apply emits_ret|].
  unfold setItem. repeat emits_step; try exact I; exact IH.
Qed.

Lemma emits_discoverPawtectChunk : emits (inner_event origin) (discoverPawtectChunk E).
Proof.
  unfold discoverPawtectChunk. apply emits_try_catch;
    [apply emits_scan | apply emits_ret].
Qed.

Lemma emits_import url : emits (inner_event origin) (import E url).
Proof. unfold import. repeat emits_step. exact I. Qed.

Lemma emits_try_fast urls : emits (inner_event origin) (try_fast E urls).
Proof.
  induction urls as [|url rest IH]; cbn [try_fast]; [apply emits_ret|].
  apply emits_bind.
  - apply emits_try_catch; [|apply emits_ret].
    apply emits_bind; [apply emits_import | intros; apply emits_ret].
  - intros [m|]; [apply emits_ret | exact IH].
Qed.

Lemma emits_importModule : emits (inner_event origin) (importModule E).
Proof.
  unfold importModule.
  apply emits_bind; [apply emits_getOptimizedPawtectUrl | intros cachedUrl].
  apply emits_bind; [apply emits_try_fast | intros [m|]]; [apply emits_ret|].
  apply emits_bind; [apply emits_discoverPawtectChunk | intros [u|]];
    [|apply emits_ret].
  apply emits_try_catch; [|apply emits_ret].
  apply emits_bind; [apply emits_import | intros; apply emits_ret].
Qed.

Lemma emits_invoke m url body : emits (inner_event origin) (invoke E m url body).
Proof.
  unfold invoke, start, identity_hint. repeat emits_step. exact I.
Qed.

Lemma emits_decode_at ptr len : emits (inner_event origin) (decode_at E ptr len).
Proof. unfold decode_at. repeat emits_step. Qed.

Lemma emits_decode_out unrecognized out :
  emits (inner_event origin) (decode_out E unrecognized out).
Proof.
  unfold decode_out.
  destruct out; try destruct (has_ptr_len _);
    auto using emits_decode_at, emits_ret.
Qed.

Lemma emits_post token : emits (inner_event origin) (post token origin).
Proof. apply emits_emit. split; reflexivity. Qed.

Lemma emits_cached_or_fallback : emits (inner_event origin) (cached_or_fallback E).
Proof.
  unfold cached_or_fallback, getItem.
  apply emits_bind; [apply emits_read|].
  intros [c|]; [destruct (nonempty c)|]; apply emits_import.
Qed.

(** Everything after the first few lines of the three computations. *)
Lemma emits_tail m url body unrecognized :
  emits (inner_event origin)
    (bind (invoke E m url body) (fun out =>
     bind (decode_out E unrecognized out) (fun token => post token origin))).
Proof.
  apply emits_bind; [apply emits_invoke | intros out].
  apply emits_bind; [apply emits_decode_out | intros token].
  apply emits_post.
Qed.

End Emission.

Lemma emits_seedPawtect E rawBody :
  emits (inner_event "seed") (seedPawtect E rawBody).
Proof.
  unfold seedPawtect. apply emits_attempt.
  apply emits_bind; [apply emits_cached_or_fallback | intros m].
  apply emits_tail.
Qed.

Lemma emits_computePawtectForT E tValue :
  emits (inner_event "simple") (computePawtectForT E tValue).
Proof.
  unfold computePawtectForT. apply emits_attempt.
  apply emits_bind; [apply emits_cached_or_fallback | intros m].
  apply emits_tail.
Qed.

(** A call of [computePawtect] is one [Compute] event followed by inner
    events tagged [pixel]. *)
Lemma computePawtect_events E url body w :
  exists es,
    events_of (computePawtect E url body w) = Compute url body :: es /\
    Forall (inner_event "pixel") es.
Proof.
  unfold computePawtect.
  rewrite (run_bind_normal _ _ w tt w [Compute url body]) by reflexivity.
  cbn [events_of snd app]. eexists. split; [reflexivity|].
  assert (H : emits (inner_event "pixel")
    (bind (importModule E) (fun imported =>
       match imported with
       | Some m =>
           if negb (has_underscore m) then ret VNull
           else bind (invoke E m url body) (fun out =>
                bind (decode_out E VNull out) (fun token =>
                bind (post token "pixel") (fun _ => ret token)))
       | None => ret VNull
       end))).
  { apply emits_bind; [apply emits_importModule | intros [m|]];
      [|apply emits_ret].
    destruct (negb (has_underscore m)); [apply emits_ret|].
    apply emits_bind; [apply emits_invoke | intros out].
    apply emits_bind; [apply emits_decode_out | intros token].
    apply emits_bind; [apply emits_post | intros; apply emits_ret]. }
  exact (H w).
Qed.

(** ** The [fetch] hook *)

Section Hook.
Variable E : Env.

Lemma inner_is_hook_event e : inner_event "pixel" e -> hook_event e.
Proof. destruct e; cbn; tauto. Qed.

Lemma inner_no_computes origin es :
  Forall (inner_event origin) es -> computes es = [] /\ forwarded es = [].
Proof.
  induction 1 as [|e es He _ [IH1 IH2]]; [split; reflexivity|].
  destruct e; cbn in He; try contradiction; cbn; split; assumption.
Qed.

Lemma hook_no_forward es : Forall hook_event es -> forwarded es = [].
Proof.
  induction 1 as [|e es He _ IH]; [reflexivity|].
  destruct e; cbn in He; try contradiction; exact IH.
Qed.

Lemma emits_computePawtect url body : emits hook_event (computePawtect E url body).
Proof.
  intros w. destruct (computePawtect_events E url body w) as (es & -> & Hes).
  constructor; [exact I|].
  eapply Forall_impl; [exact Hes|]. apply inner_is_hook_event.
Qed.

Lemma emits_compute_from_clone req : emits hook_event (compute_from_clone E req).
Proof.
  unfold compute_from_clone. apply emits_attempt.
  apply emits_bind; [apply emits_of_option | intros text].
  apply emits_spawn, emits_computePawtect.
Qed.

Lemma emits_observe args : emits hook_event (observe E args).
Proof.
  unfold observe. apply emits_attempt.
  apply emits_bind; [apply emits_of_completion | intros req].
  destruct (_ && _); [|apply emits_ret].
  destruct (get _ "body"); try apply emits_compute_from_clone.
  destruct (nonempty _);
    [apply emits_spawn, emits_computePawtect | apply emits_compute_from_clone].
Qed.

Lemma attempt_completion (m : M unit) w : completion (attempt m w) = Normal tt.
Proof.
  unfold attempt, try_catch, completion.
  destruct (m w) as [[[[]|] w1] e1]; reflexivity.
Qed.

Lemma spawn_run {A} (m : M A) w :
  spawn m w = (Normal tt, world_of (m w), events_of (m w)).
Proof. unfold spawn. destruct (m w) as [[c w1] e1]. reflexivity. Qed.

Lemma compute_from_clone_run req body w :
  req_clone_text req = Some body ->
  compute_from_clone E req w =
  (Normal tt, world_of (computePawtect E (req_url req) body w),
   events_of (computePawtect E (req_url req) body w)).
Proof.
  intros H. unfold compute_from_clone, attempt.
  apply run_try_normal. rewrite H.
  rewrite (run_bind_normal _ _ w body w []) by reflexivity.
  rewrite spawn_run. reflexivity.
Qed.

(** The hook on a placement request whose body is the string [body]. *)
Lemma observe_pixel_post args req body w :
  new_request E (arg 0 args) (or_else (arg 1 args) (VObj [])) = Normal req ->
  req_method req = "POST" ->
  is_pixel_post_url (req_url req) = true ->
  req_clone_text req = Some body ->
  (forall raw, get (or_else (arg 1 args) (VObj [])) "body" = VStr raw -> raw = body) ->
  observe E args w =
  (Normal tt, world_of (computePawtect E (req_url req) body w),
   events_of (computePawtect E (req_url req) body w)).
Proof.
  intros Hreq Hm Hu Hb Hinit. unfold observe, attempt.
  apply run_try_normal. rewrite Hreq.
  rewrite (run_bind_normal _ _ w req w []) by reflexivity.
  rewrite Hm, Hu. cbn [String.eqb Ascii.eqb Bool.eqb andb app].
  destruct (get (or_else (arg 1 args) (VObj [])) "body") eqn:Hg;
    try (rewrite (compute_from_clone_run req body w Hb); reflexivity).
  rewrite (Hinit _ eq_refl).
  destruct (nonempty body).
  - rewrite spawn_run. reflexivity.
  - rewrite (compute_from_clone_run req body w Hb). reflexivity.
Qed.

(** One hook around the browser's [fetch]. *)
Lemma hooked_once_run args w :
  call_fetch E (HookedFetch NativeFetch) args w =
  (native_fetch E args, world_of (observe E args w),
   events_of (observe E args w) ++ [OriginalFetch args]).
Proof.
  cbn [call_fetch]. rewrite run_bind.
  pose proof (attempt_completion
                (bind (of_completion
                         (new_request E (arg 0 args) (or_else (arg 1 args) (VObj []))))
                   (fun req =>
                      if String.eqb (req_method req) "POST"
                         && is_pixel_post_url (req_url req)
                      then match get (or_else (arg 1 args) (VObj [])) "body" with
                           | VStr raw =>
                               if nonempty raw
                               then spawn (computePawtect E (req_url req) raw)
                               else compute_from_clone E req
                           | _ => compute_from_clone E req
                           end
                      else ret tt)) w) as Hc.
  fold (observe E args) in Hc. unfold completion in Hc.
  destruct (observe E args w) as [[c w1] e1]. cbn in Hc. subst c.
  cbn [world_of events_of fst snd completion].
  rewrite (run_bind_normal _ _ w1 tt w1 [OriginalFetch args]) by reflexivity.
  reflexivity.
Qed.

Lemma omap_app {A B} (f : A -> option B) (l1 l2 : list A) :
  omap f (l1 ++ l2) = omap f l1 ++ omap f l2.
Proof.
  induction l1 as [|a l1 IH]; [reflexivity|].
  cbn. destruct (f a); cbn; rewrite IH; reflexivity.
Qed.

Lemma hooked_once_computes args req body w :
  new_request E (arg 0 args) (or_else (arg 1 args) (VObj [])) = Normal req ->
  req_method req = "POST" ->
  is_pixel_post_url (req_url req) = true ->
  req_clone_text req = Some body ->
  (forall raw, get (or_else (arg 1 args) (VObj [])) "body" = VStr raw -> raw = body) ->
  computes (events_of (call_fetch E (HookedFetch NativeFetch) args w))
  = [(req_url req, body)].
Proof.
  intros Hreq Hm Hu Hb Hinit. rewrite hooked_once_run.
  rewrite (observe_pixel_post args req body w Hreq Hm Hu Hb Hinit).
  cbn [events_of snd world_of fst].
  destruct (computePawtect_events E (req_url req) body w) as (es & -> & Hes).
  unfold computes. rewrite omap_app. cbn.
  destruct (inner_no_computes _ _ Hes) as [Hc _]. unfold computes in Hc.
  rewrite Hc. reflexivity.
Qed.

End Hook.

(** C3: a call through the hooked [fetch] always ends in one call of the
    original [fetch] with the very argument list the page passed, and its
    result is the original's result, whatever the hook's own [try] block
    did (no request built, no computation, a computation that returns or
    one that throws).  When the request is a POST to a URL containing
    [/s0/pixel/] and its body is the string [body], the hook calls
    [computePawtect] exactly once, with the request's URL and [body]. *)
Theorem hook_forwards_original_arguments (E : Env) (args : list JsVal) (w : World) :
  let r := call_fetch E (HookedFetch NativeFetch) args w in
  let init := or_else (arg 1 args) (VObj []) in
  completion r = native_fetch E args /\
  forwarded (events_of r) = [args] /\
  (exists es, events_of r = es ++ [OriginalFetch args]) /\
  (forall req body,
     new_request E (arg 0 args) init = Normal req ->
     req_method req = "POST" ->
     is_pixel_post_url (req_url req) = true ->
     req_clone_text req = Some body ->
     (forall raw, get init "body" = VStr raw -> raw = body) ->
     computes (events_of r) = [(req_url req, body)]).
Proof.
  intros r init. subst r init. split; [|split; [|split]].
  - rewrite hooked_once_run. reflexivity.
  - rewrite hooked_once_run. cbn [events_of snd].
    unfold forwarded. rewrite omap_app.
    pose proof (hook_no_forward _ (emits_observe E args w)) as H.
    unfold forwarded in H. rewrite H. reflexivity.
  - rewrite hooked_once_run. eexists. reflexivity.
  - intros req body. apply hooked_once_computes.
Qed.

Lemma hook_forwards_original_arguments_witness :
  computes
    (events_of (call_fetch (Demo.env Demo.everything (VStr "tok"))
                  (HookedFetch NativeFetch) Demo.pixel_post Demo.fresh))
  = [(Demo.pixel_url, Demo.pixel_body)] /\
  forwarded
    (events_of (call_fetch (Demo.env Demo.everything (VStr "tok"))
                  (HookedFetch NativeFetch) Demo.pixel_post Demo.fresh))
  = [Demo.pixel_post].
Proof.
  destruct (hook_forwards_original_arguments (Demo.env Demo.everything (VStr "tok"))
              Demo.pixel_post Demo.fresh) as (_ & Hf & _ & Hc).
  split; [|exact Hf].
  apply (Hc (mkRequest "POST" Demo.pixel_url (Some Demo.pixel_body)) Demo.pixel_body);
    try (vm_compute; reflexivity).
  intros raw H. vm_compute in H. injection H as <-. reflexivity.
Defined.

(** ** Installing the hooks *)

(** C6: the injected function run a second time changes nothing and emits
    nothing: the flag it set the first time makes it return at once.  After
    two runs on a page that was not hooked, [window.fetch] is one hook
    around what it was before, and the XMLHttpRequest methods are wrapped
    once.  On a page that started with the browser's [fetch], a matching
    POST through [window.fetch] after two installs therefore calls
    [computePawtect] exactly once and is forwarded once. *)
Theorem install_twice_hooks_once (E : Env) (w : World) (args : list JsVal) :
  let w1 := world_of (injectPawtect w) in
  let w2 := world_of (injectPawtect w1) in
  let init := or_else (arg 1 args) (VObj []) in
  w2 = w1 /\
  events_of (injectPawtect w1) = [] /\
  pawtectHooked w1 = true /\
  (pawtectHooked w = false ->
     windowFetch w2 = HookedFetch (windowFetch w) /\
     hook_depth (windowFetch w2) = S (hook_depth (windowFetch w)) /\
     xhrHooks w2 = S (xhrHooks w)) /\
  (pawtectHooked w = false -> windowFetch w = NativeFetch ->
     forwarded (events_of (page_fetch E args w2)) = [args] /\
     forall req body,
       new_request E (arg 0 args) init = Normal req ->
       req_method req = "POST" ->
       is_pixel_post_url (req_url req) = true ->
       req_clone_text req = Some body ->
       (forall raw, get init "body" = VStr raw -> raw = body) ->
       computes (events_of (page_fetch E args w2)) = [(req_url req, body)]).
Proof.
  cbn zeta. unfold injectPawtect.
  destruct (pawtectHooked w) eqn:Hh; cbn [world_of events_of fst snd].
  - rewrite Hh. cbn [world_of events_of fst snd].
    repeat split; try discriminate; exact Hh.
  - cbn [pawtectHooked world_of events_of fst snd windowFetch xhrHooks hook_depth].
    repeat split; try reflexivity.
    + unfold page_fetch. cbn [windowFetch]. rewrite H0.
      rewrite hooked_once_run. cbn [events_of snd].
      unfold forwarded. rewrite omap_app.
      pose proof (hook_no_forward _ (emits_observe E args
        (mkWorld (localStorage w) (pawtectChunk w) true (HookedFetch NativeFetch)
           (S (xhrHooks w)) (memory w)))) as Hf.
      unfold forwarded in Hf. rewrite Hf. reflexivity.
    + intros req body. unfold page_fetch. cbn [windowFetch]. rewrite H0.
      apply hooked_once_computes.
Qed.

Lemma install_twice_hooks_once_witness :
  computes
    (events_of
       (page_fetch (Demo.env Demo.everything (VStr "tok")) Demo.pixel_post
          (world_of (injectPawtect (world_of (injectPawtect Demo.fresh))))))
  = [(Demo.pixel_url, Demo.pixel_body)].
Proof.
  destruct (install_twice_hooks_once (Demo.env Demo.everything (VStr "tok"))
              Demo.fresh Demo.pixel_post) as (_ & _ & _ & _ & Hc).
  destruct (Hc eq_refl eq_refl) as [_ Hc'].
  apply (Hc' (mkRequest "POST" Demo.pixel_url (Some Demo.pixel_body)) Demo.pixel_body);
    try (vm_compute; reflexivity).
  intros raw H. vm_compute in H. injection H as <-. reflexivity.
Defined.

(** ** Origin tags *)

Lemma inner_is_tagged origin e : inner_event origin e -> tagged origin e.
Proof. destruct e; cbn; tauto. Qed.

Lemma hook_is_tagged e : hook_event e -> tagged "pixel" e.
Proof. destruct e; cbn; tauto. Qed.

Lemma emits_call_fetch E f args : emits (tagged "pixel") (call_fetch E f args).
Proof.
  induction f as [|g IH]; cbn [call_fetch].
  - apply emits_bind; [apply emits_emit; exact I | intros; apply emits_of_completion].
  - apply emits_bind; [|intros; exact IH].
    intros w. eapply Forall_impl; [apply (emits_observe E args w)|].
    apply hook_is_tagged.
Qed.

Lemma tagged_in origin es m :
  Forall (tagged origin) es -> In (PostMessage m) es ->
  msg_type m = TOKEN_MESSAGE /\ msg_origin m = origin.
Proof.
  intros H Hin. rewrite List.Forall_forall in H. exact (H _ Hin).
Qed.

(** C8, as stated, fails: the turnstile-only computation broadcasts its
    token with the tag [simple], which is none of pixel, seed, manual. *)
Lemma simple_tag_is_broadcast :
  posted (events_of
    (computePawtectForT (Demo.env Demo.everything (VStr "tok")) (VStr "t") Demo.fresh))
  = [mkTokenMessage "WPLACER_PAWTECT_TOKEN" (VStr "tok") "simple"] /\
  ~ In "simple" ["pixel"; "seed"; "manual"].
Proof.
  split; [vm_compute; reflexivity|].
  cbn. intros [H|[H|[H|[]]]]; discriminate.
Qed.

(** C8, amended: every message broadcast by the page-world code has the
    type [WPLACER_PAWTECT_TOKEN] and an origin tag among pixel, seed and
    simple: [computePawtect] (also when called from the [fetch] hook) tags
    with pixel, the seeding computation with seed, and the turnstile-only
    computation with simple. *)
Theorem broadcast_origin_tags (E : Env) (w : World) (m : TokenMessage) :
  (published E w m ->
     msg_type m = TOKEN_MESSAGE /\ In (msg_origin m) origin_tags) /\
  (forall url body,
     In (PostMessage m) (events_of (computePawtect E url body w)) ->
     msg_origin m = "pixel") /\
  (forall f args,
     In (PostMessage m) (events_of (call_fetch E f args w)) ->
     msg_origin m = "pixel") /\
  (forall rawBody,
     In (PostMessage m) (events_of (seedPawtect E rawBody w)) ->
     msg_origin m = "seed") /\
  (forall tValue,
     In (PostMessage m) (events_of (computePawtectForT E tValue w)) ->
     msg_origin m = "simple").
Proof.
  assert (Hpixel : forall url body,
    In (PostMessage m) (events_of (computePawtect E url body w)) ->
    msg_type m = TOKEN_MESSAGE /\ msg_origin m = "pixel").
  { intros url body Hin. eapply tagged_in; [|exact Hin].
    eapply Forall_impl; [apply (emits_computePawtect E url body w)|].
    apply hook_is_tagged. }
  assert (Hfetch : forall f args,
    In (PostMessage m) (events_of (call_fetch E f args w)) ->
    msg_type m = TOKEN_MESSAGE /\ msg_origin m = "pixel").
  { intros f args Hin. eapply tagged_in; [|exact Hin].
    apply emits_call_fetch. }
  assert (Hseed : forall rawBody,
    In (PostMessage m) (events_of (seedPawtect E rawBody w)) ->
    msg_type m = TOKEN_MESSAGE /\ msg_origin m = "seed").
  { intros rawBody Hin. eapply tagged_in; [|exact Hin].
    eapply Forall_impl; [apply (emits_seedPawtect E rawBody w)|].
    apply inner_is_tagged. }
  assert (Hsimple : forall tValue,
    In (PostMessage m) (events_of (computePawtectForT E tValue w)) ->
    msg_type m = TOKEN_MESSAGE /\ msg_origin m = "simple").
  { intros tValue Hin. eapply tagged_in; [|exact Hin].
    eapply Forall_impl; [apply (emits_computePawtectForT E tValue w)|].
    apply inner_is_tagged. }
  split; [|split; [|split; [|split]]].
  - unfold origin_tags.
    intros [(url & body & H) | [(f & args & H) | [(raw & H) | (t & H)]]].
    + destruct (Hpixel _ _ H) as [Ht ->]. split; [exact Ht | cbn; tauto].
    + destruct (Hfetch _ _ H) as [Ht ->]. split; [exact Ht | cbn; tauto].
    + destruct (Hseed _ H) as [Ht ->]. split; [exact Ht | cbn; tauto].
    + destruct (Hsimple _ H) as [Ht ->]. split; [exact Ht | cbn; tauto].
  - intros url body H. apply (Hpixel _ _ H).
  - intros f args H. apply (Hfetch _ _ H).
  - intros rawBody H. apply (Hseed _ H).
  - intros tValue H. apply (Hsimple _ H).
Qed.

Lemma broadcast_origin_tags_witness :
  In (PostMessage (mkTokenMessage "WPLACER_PAWTECT_TOKEN" (VStr "tok") "seed"))
     (events_of (seedPawtect (Demo.env Demo.everything (VStr "tok")) "{}" Demo.fresh)) /\
  msg_origin (mkTokenMessage "WPLACER_PAWTECT_TOKEN" (VStr "tok") "seed") = "seed".
Proof.
  assert (Hin : In (PostMessage (mkTokenMessage "WPLACER_PAWTECT_TOKEN" (VStr "tok") "seed"))
     (events_of (seedPawtect (Demo.env Demo.everything (VStr "tok")) "{}" Demo.fresh)))
    by (vm_compute; right; right; left; reflexivity).
  split; [exact Hin|].
  destruct (broadcast_origin_tags (Demo.env Demo.everything (VStr "tok")) Demo.fresh
              (mkTokenMessage "WPLACER_PAWTECT_TOKEN" (VStr "tok") "seed"))
    as (_ & _ & _ & Hseed & _).
  exact (Hseed "{}" Hin).
Defined.

(** ** Decoding the module's output *)

Section Decoding.
Variable E : Env.

Lemma decode_at_completion ptr len bytes w :
  view E (memory w) ptr len = Some bytes ->
  completion (decode_at E ptr len w) = Normal (VStr (text_decode E bytes)).
Proof.
  intros H. unfold decode_at.
  rewrite (run_bind_normal _ _ w (memory w) w []) by reflexivity.
  rewrite H. cbn [of_option].
  rewrite (run_bind_normal _ _ w bytes w []) by reflexivity.
  rewrite run_bind.
  pose proof (attempt_completion (on_memory (wasm_free E ptr len 1)) w) as Hc.
  unfold completion in Hc.
  destruct (attempt (on_memory (wasm_free E ptr len 1)) w) as [[c w1] e1].
  cbn in Hc. subst c. reflexivity.
Qed.

Lemma view_numbers mem ptr len :
  view E mem (VNum ptr) (VNum len) = mem_view mem ptr len.
Proof. reflexivity. Qed.

Lemma decode_unrecognized unrecognized out w :
  recognized out = false ->
  decode_out E unrecognized out w = (Normal unrecognized, w, []).
Proof.
  unfold recognized, decode_out.
  destruct out; cbn [isArray isString orb]; try discriminate;
    intros ->; reflexivity.
Qed.

(** [computePawtect] once the module is imported and has answered. *)
Lemma computePawtect_run url body w m w1 e1 out w2 e2 token w3 e3 :
  importModule E w = (Normal (Some m), w1, e1) ->
  has_underscore m = true ->
  invoke E m url body w1 = (Normal out, w2, e2) ->
  decode_out E VNull out w2 = (Normal token, w3, e3) ->
  computePawtect E url body w =
  (Normal token, w3,
   Compute url body :: e1 ++ e2 ++ e3
   ++ [PostMessage (mkTokenMessage TOKEN_MESSAGE token "pixel")]).
Proof.
  intros Hi Hu Hv Hd. unfold computePawtect.
  rewrite (run_bind_normal _ _ w tt w [Compute url body]) by reflexivity.
  rewrite (run_bind_normal _ _ w _ _ _ Hi). rewrite Hu. cbn [negb].
  rewrite (run_bind_normal _ _ w1 _ _ _ Hv).
  rewrite (run_bind_normal _ _ w2 _ _ _ Hd).
  rewrite (run_bind_normal _ _ w3 tt w3
             [PostMessage (mkTokenMessage TOKEN_MESSAGE token "pixel")])
    by reflexivity.
  cbn [completion world_of events_of fst snd ret app].
  reflexivity.
Qed.

End Decoding.

(** C5: when the bytes at [ptr], [len] of the module memory are [bytes],
    the three documented shapes of the output for those bytes decode to the
    same string, the decoding of [bytes]: the pair [[ptr, len]], the string
    itself, and an object whose [ptr] and [len] fields are those numbers. *)
Theorem output_shapes_decode_alike (E : Env) (w : World) (ptr len : Z)
  (bytes : list byte) (fields : list (string * JsVal)) (unrecognized : JsVal) :
  mem_view (memory w) ptr len = Some bytes ->
  assoc "ptr" fields = VNum ptr ->
  assoc "len" fields = VNum len ->
  let token := VStr (text_decode E bytes) in
  completion (decode_out E unrecognized (VArr [VNum ptr; VNum len]) w) = Normal token /\
  completion (decode_out E unrecognized token w) = Normal token /\
  completion (decode_out E unrecognized (VObj fields) w) = Normal token.
Proof.
  intros Hv Hp Hl token. subst token. split; [|split].
  - cbn [decode_out arg nth]. apply decode_at_completion.
    rewrite view_numbers. exact Hv.
  - reflexivity.
  - cbn [decode_out]. unfold has_ptr_len. cbn [truthy get andb].
    rewrite Hp, Hl. cbn [isNumber andb]. apply decode_at_completion.
    rewrite view_numbers. exact Hv.
Qed.

Lemma output_shapes_decode_alike_witness :
  mem_view (repeat x00 8 ++ Demo.token_bytes ++ repeat x00 8) 8 3
  = Some Demo.token_bytes /\
  completion
    (decode_out (Demo.env Demo.everything VNull) VNull
       (VObj [("ptr", VNum 8); ("len", VNum 3)])
       (mkWorld ∅ VUndefined false NativeFetch 0
          (repeat x00 8 ++ Demo.token_bytes ++ repeat x00 8)))
  = Normal (VStr "tok").
Proof.
  assert (Hv : mem_view (repeat x00 8 ++ Demo.token_bytes ++ repeat x00 8) 8 3
               = Some Demo.token_bytes) by (vm_compute; reflexivity).
  split; [exact Hv|].
  apply (output_shapes_decode_alike (Demo.env Demo.everything VNull)
           (mkWorld ∅ VUndefined false NativeFetch 0
              (repeat x00 8 ++ Demo.token_bytes ++ repeat x00 8))
           8 3 Demo.token_bytes [("ptr", VNum 8); ("len", VNum 3)] VNull Hv);
    reflexivity.
Defined.

(** C10: when the module is imported, exports [_], and its computation
    returns a value that is neither an array, nor a string, nor a truthy
    value with numeric [ptr] and [len], [computePawtect] sets the token to
    [null], still broadcasts a [WPLACER_PAWTECT_TOKEN] message, whose token
    is [null] and whose origin is pixel, as its last event and then returns
    [null]. *)
Theorem unrecognized_output_broadcasts_null (E : Env) (url body : string)
  (w w1 w2 : World) (m : JsModule) (e1 e2 : list Event) (out : JsVal) :
  importModule E w = (Normal (Some m), w1, e1) ->
  has_underscore m = true ->
  invoke E m url body w1 = (Normal out, w2, e2) ->
  recognized out = false ->
  computePawtect E url body w =
  (Normal VNull, w2,
   Compute url body :: e1 ++ e2
   ++ [PostMessage (mkTokenMessage "WPLACER_PAWTECT_TOKEN" VNull "pixel")]).
Proof.
  intros Hi Hu Hv Hr.
  rewrite (computePawtect_run E url body w m w1 e1 out w2 e2 VNull w2 []
             Hi Hu Hv (decode_unrecognized E VNull out w2 Hr)).
  reflexivity.
Qed.

Lemma unrecognized_output_broadcasts_null_witness :
  recognized (VNum 5) = false /\
  posted (events_of
    (computePawtect (Demo.env Demo.everything (VNum 5)) Demo.pixel_url
       Demo.pixel_body Demo.fresh))
  = [mkTokenMessage "WPLACER_PAWTECT_TOKEN" VNull "pixel"] /\
  completion
    (computePawtect (Demo.env Demo.everything (VNum 5)) Demo.pixel_url
       Demo.pixel_body Demo.fresh)
  = Normal VNull.
Proof.
  split; [reflexivity|].
  erewrite (unrecognized_output_broadcasts_null
              (Demo.env Demo.everything (VNum 5)) Demo.pixel_url Demo.pixel_body
              Demo.fresh);
    cycle 1;
    [ vm_compute; reflexivity
    | reflexivity
    | vm_compute; reflexivity
    | reflexivity
    | split; vm_compute; reflexivity ].
Defined.

(** C7: the candidates are the collected URLs that look like chunks, in
    the order in which the page first showed them (scripts, then links,
    then resource entries; nothing is sorted).  The scan requests them one
    by one in that order; at the first one whose response is ok and whose
    text carries a signature it stores the URL under
    [wplacer_pawtect_path], remembers it in the page and returns it without
    requesting any later candidate.  When no candidate is accepted every
    candidate has been requested exactly once and the scan returns [null],
    leaving the page state untouched. *)
Theorem discovery_returns_first_match (E : Env) (w : World) :
  let r := discoverPawtectChunk E w in
  chunkCandidates E = List.filter is_chunk_candidate (first_seen (sources E)) /\
  (forall pre url post,
     chunkCandidates E = pre ++ url :: post ->
     (forall x, In x pre -> accepts E x = false) ->
     accepts E url = true ->
     completion r = Normal (Some url) /\
     events_of r = map NetFetch (pre ++ [url]) /\
     localStorage (world_of r) !! "wplacer_pawtect_path" = Some url /\
     pawtectChunk (world_of r) = VStr url) /\
  ((forall x, In x (chunkCandidates E) -> accepts E x = false) ->
     completion r = Normal None /\
     events_of r = map NetFetch (chunkCandidates E) /\
     world_of r = w) /\
  (exists found, completion r = Normal found).
Proof.
  intros r. subst r. unfold discoverPawtectChunk.
  split; [unfold chunkCandidates; rewrite collected_in_order; reflexivity|].
  split; [|split].
  - intros pre url post Hc Hpre Hurl. rewrite Hc.
    rewrite (run_try_normal _ _ w _ _ _ (scan_first_match E pre url post w Hpre Hurl)).
    repeat split. cbn. apply lookup_insert_eq.
  - intros Hall.
    rewrite (run_try_normal _ _ w _ _ _ (scan_exhausted E _ w Hall)).
    repeat split.
  - destruct (first_accepted E (chunkCandidates E))
      as [Hall | (pre & url & post & Hc & Hpre & Hurl)].
    + rewrite (run_try_normal _ _ w _ _ _ (scan_exhausted E _ w Hall)).
      eexists. reflexivity.
    + rewrite Hc.
      rewrite (run_try_normal _ _ w _ _ _ (scan_first_match E pre url post w Hpre Hurl)).
      eexists. reflexivity.
Qed.

Lemma discovery_returns_first_match_witness :
  completion (discoverPawtectChunk (Demo.env Demo.nothing VNull) Demo.fresh)
  = Normal (Some Demo.chunk_paw) /\
  events_of (discoverPawtectChunk (Demo.env Demo.nothing VNull) Demo.fresh)
  = [NetFetch Demo.chunk_a; NetFetch Demo.chunk_paw].
Proof.
  destruct (discovery_returns_first_match (Demo.env Demo.nothing VNull) Demo.fresh)
    as (_ & Hfirst & _).
  destruct (Hfirst [Demo.chunk_a] Demo.chunk_paw []) as (Hc & He & _).
  - vm_compute. reflexivity.
  - intros x [<-|[]]. vm_compute. reflexivity.
  - vm_compute. reflexivity.
  - split; [exact Hc | exact He].
Defined.

(** ** Further properties of discovery and of the stored path *)

Lemma chunk_candidate_nonempty url : is_chunk_candidate url = true -> nonempty url = true.
Proof. destruct url; [vm_compute; discriminate | reflexivity]. Qed.

Lemma chunkCandidates_match E url :
  In url (chunkCandidates E) -> is_chunk_candidate url = true.
Proof. unfold chunkCandidates. intros H. apply List.filter_In in H. apply H. Qed.

Lemma first_choice_found url w :
  nonempty url = true ->
  cached_path (found url w) = Some url /\ first_choice (found url w) = Some url.
Proof.
  intros Hn. unfold first_choice, cached_path, found. cbn [localStorage set_pawtectChunk
    set_localStorage]. rewrite lookup_insert_eq, Hn. split; reflexivity.
Qed.

(** X13: whatever the scan returns has been checked: a returned URL is one
    of the chunk candidates, matches the chunk path pattern, and its
    response was ok with a signature in its text.  It is then what the next
    lookup of the stored path returns, so the next import tries it first;
    the scan's own requests stop at it. *)
Theorem discovered_url_is_checked_and_kept (E : Env) (w : World) (url : string) :
  completion (discoverPawtectChunk E w) = Normal (Some url) ->
  let w' := world_of (discoverPawtectChunk E w) in
  In url (chunkCandidates E) /\
  is_chunk_candidate url = true /\
  accepts E url = true /\
  completion (getOptimizedPawtectUrl w') = Normal (Some url) /\
  hd_error (fastCandidates E (first_choice w')) = Some url /\
  last (requests (events_of (discoverPawtectChunk E w))) = Some url.
Proof.
  unfold discoverPawtectChunk.
  destruct (first_accepted E (chunkCandidates E))
    as [Hall | (pre & u & post & Hc & Hpre & Hu)].
  - rewrite (run_try_normal _ _ w _ _ _ (scan_exhausted E _ w Hall)).
    discriminate.
  - assert (Hrun : try_catch (scan E (chunkCandidates E)) (ret None) w =
                   (Normal (Some u), found u w, map NetFetch (pre ++ [u])))
      by (rewrite Hc; apply run_try_normal, scan_first_match; assumption).
    rewrite Hrun.
    cbn [completion world_of events_of fst snd]. intros [= <-].
    assert (Hin : In u (chunkCandidates E))
      by (rewrite Hc; apply in_or_app; right; left; reflexivity).
    pose proof (chunkCandidates_match E u Hin) as Hm.
    destruct (first_choice_found u w (chunk_candidate_nonempty u Hm)) as [Hcp Hfc].
    split; [exact Hin|]. split; [exact Hm|]. split; [exact Hu|].
    split; [|split].
    + rewrite getOptimizedPawtectUrl_run, Hfc. reflexivity.
    + rewrite Hfc. reflexivity.
    + unfold requests. rewrite map_app, omap_app. cbn [map omap list_omap].
      rewrite last_snoc. reflexivity.
Qed.

Lemma discovered_url_is_checked_and_kept_witness :
  completion (discoverPawtectChunk (Demo.env Demo.nothing VNull) Demo.fresh)
  = Normal (Some Demo.chunk_paw) /\
  completion
    (getOptimizedPawtectUrl
       (world_of (discoverPawtectChunk (Demo.env Demo.nothing VNull) Demo.fresh)))
  = Normal (Some Demo.chunk_paw).
Proof.
  assert (H : completion (discoverPawtectChunk (Demo.env Demo.nothing VNull) Demo.fresh)
              = Normal (Some Demo.chunk_paw)) by (vm_compute; reflexivity).
  split; [exact H|].
  apply (discovered_url_is_checked_and_kept (Demo.env Demo.nothing VNull) Demo.fresh
           Demo.chunk_paw H).
Defined.

(** X14: the clearing function of [clearPawtectCache] forgets the module
    location in all three places: the stored path, the legacy key and the
    in-memory copy.  A lookup afterwards returns [null], so the next import
    starts from the two fallbacks alone; the other entries of the storage
    are not touched, also after a scan had just stored a path. *)
Theorem cleared_cache_forgets_location (E : Env) (w : World) :
  let w' := world_of (clear_cached_path w) in
  completion (clear_cached_path w) = Normal true /\
  localStorage w' !! "wplacer_pawtect_path" = None /\
  localStorage w' !! "wplacerPawtectChunk" = None /\
  pawtectChunk w' = VNull /\
  (forall k, k <> "wplacer_pawtect_path" -> k <> "wplacerPawtectChunk" ->
     localStorage w' !! k = localStorage w !! k) /\
  completion (getOptimizedPawtectUrl w') = Normal None /\
  fastCandidates E (first_choice w') = [fallback_on_origin E; fallback_absolute] /\
  (forall url, first_choice (world_of (clear_cached_path (found url w))) = None).
Proof.
  cbn zeta.
  assert (Hrun : forall v, clear_cached_path v =
    (Normal true,
     set_pawtectChunk VNull
       (set_localStorage (fun ls => delete ls_chunk_key ls)
          (set_localStorage (fun ls => delete ls_path_key ls) v)), [])) by reflexivity.
  assert (Hnone : forall v, first_choice (world_of (clear_cached_path v)) = None).
  { intros v. rewrite Hrun. unfold first_choice, cached_path, last_known.
    cbn [world_of fst snd localStorage set_pawtectChunk set_localStorage pawtectChunk].
    rewrite lookup_delete_ne by discriminate.
    change ls_path_key with "wplacer_pawtect_path".
    rewrite lookup_delete_eq. reflexivity. }
  rewrite Hrun.
  cbn [completion world_of fst snd localStorage set_pawtectChunk set_localStorage
       pawtectChunk].
  split; [reflexivity|]. split; [|split; [|split; [|split; [|split; [|split]]]]].
  - rewrite lookup_delete_ne by discriminate. apply lookup_delete_eq.
  - apply lookup_delete_eq.
  - reflexivity.
  - intros k H1 H2. unfold ls_chunk_key, ls_path_key.
    rewrite !lookup_delete_ne by congruence. reflexivity.
  - rewrite getOptimizedPawtectUrl_run.
    specialize (Hnone w). rewrite Hrun in Hnone. cbn [world_of fst snd] in Hnone.
    rewrite Hnone. reflexivity.
  - specialize (Hnone w). rewrite Hrun in Hnone. cbn [world_of fst snd] in Hnone.
    rewrite Hnone. reflexivity.
  - intros url. apply Hnone.
Qed.

Lemma cleared_cache_forgets_location_witness :
  "theme" <> "wplacer_pawtect_path" /\
  localStorage
    (world_of (clear_cached_path
       (mkWorld (<["theme" := "dark"]> {[ "wplacer_pawtect_path" := Demo.chunk_paw ]})
          (VStr Demo.chunk_paw) true NativeFetch 0 [])))
  !! "theme" = Some "dark".
Proof.
  assert (H : "theme" <> "wplacer_pawtect_path") by discriminate.
  split; [exact H|].
  destruct (cleared_cache_forgets_location (Demo.env Demo.nothing VNull)
    (mkWorld (<["theme" := "dark"]> {[ "wplacer_pawtect_path" := Demo.chunk_paw ]})
       (VStr Demo.chunk_paw) true NativeFetch 0 [])) as (_ & _ & _ & _ & Hk & _).
  rewrite (Hk "theme" H ltac:(discriminate)). vm_compute. reflexivity.
Defined.

(** ** Further properties of [computePawtect] *)

Lemma inner_two_origins es :
  Forall (inner_event "pixel") es -> Forall (inner_event "seed") es ->
  posted es = [].
Proof.
  induction es as [|e es IH]; intros H1 H2; [reflexivity|].
  inversion H1 as [|? ? He1 Hes1]; inversion H2 as [|? ? He2 Hes2]; subst.
  destruct e; cbn in He1, He2; try contradiction; cbn;
    try (apply IH; assumption).
  destruct He1 as [_ Ho1], He2 as [_ Ho2]. rewrite Ho1 in Ho2. discriminate.
Qed.

(** A computation that may only import and request broadcasts nothing. *)
Lemma quiet_posts {A} (m : M A) w :
  (forall origin, emits (inner_event origin) m) -> posted (events_of (m w)) = [].
Proof. intros H. apply inner_two_origins; apply H. Qed.

Lemma posted_app a b : posted (a ++ b) = posted a ++ posted b.
Proof. unfold posted. apply omap_app. Qed.

(** X15: [computePawtect] broadcasts at most one message per call, and
    only a token it also returns: either nothing is broadcast, or the call
    returns a token and the one message broadcast carries exactly that
    token, tagged pixel.  When no module can be imported, or the imported
    module does not export [_], it returns [null] and broadcasts nothing;
    when a later step throws it rejects and broadcasts nothing. *)
Theorem broadcast_is_the_returned_token (E : Env) (url body : string) (w : World) :
  let r := computePawtect E url body w in
  (posted (events_of r) = [] \/
   exists token,
     completion r = Normal token /\
     posted (events_of r) = [mkTokenMessage TOKEN_MESSAGE token "pixel"]) /\
  (completion r = Abrupt -> posted (events_of r) = []) /\
  (forall m, completion (importModule E w) = Normal m ->
     (m = None \/ exists jm, m = Some jm /\ has_underscore jm = false) ->
     completion r = Normal VNull /\ posted (events_of r) = []).
Proof.
  cbn zeta. unfold computePawtect.
  rewrite (run_bind_normal _ _ w tt w [Compute url body]) by reflexivity.
  rewrite run_bind.
  pose proof (quiet_posts (importModule E) w
                (fun o => emits_importModule E o)) as Hq1.
  destruct (importModule E w) as [[[[m|]|] w1] e1];
    cbn [completion world_of events_of fst snd] in *.
  - destruct (has_underscore m) eqn:Hu; cbn [negb].
    + rewrite run_bind.
      pose proof (quiet_posts (invoke E m url body) w1
                    (fun o => emits_invoke E o m url body)) as Hq2.
      destruct (invoke E m url body w1) as [[[out|] w2] e2];
        cbn [completion world_of events_of fst snd] in *.
      * rewrite run_bind.
        pose proof (quiet_posts (decode_out E VNull out) w2
                      (fun o => emits_decode_out E o VNull out)) as Hq3.
        destruct (decode_out E VNull out w2) as [[[token|] w3] e3];
          cbn [completion world_of events_of fst snd] in *.
        -- rewrite (run_bind_normal _ _ w3 tt w3
                      [PostMessage (mkTokenMessage TOKEN_MESSAGE token "pixel")])
             by reflexivity.
           cbn [completion world_of events_of fst snd ret].
           rewrite !posted_app, Hq1, Hq2, Hq3.
           split; [right; eexists; split; reflexivity|].
           split; [discriminate|].
           intros m' [= <-] [H | (jm & [= <-] & H)]; congruence.
        -- rewrite !posted_app, Hq1, Hq2, Hq3.
           split; [left; reflexivity|]. split; [reflexivity|].
           intros m' [= <-] [H | (jm & [= <-] & H)]; congruence.
      * rewrite !posted_app, Hq1, Hq2.
        split; [left; reflexivity|]. split; [reflexivity|].
        intros m' [= <-] [H | (jm & [= <-] & H)]; congruence.
    + cbn [completion world_of events_of fst snd ret].
      rewrite !posted_app, Hq1.
      split; [left; reflexivity|]. split; [discriminate|].
      intros; split; reflexivity.
  - cbn [completion world_of events_of fst snd ret].
    rewrite !posted_app, Hq1.
    split; [left; reflexivity|]. split; [discriminate|].
    intros; split; reflexivity.
  - rewrite !posted_app, Hq1.
    split; [left; reflexivity|]. split; [reflexivity|]. discriminate.
Qed.

Lemma broadcast_is_the_returned_token_witness :
  completion (importModule (Demo.env Demo.nothing VNull)
                (mkWorld ∅ VUndefined false NativeFetch 0 [])) = Normal None /\
  posted (events_of (computePawtect (Demo.env Demo.nothing VNull)
                       Demo.pixel_url Demo.pixel_body
                       (mkWorld ∅ VUndefined false NativeFetch 0 []))) = [].
Proof.
  assert (H : completion (importModule (Demo.env Demo.nothing VNull)
                (mkWorld ∅ VUndefined false NativeFetch 0 [])) = Normal None)
    by (vm_compute; reflexivity).
  split; [exact H|].
  destruct (broadcast_is_the_returned_token (Demo.env Demo.nothing VNull)
              Demo.pixel_url Demo.pixel_body
              (mkWorld ∅ VUndefined false NativeFetch 0 [])) as (_ & _ & Hn).
  destruct (Hn None H (or_introl eq_refl)) as [_ Hp]. exact Hp.
Defined.

(** ** Requests the hook does not react to *)

(** X16: for a call of the hooked [fetch] that is not a placement write
    (no request can be built from the arguments, or its method is not POST,
    or its URL does not contain [/s0/pixel/]) the hook does nothing at
    all: no computation, no import, no request of its own, no broadcast and
    no change of the page state; the call just goes to the original
    [fetch]. *)
Theorem hook_ignores_other_requests (E : Env) (args : list JsVal) (w : World) :
  (new_request E (arg 0 args) (or_else (arg 1 args) (VObj [])) = Abrupt \/
   exists req,
     new_request E (arg 0 args) (or_else (arg 1 args) (VObj [])) = Normal req /\
     String.eqb (req_method req) "POST" && is_pixel_post_url (req_url req) = false) ->
  call_fetch E (HookedFetch NativeFetch) args w =
  (native_fetch E args, w, [OriginalFetch args]).
Proof.
  intros H. rewrite hooked_once_run.
  assert (Ho : observe E args w = (Normal tt, w, [])).
  { unfold observe, attempt, try_catch.
    destruct H as [H | (req & H & Hc)]; rewrite H.
    - reflexivity.
    - rewrite (run_bind_normal _ _ w req w []) by reflexivity.
      rewrite Hc. reflexivity. }
  rewrite Ho. reflexivity.
Qed.

Lemma hook_ignores_other_requests_witness :
  call_fetch (Demo.env Demo.everything VNull) (HookedFetch NativeFetch)
    [VStr "https://backend.wplace.live/me"] Demo.fresh
  = (Normal (VStr "response"), Demo.fresh,
     [OriginalFetch [VStr "https://backend.wplace.live/me"]]).
Proof.
  apply (hook_ignores_other_requests (Demo.env Demo.everything VNull)
           [VStr "https://backend.wplace.live/me"] Demo.fresh).
  right. eexists. split; vm_compute; reflexivity.
Defined.

(** ** What the scan requests *)

Lemma first_seen_In x xs : In x (first_seen xs) -> In x xs.
Proof.
  induction xs as [|a xs IH]; [intros []|].
  cbn [first_seen]. intros [<-|H]; [left; reflexivity|].
  apply List.filter_In in H. right. apply IH, H.
Qed.

Lemma first_seen_NoDup xs : List.NoDup (first_seen xs).
Proof.
  induction xs as [|a xs IH]; [constructor|].
  cbn [first_seen]. constructor.
  - intros H. apply List.filter_In in H. destruct H as [_ H].
    rewrite String.eqb_refl in H. discriminate.
  - apply List.NoDup_filter, IH.
Qed.

Lemma requests_map l : requests (map NetFetch l) = l.
Proof. induction l as [|a l IH]; [reflexivity|]. cbn. f_equal. exact IH. Qed.

Lemma NoDup_prefix {A} (pre : list A) x post :
  List.NoDup (pre ++ x :: post) -> List.NoDup (pre ++ [x]).
Proof.
  intros H. apply List.NoDup_remove in H as H'. destruct H' as [Hnd Hx].
  apply List.NoDup_app_remove_r in Hnd.
  clear H. induction pre as [|a pre IH].
  - repeat constructor. intros [].
  - cbn. inversion Hnd as [|? ? Ha Hpre]; subst. constructor.
    + intros Hin. apply in_app_or in Hin. destruct Hin as [Hin | [<- | []]].
      * contradiction.
      * apply Hx. apply in_or_app. left. left. reflexivity.
    + apply IH; [exact Hpre|]. intros Hin. apply Hx.
      apply in_app_or in Hin. apply in_or_app.
      destruct Hin as [Hin|Hin]; [left; right; exact Hin | right; exact Hin].
Qed.

(** X17: one scan requests no URL twice, however often the page mentions
    it (as a script, a preload link and a resource entry), and it requests
    nothing but URLs the page showed that have the shape of a chunk path. *)
Theorem scan_requests_each_candidate_once (E : Env) (w : World) :
  let urls := requests (events_of (discoverPawtectChunk E w)) in
  List.NoDup urls /\
  (forall u, In u urls ->
     In u (sources E) /\ is_chunk_candidate u = true) /\
  exists rest, chunkCandidates E = urls ++ rest.
Proof.
  cbn zeta.
  assert (Hnd : List.NoDup (chunkCandidates E)).
  { unfold chunkCandidates. rewrite collected_in_order.
    apply List.NoDup_filter, first_seen_NoDup. }
  assert (Hsrc : forall u, In u (chunkCandidates E) ->
                   In u (sources E) /\ is_chunk_candidate u = true).
  { intros u Hu. split; [|apply (chunkCandidates_match E u Hu)].
    unfold chunkCandidates in Hu. rewrite collected_in_order in Hu.
    apply List.filter_In in Hu. apply first_seen_In, Hu. }
  unfold discoverPawtectChunk.
  destruct (first_accepted E (chunkCandidates E))
    as [Hall | (pre & u & post & Hc & Hpre & Hu)].
  - rewrite (run_try_normal _ _ w _ _ _ (scan_exhausted E _ w Hall)).
    cbn [events_of snd]. rewrite requests_map.
    split; [exact Hnd|]. split; [exact Hsrc|].
    exists []. rewrite app_nil_r. reflexivity.
  - assert (Hrun : try_catch (scan E (chunkCandidates E)) (ret None) w =
                   (Normal (Some u), found u w, map NetFetch (pre ++ [u])))
      by (rewrite Hc; apply run_try_normal, scan_first_match; assumption).
    rewrite Hrun. cbn [events_of snd]. rewrite requests_map.
    split; [|split].
    + apply (NoDup_prefix pre u post). rewrite <- Hc. exact Hnd.
    + intros x Hx. apply Hsrc. rewrite Hc.
      apply in_app_or in Hx. apply in_or_app.
      destruct Hx as [Hx | [<- | []]]; [left; exact Hx | right; left; reflexivity].
    + exists post. rewrite Hc, <- app_assoc. reflexivity.
Qed.

Lemma scan_requests_each_candidate_once_witness :
  In Demo.chunk_a
    (requests (events_of (discoverPawtectChunk (Demo.env Demo.nothing VNull) Demo.fresh))) /\
  is_chunk_candidate Demo.chunk_a = true.
Proof.
  assert (H : In Demo.chunk_a
    (requests (events_of (discoverPawtectChunk (Demo.env Demo.nothing VNull) Demo.fresh))))
    by (vm_compute; left; reflexivity).
  split; [exact H|].
  destruct (scan_requests_each_candidate_once (Demo.env Demo.nothing VNull) Demo.fresh)
    as (_ & Hs & _).
  apply (Hs Demo.chunk_a H).
Defined.

(** ** The seeding and the turnstile-only computations *)

Section Seeding.
Variable E : Env.

Lemma cached_or_fallback_run w :
  cached_or_fallback E w =
  (match dyn_import E (seed_module_url w) with Some m => Normal m | None => Abrupt end,
   w, [Import (seed_module_url w)]).
Proof.
  unfold cached_or_fallback, seed_module_url, cached_path.
  rewrite (run_bind_normal _ _ w (localStorage w !! ls_path_key) w []) by reflexivity.
  change ls_path_key with "wplacer_pawtect_path".
  destruct (localStorage w !! "wplacer_pawtect_path") as [c|];
    [destruct (nonempty c)|]; rewrite import_run; reflexivity.
Qed.

Lemma emits_after_import m url body unrecognized origin :
  emits after_import_event
    (bind (invoke E m url body) (fun out =>
     bind (decode_out E unrecognized out) (fun token => post token origin))).
Proof.
  unfold invoke, start, identity_hint, post.
  apply emits_bind; [repeat emits_step; reflexivity | intros out].
  apply emits_bind; [|intros; apply emits_emit; exact I].
  unfold decode_out, decode_at.
  destruct out; try destruct (has_ptr_len _); repeat emits_step.
Qed.

Lemma after_import_no_imports es :
  Forall after_import_event es -> imports es = [] /\ computes es = [].
Proof.
  induction 1 as [|e es He _ [IH1 IH2]]; [split; reflexivity|].
  destruct e; cbn in He; try contradiction; split; assumption.
Qed.

Lemma after_import_requests es :
  Forall after_import_event es ->
  forall u, In u (requests es) -> u = backend +:+ "/me".
Proof.
  induction 1 as [|e es He _ IH]; [intros u []|].
  destruct e; cbn in He; try contradiction; cbn; [|exact IH].
  intros u [<-|Hu]; [exact He | apply IH, Hu].
Qed.

(** The shared tail of the two computations, run after the import. *)
Lemma tail_posts m url body unrecognized origin w :
  let r := bind (invoke E m url body) (fun out =>
           bind (decode_out E unrecognized out) (fun token => post token origin)) w in
  (posted (events_of r) = [] \/
   exists token, posted (events_of r) = [mkTokenMessage TOKEN_MESSAGE token origin]) /\
  (forall out w2 e2,
     invoke E m url body w = (Normal out, w2, e2) -> recognized out = false ->
     posted (events_of r) = [mkTokenMessage TOKEN_MESSAGE unrecognized origin]).
Proof.
  cbn zeta. rewrite run_bind.
  pose proof (quiet_posts (invoke E m url body) w
                (fun o => emits_invoke E o m url body)) as Hq2.
  destruct (invoke E m url body w) as [[[out|] w2] e2];
    cbn [completion world_of events_of fst snd] in *.
  - rewrite run_bind.
    pose proof (quiet_posts (decode_out E unrecognized out) w2
                  (fun o => emits_decode_out E o unrecognized out)) as Hq3.
    pose proof (decode_unrecognized E unrecognized out w2) as Hun.
    destruct (decode_out E unrecognized out w2) as [[[token|] w3] e3];
      cbn [completion world_of events_of fst snd] in *.
    + rewrite !posted_app, Hq2, Hq3.
      split; [right; eexists; reflexivity|].
      intros out' w2' e2' [= <- <- <-] Hr. specialize (Hun Hr).
      injection Hun as -> _ _. reflexivity.
    + rewrite !posted_app, Hq2, Hq3.
      split; [left; reflexivity|].
      intros out' w2' e2' [= <- <- <-] Hr. specialize (Hun Hr). discriminate.
  - rewrite Hq2. split; [left; reflexivity|]. intros; discriminate.
Qed.

(** What both computations have in common, for the body and the tag each
    one uses. *)
Lemma seeded_run body origin w :
  let r := attempt
             (bind (cached_or_fallback E) (fun imported =>
              bind (invoke E imported seed_url body) (fun out =>
              bind (decode_out E VUndefined out) (fun token => post token origin)))) w in
  completion r = Normal tt /\
  imports (events_of r) = [seed_module_url w] /\
  computes (events_of r) = [] /\
  (forall u, In u (requests (events_of r)) -> u = backend +:+ "/me") /\
  (posted (events_of r) = [] \/
   exists token, posted (events_of r) = [mkTokenMessage TOKEN_MESSAGE token origin]) /\
  (forall m out w2 e2,
     dyn_import E (seed_module_url w) = Some m ->
     invoke E m seed_url body w = (Normal out, w2, e2) ->
     recognized out = false ->
     posted (events_of r) = [mkTokenMessage TOKEN_MESSAGE VUndefined origin]).
Proof.
  cbn zeta. split; [apply attempt_completion|].
  unfold attempt, try_catch. rewrite run_bind, cached_or_fallback_run.
  destruct (dyn_import E (seed_module_url w)) as [m|].
  - pose proof (emits_after_import m seed_url body VUndefined origin w) as Hem.
    pose proof (tail_posts m seed_url body VUndefined origin w) as Hp.
    cbn zeta in Hp.
    destruct (bind (invoke E m seed_url body) _ w) as [[[[]|] w1] e1];
      cbn [completion world_of events_of fst snd ret] in *;
      rewrite ?app_nil_r;
      destruct (after_import_no_imports _ Hem) as [Hi Hc];
      (split; [unfold imports in *; cbn; rewrite Hi; reflexivity|]);
      (split; [unfold computes in *; cbn; exact Hc|]);
      (split; [intros u Hu; apply (after_import_requests _ Hem u Hu)|]);
      (split; [apply Hp|]);
      intros m' out w2 e2 [= <-]; apply Hp.
  - cbn [completion world_of events_of fst snd ret app].
    repeat split; try (left; reflexivity).
    + intros u [].
    + intros; discriminate.
Qed.

End Seeding.

(** X18: the seeding and the turnstile-only computations never throw.
    Each imports exactly one module URL, the stored path if there is one
    and otherwise the relative fallback, and never falls back further: no
    discovery scan, no other request than the identity lookup, no call of
    [computePawtect].  Each broadcasts at most one message; when the
    module's output has an unrecognized shape that message is still sent,
    with an [undefined] token. *)
Theorem seeding_imports_once (E : Env) (w : World) (rawBody : string) (tValue : JsVal) :
  let seed := seedPawtect E rawBody w in
  let simple := computePawtectForT E tValue w in
  (completion seed = Normal tt /\ completion simple = Normal tt) /\
  (imports (events_of seed) = [seed_module_url w] /\
   imports (events_of simple) = [seed_module_url w]) /\
  (forall u, In u (requests (events_of seed) ++ requests (events_of simple)) ->
     u = backend +:+ "/me") /\
  (computes (events_of seed) = [] /\ computes (events_of simple) = []) /\
  ((length (posted (events_of seed)) <= 1)%nat /\
   (length (posted (events_of simple)) <= 1)%nat) /\
  (forall m out w2 e2,
     dyn_import E (seed_module_url w) = Some m ->
     invoke E m seed_url rawBody w = (Normal out, w2, e2) ->
     recognized out = false ->
     posted (events_of seed) = [mkTokenMessage TOKEN_MESSAGE VUndefined "seed"]).
Proof.
  cbn zeta. unfold seedPawtect, computePawtectForT.
  destruct (seeded_run E rawBody "seed" w) as (Hc1 & Hi1 & Hk1 & Hr1 & Hp1 & Hu1).
  destruct (seeded_run E (turnstile_body E tValue) "simple" w)
    as (Hc2 & Hi2 & Hk2 & Hr2 & Hp2 & _).
  cbn zeta in *.
  split; [split; assumption|]. split; [split; assumption|].
  split; [intros u Hu; apply in_app_or in Hu; destruct Hu; auto|].
  split; [split; assumption|]. split; [|exact Hu1].
  split.
  - destruct Hp1 as [-> | [t ->]]; cbn; lia.
  - destruct Hp2 as [-> | [t ->]]; cbn; lia.
Qed.

Lemma seeding_imports_once_witness :
  recognized (VNum 5) = false /\
  posted (events_of (seedPawtect (Demo.env Demo.everything (VNum 5)) "{}" Demo.fresh))
  = [mkTokenMessage "WPLACER_PAWTECT_TOKEN" VUndefined "seed"].
Proof.
  split; [reflexivity|].
  destruct (seeding_imports_once (Demo.env Demo.everything (VNum 5)) Demo.fresh "{}"
              VNull) as (_ & _ & _ & _ & _ & H).
  eapply H; [vm_compute; reflexivity | vm_compute; reflexivity | reflexivity].
Defined.

(** ** The XMLHttpRequest hooks *)

Lemma maybeCompute_run E url raw w :
  computes (events_of (maybeCompute E url raw w))
  = (if nonempty raw then [(url, raw)] else []) /\
  completion (maybeCompute E url raw w) = Normal tt.
Proof.
  unfold maybeCompute. destruct (nonempty raw); [|split; reflexivity].
  rewrite spawn_run. cbn [completion events_of fst snd]. split; [|reflexivity].
  destruct (computePawtect_events E url raw w) as (es & -> & Hes).
  destruct (inner_no_computes _ _ Hes) as [Hc _].
  unfold computes in *. cbn. rewrite Hc. reflexivity.
Qed.

Lemma attempt_normal (m : M unit) w :
  completion (m w) = Normal tt -> attempt m w = m w.
Proof.
  unfold attempt, try_catch, completion.
  destruct (m w) as [[[[]|] w1] e1]; [reflexivity | discriminate].
Qed.

(** The hook around [send], by what the request object holds. *)
Lemma xhr_send_uses_recorded_open_run E (body : XhrBody) (x : Xhr) (w : World) :
  completion (xhr_observe E body x w) = Normal tt /\
  (forall method url,
     wplacer_method x = Some method -> wplacer_url x = Some url ->
     toUpperCase method = "POST" -> is_pixel_post_url url = true ->
     computes (events_of (xhr_observe E body x w)) =
       match body_text E body with
       | Some raw => if nonempty raw then [(url, raw)] else []
       | None => []
       end) /\
  (String.eqb (toUpperCase (match wplacer_method x with Some m => m | None => "" end))
     "POST"
   && is_pixel_post_url (match wplacer_url x with Some u => u | None => "" end)
   = false ->
   xhr_observe E body x w = (Normal tt, w, [])).
Proof.
  split; [apply attempt_completion|]. split.
  - intros method url Hm Hu Hpost Hpix. unfold xhr_observe.
    rewrite Hm, Hu, Hpost, Hpix. cbn [String.eqb Ascii.eqb Bool.eqb andb].
    rewrite attempt_normal.
    + destruct body as [str | bytes | buffer o l | [str|] | ]; cbn [body_text];
        try reflexivity;
        rewrite ?attempt_normal by apply maybeCompute_run;
        apply maybeCompute_run.
    + destruct body as [str | bytes | buffer o l | [str|] | ];
        try reflexivity; try apply attempt_completion; apply maybeCompute_run.
  - intros Hc. unfold xhr_observe. rewrite Hc. reflexivity.
Qed.

(** X19: the hook around [send] goes by what the last successful [open]
    recorded.  If the recorded method is POST in any letter case and the
    recorded URL contains [/s0/pixel/], it calls [computePawtect] once with
    that URL and the body's text, for a string, an array buffer, a typed
    array or a blob, provided the text is not empty; a typed array is
    decoded over its whole underlying buffer, whatever window it shows.
    An empty text, an unreadable blob and any other body start no
    computation, and neither does any request that is not such a POST.
    The hook itself never throws. *)
Theorem xhr_send_uses_recorded_open (E : Env) (body : XhrBody) (x : Xhr) (w : World) :
  let r := xhr_observe E body x w in
  completion r = Normal tt /\
  (forall method url,
     wplacer_method x = Some method -> wplacer_url x = Some url ->
     toUpperCase method = "POST" -> is_pixel_post_url url = true ->
     computes (events_of r) =
       match body_text E body with
       | Some raw => if nonempty raw then [(url, raw)] else []
       | None => []
       end) /\
  (forall buffer offset len,
     body = BodyView buffer offset len ->
     r = xhr_observe E (BodyBuffer buffer) x w) /\
  (String.eqb (toUpperCase (match wplacer_method x with Some m => m | None => "" end))
     "POST"
   && is_pixel_post_url (match wplacer_url x with Some u => u | None => "" end)
   = false ->
   r = (Normal tt, w, [])).
Proof.
  cbn zeta.
  destruct (xhr_send_uses_recorded_open_run E body x w) as (Hc & Hm & Hn).
  split; [exact Hc|]. split; [exact Hm|]. split; [|exact Hn].
  intros buffer offset len ->. reflexivity.
Qed.

Lemma xhr_send_uses_recorded_open_witness :
  toUpperCase "post" = "POST" /\
  computes
    (events_of
       (xhr_observe (Demo.env Demo.everything (VStr "tok"))
          (BodyText Demo.pixel_body)
          (mkXhr (Some Demo.pixel_url) (Some "post")) Demo.fresh))
  = [(Demo.pixel_url, Demo.pixel_body)].
Proof.
  split; [reflexivity|].
  destruct (xhr_send_uses_recorded_open (Demo.env Demo.everything (VStr "tok"))
              (BodyText Demo.pixel_body)
              (mkXhr (Some Demo.pixel_url) (Some "post")) Demo.fresh) as (_ & H & _).
  apply (H "post" Demo.pixel_url); reflexivity.
Defined.

(** X20: the hook around [open] hands the arguments on unchanged, and a
    [send] that follows is judged by this [open] alone whenever its URL
    resolves: it starts a computation exactly for a POST (in any letter
    case) to a resolved URL containing [/s0/pixel/], whatever an earlier
    [open] on the same object had recorded.  When the URL does not resolve
    nothing is recorded, and the following [send] is judged by what the
    object held before. *)
Theorem xhr_open_then_send (E : Env) (args : list JsVal) (x : Xhr)
  (body : XhrBody) (w : World) :
  let x' := fst (xhr_open E args x) in
  let method := js_string E (or_else (arg 0 args) (VStr "")) in
  snd (xhr_open E args x) = args /\
  (forall href,
     resolve_url E (js_string E (arg 1 args)) = Some href ->
     (toUpperCase method = "POST" -> is_pixel_post_url href = true ->
      computes (events_of (xhr_observe E body x' w)) =
        match body_text E body with
        | Some raw => if nonempty raw then [(href, raw)] else []
        | None => []
        end) /\
     (String.eqb (toUpperCase method) "POST" && is_pixel_post_url href = false ->
      xhr_observe E body x' w = (Normal tt, w, []))) /\
  (resolve_url E (js_string E (arg 1 args)) = None ->
     xhr_observe E body x' w = xhr_observe E body x w).
Proof.
  cbn zeta. unfold xhr_open. cbn [fst snd]. split; [reflexivity|]. split.
  - intros href ->. split.
    + intros Hm Hu.
      destruct (xhr_send_uses_recorded_open_run E body
                  (mkXhr (Some href)
                     (Some (js_string E (or_else (arg 0 args) (VStr ""))))) w)
        as (_ & H & _).
      apply (H (js_string E (or_else (arg 0 args) (VStr ""))) href);
        [reflexivity | reflexivity | exact Hm | exact Hu].
    + intros Hc.
      destruct (xhr_send_uses_recorded_open_run E body
                  (mkXhr (Some href)
                     (Some (js_string E (or_else (arg 0 args) (VStr ""))))) w)
        as (_ & _ & H).
      apply H. exact Hc.
  - intros ->. reflexivity.
Qed.

Lemma xhr_open_then_send_witness :
  resolve_url (Demo.env Demo.everything VNull)
    (js_string (Demo.env Demo.everything VNull)
       (arg 1 [VStr "Post"; VStr Demo.pixel_url])) = Some Demo.pixel_url /\
  computes
    (events_of
       (xhr_observe (Demo.env Demo.everything VNull) (BodyText Demo.pixel_body)
          (fst (xhr_open (Demo.env Demo.everything VNull)
                  [VStr "Post"; VStr Demo.pixel_url]
                  (mkXhr (Some "https://wplace.live/") (Some "GET"))))
          Demo.fresh))
  = [(Demo.pixel_url, Demo.pixel_body)].
Proof.
  split; [reflexivity|].
  destruct (xhr_open_then_send (Demo.env Demo.everything VNull)
              [VStr "Post"; VStr Demo.pixel_url]
              (mkXhr (Some "https://wplace.live/") (Some "GET"))
              (BodyText Demo.pixel_body) Demo.fresh) as (_ & H & _).
  destruct (H Demo.pixel_url eq_refl) as [Hc _].
  apply Hc; reflexivity.
Defined.

(** ** What the locator stores *)

Lemma try_fast_world E urls w : world_of (try_fast E urls w) = w.
Proof.
  induction urls as [|url rest IH]; [reflexivity|].
  rewrite try_fast_step. destruct (dyn_import E url); [reflexivity | exact IH].
Qed.

Lemma try_fast_succeeds E urls w x m :
  In x urls -> dyn_import E x = Some m ->
  exists m', completion (try_fast E urls w) = Normal (Some m').
Proof.
  induction urls as [|a l IH]; [intros []|]. intros Hin Hm.
  rewrite try_fast_step. destruct (dyn_import E a) eqn:Ha; [eexists; reflexivity|].
  destruct Hin as [<-|Hin]; [congruence|]. apply IH; assumption.
Qed.

Lemma after_lookup_storage w : localStorage (after_lookup w) = localStorage w.
Proof. unfold after_lookup. destruct (cached_path w); reflexivity. Qed.

Lemma discover_storage E w :
  localStorage (world_of (discoverPawtectChunk E w)) = localStorage w \/
  exists url,
    In url (chunkCandidates E) /\ accepts E url = true /\
    localStorage (world_of (discoverPawtectChunk E w))
    = <["wplacer_pawtect_path" := url]> (localStorage w).
Proof.
  unfold discoverPawtectChunk.
  destruct (first_accepted E (chunkCandidates E))
    as [Hall | (pre & u & post & Hc & Hpre & Hu)].
  - rewrite (run_try_normal _ _ w _ _ _ (scan_exhausted E _ w Hall)).
    left. reflexivity.
  - assert (Hrun : try_catch (scan E (chunkCandidates E)) (ret None) w =
                   (Normal (Some u), found u w, map NetFetch (pre ++ [u])))
      by (rewrite Hc; apply run_try_normal, scan_first_match; assumption).
    rewrite Hrun. right. exists u. repeat split; [|exact Hu].
    rewrite Hc. apply in_or_app. right. left. reflexivity.
Qed.

(** X27: locating the module writes to the storage in one way only: when
    every fast import has failed and the scan accepts a candidate, that
    candidate's URL is stored under [wplacer_pawtect_path].  In every other
    case the storage is left exactly as it was; in particular a stored
    path that fails to import is not removed by the locator. *)
Theorem locator_stores_only_checked_urls (E : Env) (w : World) :
  let w' := world_of (importModule E w) in
  (localStorage w' = localStorage w \/
   exists url,
     In url (chunkCandidates E) /\ accepts E url = true /\
     (forall x, In x (fastCandidates E (first_choice w)) -> dyn_import E x = None) /\
     localStorage w' = <["wplacer_pawtect_path" := url]> (localStorage w)) /\
  (forall k, k <> "wplacer_pawtect_path" ->
     localStorage w' !! k = localStorage w !! k) /\
  (forall x m, In x (fastCandidates E (first_choice w)) -> dyn_import E x = Some m ->
     localStorage w' = localStorage w).
Proof.
  cbn zeta.
  assert (Hfast : forall x m,
            In x (fastCandidates E (first_choice w)) -> dyn_import E x = Some m ->
            localStorage (world_of (importModule E w)) = localStorage w).
  { intros x m Hin Hm. rewrite importModule_run. cbn zeta.
    pose proof (try_fast_world E (fastCandidates E (first_choice w)) (after_lookup w))
      as Hw.
    destruct (try_fast E (fastCandidates E (first_choice w)) (after_lookup w))
      as [[[[jm|]|] w2] e2] eqn:Hf; cbn [world_of fst snd] in *; subst w2;
      try apply after_lookup_storage.
    destruct (try_fast_succeeds E _ (after_lookup w) x m Hin Hm) as [m' Hc].
    rewrite Hf in Hc. discriminate. }
  assert (Hmain :
    localStorage (world_of (importModule E w)) = localStorage w \/
    exists url,
      In url (chunkCandidates E) /\ accepts E url = true /\
      (forall x, In x (fastCandidates E (first_choice w)) -> dyn_import E x = None) /\
      localStorage (world_of (importModule E w))
      = <["wplacer_pawtect_path" := url]> (localStorage w)).
  { destruct (List.find (fun x => match dyn_import E x with Some _ => true | None => false end)
                (fastCandidates E (first_choice w))) as [x|] eqn:Hfind.
    - apply List.find_some in Hfind. destruct Hfind as [Hin Hx].
      destruct (dyn_import E x) as [m|] eqn:Hm; [|discriminate].
      left. apply (Hfast x m Hin Hm).
    - assert (Hall : forall x, In x (fastCandidates E (first_choice w)) ->
                       dyn_import E x = None).
      { intros x Hin. pose proof (List.find_none _ _ Hfind x Hin) as H.
        cbn in H. destruct (dyn_import E x); [discriminate | reflexivity]. }
      rewrite importModule_run. cbn zeta.
      rewrite (try_fast_exhausted E _ _ Hall).
      pose proof (discover_storage E (after_lookup w)) as Hd.
      rewrite after_lookup_storage in Hd.
      destruct (discover_returns E (after_lookup w)) as [d Hret].
      rewrite Hret. destruct d as [u|]; cbn [world_of fst snd];
        (destruct Hd as [Hd | (url & Hin & Hacc & Hd)];
         [left; exact Hd | right; exists url; auto]). }
  split; [exact Hmain|]. split; [|exact Hfast].
  intros k Hk. destruct Hmain as [-> | (url & _ & _ & _ & ->)]; [reflexivity|].
  apply lookup_insert_ne. congruence.
Qed.

Lemma locator_stores_only_checked_urls_witness :
  "theme" <> "wplacer_pawtect_path" /\
  localStorage
    (world_of (importModule (Demo.env Demo.nothing VNull)
       (mkWorld {[ "theme" := "dark" ]} VUndefined false NativeFetch 0 [])))
  !! "theme" = Some "dark".
Proof.
  assert (H : "theme" <> "wplacer_pawtect_path") by discriminate.
  split; [exact H|].
  destruct (locator_stores_only_checked_urls (Demo.env Demo.nothing VNull)
    (mkWorld {[ "theme" := "dark" ]} VUndefined false NativeFetch 0 []))
    as (_ & Hk & _).
  rewrite (Hk "theme" H). vm_compute. reflexivity.
Defined.

(** ** Marshalling into the module memory *)

(** X21: writing the encoded body at [ptr] fails exactly when the range
    leaves the buffer; when it succeeds the buffer keeps its length, a view
    of the same range reads the bytes back, and every byte outside the
    range is what it was. *)
Theorem marshalled_bytes_read_back (mem : list byte) (ptr : Z) (bytes : list byte) :
  (mem_write mem ptr bytes = None <->
   ptr < 0 \/ Z.of_nat (length mem) < ptr + Z.of_nat (length bytes)) /\
  (forall mem',
     mem_write mem ptr bytes = Some mem' ->
     length mem' = length mem /\
     mem_view mem' ptr (Z.of_nat (length bytes)) = Some bytes /\
     (forall i : nat,
        (i < Z.to_nat ptr \/ Z.to_nat ptr + length bytes <= i)%nat ->
        mem' !! i = mem !! i)).
Proof.
  unfold mem_write.
  destruct (Z.leb_spec 0 ptr) as [Hp|Hp];
    [destruct (Z.leb_spec (ptr + Z.of_nat (length bytes)) (Z.of_nat (length mem)))
       as [Hl|Hl]|]; cbn [andb].
  2: { split; [split; [intros _; lia | reflexivity] | discriminate]. }
  2: { split; [split; [intros _; lia | reflexivity] | discriminate]. }
  split; [split; [discriminate | intros [?|?]; lia]|].
  intros mem' [= <-].
  set (p := Z.to_nat ptr). set (n := length bytes).
  assert (Hpn : (p + n <= length mem)%nat) by (unfold p, n; lia).
  assert (Hlen : length (take p mem ++ bytes ++ drop (p + n) mem) = length mem).
  { rewrite !length_app, length_take, length_drop. fold n. lia. }
  split; [exact Hlen|]. split.
  - unfold mem_view. rewrite Hlen.
    replace (0 <=? ptr) with true by (symmetry; apply Z.leb_le; lia).
    replace (0 <=? Z.of_nat n) with true by (symmetry; apply Z.leb_le; lia).
    replace (ptr + Z.of_nat n <=? Z.of_nat (length mem)) with true
      by (symmetry; apply Z.leb_le; unfold n; lia).
    cbn [andb]. f_equal. fold p. rewrite Nat2Z.id.
    rewrite (drop_app_length' (take p mem)) by (rewrite length_take; lia).
    apply take_app_length.
  - intros i [Hi|Hi]; fold p n in Hi.
    + rewrite lookup_app_l by (rewrite length_take; lia).
      apply lookup_take_lt, Hi.
    + rewrite lookup_app_r by (rewrite length_take; lia).
      rewrite lookup_app_r by (rewrite length_take; fold n; lia).
      rewrite lookup_drop, length_take. fold n. f_equal. lia.
Qed.

Lemma marshalled_bytes_read_back_witness :
  mem_write (repeat x00 8) 2 [x41; x42] = Some ([x00; x00; x41; x42] ++ repeat x00 4) /\
  mem_view ([x00; x00; x41; x42] ++ repeat x00 4) 2 2 = Some [x41; x42].
Proof.
  assert (H : mem_write (repeat x00 8) 2 [x41; x42]
              = Some ([x00; x00; x41; x42] ++ repeat x00 4)) by reflexivity.
  split; [exact H|].
  destruct (marshalled_bytes_read_back (repeat x00 8) 2 [x41; x42]) as [_ Hw].
  destruct (Hw _ H) as (_ & Hv & _). exact Hv.
Defined.

End PageFacts.

(* ===================================================================== *)
(** * Further properties of the tracker *)
(* ===================================================================== *)

Section TrackerRuns.
Import Tracker.

Lemma set_timer_waiting t s :
  is_waiting (set_timer t s) = match t with Some t => negb (t =? 0) | None => false end.
Proof. reflexivity. Qed.

Lemma reaches_not_early m a :
  reaches_token_branches m = true -> In a early_actions ->
  is_str (action m) a = false.
Proof.
  unfold reaches_token_branches. rewrite negb_true_iff. intros H Hin.
  destruct (is_str (action m) a) eqn:Ha; [|reflexivity].
  assert (existsb (is_str (action m)) early_actions = true)
    by (apply existsb_exists; exists a; split; assumption).
  congruence.
Qed.

Lemma onMessage_late st now m s :
  reaches_token_branches m = true ->
  onMessage st now m s =
  (let '(s1, e1) := send_token_step m s in
   let '(s2, e2, r) := token_pair_step m s1 in (s2, e1 ++ e2, r)).
Proof.
  intros Hr. unfold onMessage.
  rewrite !(reaches_not_early m _ Hr) by (cbn; tauto). reflexivity.
Qed.

Lemma onMessage_early_timer st now m s :
  reaches_token_branches m = false ->
  tokenWaitStartTime (fst (fst (onMessage st now m s))) = tokenWaitStartTime s.
Proof.
  unfold reaches_token_branches, early_actions. cbn [existsb].
  rewrite negb_false_iff. intros H. unfold onMessage.
  repeat match goal with
         | |- context [if is_str (action m) ?a then _ else _] =>
             destruct (is_str (action m) a) eqn:?; [reflexivity|]
         end.
  cbn in H. discriminate.
Qed.

Lemma reset_on_token_not_waiting s : is_waiting (reset_on_token s) = false.
Proof.
  unfold reset_on_token. destruct (is_waiting s) eqn:E; [reflexivity | exact E].
Qed.

Lemma reset_on_token_timer s :
  tokenWaitStartTime (reset_on_token s) = tokenWaitStartTime s \/
  tokenWaitStartTime (reset_on_token s) = None.
Proof.
  unfold reset_on_token. destruct (is_waiting s); [right | left]; reflexivity.
Qed.

Lemma poll_settings st s :
  getSettings st s =
  (fst (getSettings st s),
   mkState (tokenWaitStartTime s)
     (s_autoReload (fst (getSettings st s))) (s_autoClear (fst (getSettings st s)))).
Proof. reflexivity. Qed.

(** X1: a poll that fails (the request throws, or the response is not ok)
    leaves the wait timer exactly as it was and produces nothing but a
    console line; and whatever the poll's outcome, a tick that is not
    answered with needed = true neither reloads nor clears the cache. *)
Theorem only_needed_ticks_act (st : Storage) (clk : Clock) (s : State) (poll : Poll) :
  poll <> PollData true ->
  let r := pollForTokenRequest st poll clk s in
  List.filter is_reload (snd r) = [] /\
  List.filter is_clear (snd r) = [] /\
  (poll <> PollData false ->
     tokenWaitStartTime (fst r) = tokenWaitStartTime s /\
     exists l, snd r = [ConsoleLog l]).
Proof.
  intros Hp r. subst r. unfold pollForTokenRequest.
  destruct (getSettings st s) as [settings s0] eqn:Hg.
  assert (Ht : tokenWaitStartTime s0 = tokenWaitStartTime s)
    by (replace s0 with (snd (getSettings st s)) by (rewrite Hg; reflexivity);
        apply getSettings_timer).
  destruct poll as [| |[]]; try congruence; cbn [fst snd].
  - repeat split; try reflexivity; [exact Ht | eexists; reflexivity].
  - repeat split; try reflexivity; [exact Ht | eexists; reflexivity].
  - destruct (is_waiting s0); cbn; repeat split; congruence.
Qed.

Lemma only_needed_ticks_act_witness :
  PollNotOk <> PollData true /\
  tokenWaitStartTime
    (fst (pollForTokenRequest default_storage PollNotOk both_clears_clock
            at_threshold_state)) = Some 1000.
Proof.
  assert (H : PollNotOk <> PollData true) by discriminate.
  split; [exact H|].
  destruct (only_needed_ticks_act default_storage both_clears_clock
              at_threshold_state PollNotOk H) as (_ & _ & Hk).
  destruct (Hk ltac:(discriminate)) as [Ht _]. exact Ht.
Defined.

Lemma reload_step_clears settings clk s :
  s_autoClear settings = false ->
  List.filter is_clear (reload_step settings clk s) = [].
Proof.
  intros H. unfold reload_step. rewrite H.
  destruct (s_autoReload settings); reflexivity.
Qed.

(** X2: with auto-clear switched off no tick clears the cache, whatever
    the poll answers and however long the wait has lasted, and a waiting
    tracker's timer is never restarted by a tick that finds the token still
    needed. *)
Theorem auto_clear_off_never_clears (st : Storage) (poll : Poll) (clk : Clock)
  (s : State) :
  auto_clear_setting st s = false ->
  let r := pollForTokenRequest st poll clk s in
  List.filter is_clear (snd r) = [] /\
  (is_waiting s = true -> poll = PollData true ->
     tokenWaitStartTime (fst r) = tokenWaitStartTime s).
Proof.
  intros Hac r. subst r. unfold auto_clear_setting in Hac.
  unfold pollForTokenRequest. rewrite poll_settings.
  set (settings := fst (getSettings st s)) in *.
  set (s0 := mkState _ _ _).
  destruct poll as [| |[]]; cbn [fst snd].
  - split; [reflexivity | discriminate].
  - split; [reflexivity | discriminate].
  - unfold track_wait, overdue. rewrite Hac, andb_false_r.
    destruct (is_waiting s0) eqn:Hw; cbn [negb fst snd].
    + split; [|reflexivity]. cbn [app List.filter is_clear].
      apply reload_step_clears, Hac.
    + split; [|intros Hs; unfold s0, is_waiting in Hw; cbn in Hw;
                unfold is_waiting in Hs; congruence].
      cbn [app List.filter is_clear]. apply reload_step_clears, Hac.
  - split; [|discriminate]. destruct (is_waiting s0); reflexivity.
Qed.

Lemma auto_clear_off_never_clears_witness :
  auto_clear_setting (mkStorage None None (Some false)) at_threshold_state = false /\
  List.filter is_clear
    (snd (pollForTokenRequest (mkStorage None None (Some false)) (PollData true)
            both_clears_clock at_threshold_state)) = [].
Proof.
  split; [reflexivity|].
  apply (auto_clear_off_never_clears (mkStorage None None (Some false))
           (PollData true) both_clears_clock at_threshold_state).
  reflexivity.
Defined.

Lemma filter_app_list {A} (f : A -> bool) (l1 l2 : list A) :
  List.filter f (l1 ++ l2) = List.filter f l1 ++ List.filter f l2.
Proof.
  induction l1 as [|a l1 IH]; [reflexivity|]. cbn.
  destruct (f a); cbn; rewrite IH; reflexivity.
Qed.

(** X3: a tick answered with needed = true sends exactly one reload when
    auto-reload is on and none when it is off; it clears the cache at most
    twice, and the clear of the overdue transition comes before the
    reload. *)
Theorem one_reload_per_needed_tick (st : Storage) (clk : Clock) (s : State) :
  let es := snd (tick_needed st clk s) in
  length (List.filter is_reload es)
    = (if auto_reload_setting st s then 1%nat else 0%nat) /\
  (length (List.filter is_clear es) <= 2)%nat /\
  (auto_reload_setting st s = false ->
     (length (List.filter is_clear es) <= 1)%nat /\ reload_clear_in es = false) /\
  (overdue_clear_in es = true -> auto_reload_setting st s = true ->
     exists pre post,
       es = pre ++ InitiateReload :: post /\
       overdue_clear_in pre = true /\ List.filter is_reload pre = []).
Proof.
  cbn zeta. unfold tick_needed, pollForTokenRequest, auto_reload_setting.
  rewrite poll_settings.
  set (settings := fst (getSettings st s)) in *.
  set (s0 := mkState _ _ _).
  cbn [fst snd].
  destruct (track_wait settings clk s0) as [s1 e1] eqn:Ht.
  cbn [fst snd].
  assert (He1 : (e1 = [ConsoleLog LogStartedTracking; TokenStatusChanged true (Some 0)]
                 \/ exists w, e1 = [TokenStatusChanged true (Some (w / 1000))])
                \/ exists w, e1 = [TokenStatusChanged true (Some (w / 1000));
                                    ConsoleLog (LogExceeded w); ClearPawtectCache]).
  { unfold track_wait in Ht.
    destruct (negb (is_waiting s0)); [inversion Ht; auto|].
    destruct (overdue _ settings); inversion Ht; eauto. }
  unfold reload_step.
  destruct (s_autoReload settings) eqn:Har.
  - destruct (s_autoClear settings && _);
      destruct He1 as [[-> | [w ->]] | [w ->]]; cbn;
      repeat split; try lia; try discriminate; intros _ _.
    + exists [ConsoleLog LogRequiresToken; TokenStatusChanged true (Some (w / 1000));
              ConsoleLog (LogExceeded w); ClearPawtectCache; ConsoleLog LogAutoReload].
      eexists. repeat split.
    + exists [ConsoleLog LogRequiresToken; TokenStatusChanged true (Some (w / 1000));
              ConsoleLog (LogExceeded w); ClearPawtectCache; ConsoleLog LogAutoReload].
      eexists. repeat split.
  - destruct He1 as [[-> | [w ->]] | [w ->]]; cbn;
      repeat split; try lia; try discriminate.
Qed.

Lemma one_reload_per_needed_tick_witness :
  overdue_clear_in (snd (tick_needed default_storage both_clears_clock
                           at_threshold_state)) = true /\
  exists pre post,
    snd (tick_needed default_storage both_clears_clock at_threshold_state)
    = pre ++ InitiateReload :: post /\
    overdue_clear_in pre = true /\ List.filter is_reload pre = [].
Proof.
  split; [reflexivity|].
  apply (one_reload_per_needed_tick default_storage both_clears_clock
           at_threshold_state); reflexivity.
Defined.

(** X4: the tick on which an idle tracker first learns that a token is
    needed stores the clock reading of that moment, reports a wait of 0
    seconds, and never runs the overdue transition, whatever the clock. *)
Theorem first_needed_tick_starts_timer (st : Storage) (clk : Clock) (s : State) :
  is_waiting s = false ->
  let r := tick_needed st clk s in
  tokenWaitStartTime (fst r) = Some (now_start clk) /\
  In (TokenStatusChanged true (Some 0)) (snd r) /\
  overdue_clear_in (snd r) = false.
Proof.
  intros Hw r. subst r. unfold tick_needed, pollForTokenRequest.
  rewrite poll_settings.
  set (settings := fst (getSettings st s)) in *.
  set (s0 := mkState _ _ _).
  assert (Hw0 : is_waiting s0 = false) by exact Hw.
  unfold track_wait. rewrite Hw0. cbn [negb fst snd].
  repeat split.
  - cbn. tauto.
  - cbn [app overdue_clear_in]. apply reload_step_no_overdue.
Qed.

Lemma first_needed_tick_starts_timer_witness :
  is_waiting initial = false /\
  tokenWaitStartTime (fst (tick_needed default_storage both_clears_clock initial))
  = Some 40000.
Proof.
  split; [reflexivity|].
  apply (first_needed_tick_starts_timer default_storage both_clears_clock initial).
  reflexivity.
Defined.

Lemma token_steps_timer m s :
  let '(s1, e1) := send_token_step m s in
  let '(s2, e2, r) := token_pair_step m s1 in
  (tokenWaitStartTime s2 = tokenWaitStartTime s \/ tokenWaitStartTime s2 = None) /\
  is_waiting s2 = (if is_str (type m) "SEND_TOKEN"
                      || (is_str (action m) "tokenPairReceived"
                          && truthy (get (fields m) "turnstile")
                          && truthy (get (fields m) "pawtect"))
                   then false else is_waiting s).
Proof.
  unfold send_token_step, token_pair_step.
  destruct (is_str (type m) "SEND_TOKEN");
    destruct (is_str (action m) "tokenPairReceived");
    try destruct (truthy (get (fields m) "turnstile") && truthy (get (fields m) "pawtect"))
      eqn:Hb; cbn [andb orb];
    rewrite ?andb_true_l; rewrite ?Hb;
    repeat match goal with
           | |- context [reset_on_token (reset_on_token ?x)] =>
               destruct (reset_on_token_timer (reset_on_token x)) as [-> | ->]
           end;
    split; auto using reset_on_token_timer, reset_on_token_not_waiting.
  all: try (destruct (reset_on_token_timer s) as [H | H];
            destruct (reset_on_token_timer (reset_on_token s)) as [H' | H'];
            rewrite ?H', ?H; auto).
  all: try (rewrite reset_on_token_not_waiting; reflexivity).
Qed.

(** X5: the message listener never starts a wait and never moves the
    timer: after any message the timer is what it was or is cleared, an
    idle tracker stays idle, and a message that does not deliver a token
    leaves the timer untouched. *)
Theorem listener_never_starts_wait (st : Storage) (now : Z) (m : Message) (s : State) :
  let s' := fst (fst (onMessage st now m s)) in
  (tokenWaitStartTime s' = tokenWaitStartTime s \/ tokenWaitStartTime s' = None) /\
  (is_waiting s = false -> is_waiting s' = false) /\
  (delivers_token m = false -> is_waiting s' = is_waiting s).
Proof.
  cbn zeta. unfold delivers_token.
  destruct (reaches_token_branches m) eqn:Hr.
  - rewrite (onMessage_late st now m s Hr).
    pose proof (token_steps_timer m s) as H.
    destruct (send_token_step m s) as [s1 e1].
    destruct (token_pair_step m s1) as [[s2 e2] r].
    destruct H as [Ht Hw]. cbn [fst snd andb].
    split; [exact Ht|]. rewrite Hw.
    destruct (is_str (type m) "SEND_TOKEN" || _); split; auto; discriminate.
  - pose proof (onMessage_early_timer st now m s Hr) as Ht.
    unfold is_waiting. rewrite Ht. cbn [andb]. auto.
Qed.

Lemma listener_never_starts_wait_witness :
  is_waiting initial = false /\
  is_waiting (fst (fst (onMessage default_storage 5000 send_token_message initial)))
  = false.
Proof.
  split; [reflexivity|].
  destruct (listener_never_starts_wait default_storage 5000 send_token_message
              initial) as (_ & Hidle & _).
  apply Hidle. reflexivity.
Defined.

Lemma step_waiting i s :
  clock_after_epoch i = true ->
  is_waiting (step i s) =
  match signal i with Some x => x | None => is_waiting s end.
Proof.
  destruct i as [st poll clk | st now m]; cbn [clock_after_epoch step signal].
  - intros Hc. apply andb_prop in Hc. destruct Hc as [Hs Hr].
    unfold pollForTokenRequest. rewrite poll_settings.
    set (settings := fst (getSettings st s)) in *.
    set (s0 := mkState _ _ _).
    assert (Hw0 : is_waiting s0 = is_waiting s) by reflexivity.
    destruct poll as [| |[]]; cbn [fst snd]; try exact Hw0.
    + unfold track_wait.
      destruct (is_waiting s0) eqn:Hw; cbn [negb].
      * destruct (overdue _ settings); cbn [fst];
          [rewrite set_timer_waiting; exact Hr | exact Hw].
      * cbn [fst]. rewrite set_timer_waiting. exact Hs.
    + destruct (is_waiting s0) eqn:Hw; cbn [fst]; [reflexivity | exact Hw].
  - intros _.
    unfold delivers_token.
    destruct (reaches_token_branches m) eqn:Hr; cbn [andb].
    + rewrite (onMessage_late st now m s Hr).
      pose proof (token_steps_timer m s) as H.
      destruct (send_token_step m s) as [s1 e1].
      destruct (token_pair_step m s1) as [[s2 e2] r].
      destruct H as [_ Hw]. cbn [fst]. rewrite Hw.
      destruct (is_str (type m) "SEND_TOKEN" || _); reflexivity.
    + unfold is_waiting. rewrite (onMessage_early_timer st now m s Hr).
      reflexivity.
Qed.

(** X6: along any sequence of ticks and messages handled one after the
    other, the tracker is waiting afterwards exactly when the most recent
    signal was a poll answered with needed = true, with no token delivered
    and no needed = false answer since; before any signal it keeps the state
    it started in.  (The clock is assumed never to read 0, which the script
    would take for no timer.) *)
Theorem wait_follows_last_signal (inputs : list Input) (s : State) :
  forallb clock_after_epoch inputs = true ->
  is_waiting (run inputs s) = last_signal inputs (is_waiting s).
Proof.
  revert s. induction inputs as [|i inputs IH]; intros s Hc; [reflexivity|].
  cbn [forallb] in Hc. apply andb_prop in Hc. destruct Hc as [Hi Hrest].
  unfold run, last_signal. cbn [fold_left].
  fold (run inputs (step i s)).
  rewrite (IH _ Hrest), (step_waiting i s Hi). reflexivity.
Qed.

Lemma wait_follows_last_signal_witness :
  forallb clock_after_epoch
    [Tick default_storage (PollData true) both_clears_clock;
     Tick default_storage PollNotOk both_clears_clock;
     Incoming default_storage 5000 send_token_message;
     Tick default_storage PollThrows both_clears_clock] = true /\
  is_waiting
    (run [Tick default_storage (PollData true) both_clears_clock;
          Tick default_storage PollNotOk both_clears_clock;
          Incoming default_storage 5000 send_token_message;
          Tick default_storage PollThrows both_clears_clock] initial) = false.
Proof.
  split; [reflexivity|].
  rewrite (wait_follows_last_signal _ initial); reflexivity.
Defined.

(** X7: a [tokenPairReceived] message that lacks the turnstile or the
    pawtect token is answered with an error; it posts nothing to the server
    and leaves the tracker as it was, so the wait goes on. *)
Theorem incomplete_pair_rejected (st : Storage) (now : Z) (m : Message) (s : State) :
  is_str (action m) "tokenPairReceived" = true ->
  is_str (type m) "SEND_TOKEN" = false ->
  truthy (get (fields m) "turnstile") && truthy (get (fields m) "pawtect") = false ->
  onMessage st now m s =
  (s, [Respond (VObj [("success", VBool false);
                      ("error", VStr "Missing turnstile or pawtect token")])],
   true).
Proof.
  intros Ha Ht Hb.
  assert (Hr : reaches_token_branches m = true).
  { unfold reaches_token_branches, early_actions, is_str in *.
    destruct (action m); try discriminate.
    apply String.eqb_eq in Ha. subst. reflexivity. }
  rewrite (onMessage_late st now m s Hr).
  unfold send_token_step, token_pair_step. rewrite Ht, Ha, Hb. reflexivity.
Qed.

Lemma incomplete_pair_rejected_witness :
  is_str (VStr "tokenPairReceived") "tokenPairReceived" = true /\
  fst (fst (onMessage default_storage 5000
              (mkMessage (VStr "tokenPairReceived") VUndefined
                 (VObj [("turnstile", VStr "abc")]) (Some 7))
              at_threshold_state)) = at_threshold_state.
Proof.
  split; [reflexivity|].
  rewrite (incomplete_pair_rejected default_storage 5000
             (mkMessage (VStr "tokenPairReceived") VUndefined
                (VObj [("turnstile", VStr "abc")]) (Some 7))
             at_threshold_state); reflexivity.
Defined.

(** X26: the answer to [getTokenStatus] leaves the tracker untouched and
    tells the truth about it: [waiting] is the tracker's own test of the
    timer, and for a waiting tracker polled at or after the start of the
    wait the reported [waitTime] is the elapsed time in whole seconds,
    rounded down and never negative; an idle tracker reports 0. *)
Theorem token_status_reports_whole_seconds (st : Storage) (now : Z) (m : Message)
  (s : State) :
  is_str (action m) "getTokenStatus" = true ->
  exists waitTime,
    onMessage st now m s =
      (s, [Respond (VObj [("waiting", VBool (is_waiting s));
                          ("waitTime", VNum waitTime)])], true) /\
    (is_waiting s = false -> waitTime = 0) /\
    (forall start,
       is_waiting s = true -> tokenWaitStartTime s = Some start -> start <= now ->
       0 <= waitTime /\ 1000 * waitTime <= now - start < 1000 * (waitTime + 1)).
Proof.
  intros Ha. unfold onMessage.
  assert (H1 : is_str (action m) "sendCookie" = false).
  { unfold is_str in *. destruct (action m); try discriminate.
    apply String.eqb_eq in Ha. subst. reflexivity. }
  assert (H2 : is_str (action m) "clearPawtectCache" = false).
  { unfold is_str in *. destruct (action m); try discriminate.
    apply String.eqb_eq in Ha. subst. reflexivity. }
  rewrite H1, H2, Ha.
  destruct (is_waiting s) eqn:Hw.
  - exists (elapsed now s / 1000). split; [reflexivity|]. split; [discriminate|].
    intros start _ Hs Hle. unfold elapsed. rewrite Hs.
    pose proof (Z.div_mod (now - start) 1000 ltac:(lia)) as Hdm.
    pose proof (Z.mod_pos_bound (now - start) 1000 ltac:(lia)) as Hb.
    assert (0 <= (now - start) / 1000) by (apply Z.div_pos; lia).
    lia.
  - exists 0. split; [reflexivity|]. split; [reflexivity | discriminate].
Qed.

Lemma token_status_reports_whole_seconds_witness :
  is_str (VStr "getTokenStatus") "getTokenStatus" = true /\
  exists waitTime,
    onMessage default_storage 4999
      (mkMessage (VStr "getTokenStatus") VUndefined (VObj []) None) at_threshold_state
    = (at_threshold_state,
       [Respond (VObj [("waiting", VBool true); ("waitTime", VNum waitTime)])], true) /\
    1000 * waitTime <= 4999 - 1000 < 1000 * (waitTime + 1).
Proof.
  split; [reflexivity|].
  destruct (token_status_reports_whole_seconds default_storage 4999
              (mkMessage (VStr "getTokenStatus") VUndefined (VObj []) None)
              at_threshold_state eq_refl) as (wt & Hr & _ & Hb).
  exists wt. split; [exact Hr|].
  apply (Hb 1000); [reflexivity | reflexivity | lia].
Defined.

End TrackerRuns.

(* ===================================================================== *)
(** * Properties of the reload, cache-clearing and cookie helpers *)
(* ===================================================================== *)

Section WorkerFacts.
Import Tracker Worker.

Lemma find_first {A} (f : A -> bool) (l : list A) :
  match List.find f l with
  | Some t =>
      f t = true /\
      exists pre post, l = pre ++ t :: post /\ List.Forall (fun x => f x = false) pre
  | None => List.Forall (fun x => f x = false) l
  end.
Proof.
  induction l as [|a l IH]; cbn; [constructor|].
  destruct (f a) eqn:Ha.
  - split; [exact Ha|]. exists [], l. split; [reflexivity | constructor].
  - destruct (List.find f l) as [t|].
    + destruct IH as (Ht & pre & post & -> & Hpre). split; [exact Ht|].
      exists (a :: pre), post. split; [reflexivity|]. constructor; assumption.
    + constructor; assumption.
Qed.

(** X8: when the query finds tabs, the reload message goes to exactly one
    tab, chosen among them: the first active tab if there is one, otherwise
    the first tab.  If that tab answers, no tab is force-reloaded, the
    function returns, and the popup is told of the success later. *)
Theorem reload_asks_preferred_tab (tabs : list Tab) (delivered : Z -> bool)
  (again : option (list Tab)) :
  tabs <> [] ->
  let r := initiateReload (Some tabs) delivered again in
  exists t,
    reload_requests (snd r) = [tab_id t] /\
    In t tabs /\
    ((tab_active t = true /\
      exists pre post,
        tabs = pre ++ t :: post /\ List.Forall (fun x => tab_active x = false) pre) \/
     (List.Forall (fun x => tab_active x = false) tabs /\ hd_error tabs = Some t)) /\
    (delivered (tab_id t) = true ->
       r = (true, [StatusUpdate RELOADING; ReloadForToken (tab_id t);
                   StatusUpdateLater RELOADED])).
Proof.
  intros Hne r. subst r. unfold initiateReload, pick_target.
  pose proof (find_first tab_active tabs) as Hf.
  destruct (List.find tab_active tabs) as [t|].
  - destruct Hf as (Ha & pre & post & Hl & Hpre). exists t.
    assert (Hin : In t tabs) by (rewrite Hl; apply in_or_app; right; left; reflexivity).
    assert (Hchoice :
      (tab_active t = true /\
       exists pre post,
         tabs = pre ++ t :: post /\ List.Forall (fun x => tab_active x = false) pre) \/
      (List.Forall (fun x => tab_active x = false) tabs /\ hd_error tabs = Some t))
      by (left; eauto).
    destruct (delivered (tab_id t)) eqn:Hd.
    + split; [reflexivity|]. split; [exact Hin|]. split; [exact Hchoice|].
      reflexivity.
    + destruct (reload_fallback again) as [ok acts] eqn:Hfb.
      assert (Hacts : reload_requests acts = []).
      { unfold reload_fallback in Hfb.
        destruct again as [[|x l]|]; inversion Hfb; reflexivity. }
      cbn. unfold reload_requests in Hacts. rewrite Hacts.
      split; [reflexivity|]. split; [exact Hin|]. split; [exact Hchoice|].
      discriminate.
  - destruct tabs as [|t l]; [congruence|]. exists t. cbn [hd_error].
    assert (Hchoice :
      (tab_active t = true /\
       exists pre post,
         t :: l = pre ++ t :: post /\
         List.Forall (fun x => tab_active x = false) pre) \/
      (List.Forall (fun x => tab_active x = false) (t :: l) /\ Some t = Some t))
      by (right; split; [exact Hf | reflexivity]).
    destruct (delivered (tab_id t)) eqn:Hd.
    + split; [reflexivity|]. split; [left; reflexivity|].
      split; [exact Hchoice | reflexivity].
    + destruct (reload_fallback again) as [ok acts] eqn:Hfb.
      assert (Hacts : reload_requests acts = []).
      { unfold reload_fallback in Hfb.
        destruct again as [[|x l']|]; inversion Hfb; reflexivity. }
      cbn. unfold reload_requests in Hacts. rewrite Hacts.
      split; [reflexivity|]. split; [left; reflexivity|].
      split; [exact Hchoice | discriminate].
Qed.

Lemma reload_asks_preferred_tab_witness :
  [mkTab 3 false; mkTab 5 true; mkTab 9 true] <> [] /\
  reload_requests
    (snd (initiateReload (Some [mkTab 3 false; mkTab 5 true; mkTab 9 true])
            (fun _ => true) None)) = [5].
Proof.
  assert (H : [mkTab 3 false; mkTab 5 true; mkTab 9 true] <> []) by discriminate.
  split; [exact H|].
  destruct (reload_asks_preferred_tab [mkTab 3 false; mkTab 5 true; mkTab 9 true]
              (fun _ => true) None H) as (t & Hr & _).
  reflexivity.
Defined.

(** X9: without tabs nothing is asked to reload and nothing is reloaded.
    When the reload message cannot be delivered (or the first query
    throws), the fallback force-reloads exactly the first tab of a second
    query, whichever tab was asked before; if that query finds no tab it
    only reports so, and if it throws the function rejects without
    reloading anything. *)
Theorem reload_falls_back_to_first_tab (tabs : option (list Tab))
  (delivered : Z -> bool) (again : option (list Tab)) :
  let r := initiateReload tabs delivered again in
  (tabs = Some [] ->
     r = (true, [StatusUpdate RELOADING; StatusUpdate NONE_FOUND])) /\
  ((tabs = None \/
    exists ts t, tabs = Some ts /\ pick_target ts = Some t /\
                 delivered (tab_id t) = false) ->
   match again with
   | None => fst r = false /\ hard_reloads (snd r) = []
   | Some [] =>
       fst r = true /\ hard_reloads (snd r) = [] /\
       In (StatusUpdate NONE_FOUND) (snd r)
   | Some (first :: _) =>
       fst r = true /\ hard_reloads (snd r) = [tab_id first] /\
       In (StatusUpdateLater RELOADED) (snd r)
   end).
Proof.
  cbn zeta. split.
  - intros ->. reflexivity.
  - intros [-> | (ts & t & -> & Hp & Hd)]; unfold initiateReload.
    + destruct again as [[|first l]|]; cbn; repeat split; auto.
    + rewrite Hp, Hd.
      destruct again as [[|first l]|]; cbn; repeat split; auto.
Qed.

Lemma reload_falls_back_to_first_tab_witness :
  pick_target [mkTab 3 false; mkTab 5 true] = Some (mkTab 5 true) /\
  hard_reloads
    (snd (initiateReload (Some [mkTab 3 false; mkTab 5 true]) (fun _ => false)
            (Some [mkTab 3 false; mkTab 5 true]))) = [3].
Proof.
  split; [reflexivity|].
  destruct (reload_falls_back_to_first_tab (Some [mkTab 3 false; mkTab 5 true])
              (fun _ => false) (Some [mkTab 3 false; mkTab 5 true])) as [_ H].
  apply H. right. exists [mkTab 3 false; mkTab 5 true], (mkTab 5 true).
  repeat split.
Defined.







(** X11: [sendCookie] calls its callback exactly once on every path and
    never touches the wait timer.  Without the [j] cookie it posts nothing
    and leaves the worker state alone; with it, it posts once to [/user]
    on 127.0.0.1 at the configured port (80 when none is stored), with the
    [s] cookie exactly when there is one, and reports success exactly when
    the server's answer is ok and parses. *)
Theorem cookie_callback_once (has_callback : bool) (j s : option Cookie)
  (st : Storage) (reply : UserReply) (state : State) :
  let r := sendCookie has_callback j s st reply state in
  length (callbacks (snd r)) = (if has_callback then 1%nat else 0%nat) /\
  tokenWaitStartTime (fst r) = tokenWaitStartTime state /\
  (j = None -> fst r = state /\ snd r = call_back has_callback NO_COOKIE) /\
  (forall jc, j = Some jc ->
     exists rest,
       snd r = PostUser ("http://127.0.0.1:"
                         +:+ show_number (port (fst (getSettings st state)))
                         +:+ "/user")
                 (cookie_value jc) (option_map cookie_value s) (expirationDate jc)
               :: rest /\
       rest = call_back has_callback
                (match reply with
                 | UserInfo name => VObj [("success", VBool true); ("name", name)]
                 | _ => NO_SERVER
                 end)) /\
  (wplacerPort st = None \/ wplacerPort st = Some 0 ->
     show_number (port (fst (getSettings st state))) = "80").
Proof.
  cbn zeta. unfold sendCookie, getServerUrl.
  destruct j as [jc|].
  - rewrite poll_settings. cbn [fst snd].
    split; [destruct has_callback; reflexivity|].
    split; [reflexivity|]. split; [discriminate|]. split.
    + intros jc' [= <-]. eexists. split; [|reflexivity].
      destruct s; reflexivity.
    + intros [H | H]; unfold getSettings; rewrite H; reflexivity.
  - cbn [fst snd].
    split; [destruct has_callback; reflexivity|].
    split; [reflexivity|]. split; [auto|]. split; [discriminate|].
    intros [H | H]; unfold getSettings; rewrite H; reflexivity.
Qed.

Lemma cookie_callback_once_witness :
  Some (mkCookie "jwt" (VNum 1800000000)) = Some (mkCookie "jwt" (VNum 1800000000)) /\
  exists rest,
    snd (sendCookie true (Some (mkCookie "jwt" (VNum 1800000000))) None
           default_storage UserStatus initial)
    = PostUser "http://127.0.0.1:80/user" "jwt" None (VNum 1800000000) :: rest.
Proof.
  split; [reflexivity|].
  destruct (cookie_callback_once true (Some (mkCookie "jwt" (VNum 1800000000))) None
              default_storage UserStatus initial) as (_ & _ & _ & H & _).
  destruct (H _ eq_refl) as (rest & Hr & _). exists rest. exact Hr.
Defined.

Lemma prefix_append (p u : string) :
  String.prefix p u = true <-> exists rest, u = p +:+ rest.
Proof.
  revert u. induction p as [|c p IH]; intros u.
  - split; [intros _; exists u; reflexivity | intros _; destruct u; reflexivity].
  - destruct u as [|d u]; cbn.
    + split; [discriminate | intros [rest H]; discriminate].
    + destruct (Ascii.ascii_dec c d) as [<-|Hne].
      * rewrite IH. split; intros [rest H]; exists rest.
        -- rewrite H. reflexivity.
        -- change (String c u = String c (p +:+ rest)) in H. congruence.
      * split; [discriminate|]. intros [rest H].
        change (String d u = String c (p +:+ rest)) in H. congruence.
Qed.

(** X12: a tab update makes the worker send the cookie exactly when its
    status is [complete] and the tab's URL begins with the text
    [https://wplace.live]; whatever follows that text plays no part, and a
    tab without a URL never does. *)
Theorem update_sends_cookie_on_prefix (status : JsVal) (url : option string) :
  sends_cookie_on_update status url = true <->
  status = VStr "complete" /\
  exists rest, url = Some ("https://wplace.live" +:+ rest).
Proof.
  unfold sends_cookie_on_update, is_str. split.
  - intros H. apply andb_prop in H. destruct H as [Hs Hu].
    destruct status; try discriminate. apply String.eqb_eq in Hs. subst.
    destruct url as [u|]; [|discriminate].
    apply prefix_append in Hu. destruct Hu as [rest ->].
    split; [reflexivity | exists rest; reflexivity].
  - intros [-> [rest ->]]. rewrite String.eqb_refl. cbn [andb].
    apply prefix_append. exists rest. reflexivity.
Qed.

Lemma update_sends_cookie_on_prefix_witness :
  sends_cookie_on_update (VStr "complete") (Some "https://wplace.live/?x=1") = true.
Proof.
  apply (update_sends_cookie_on_prefix (VStr "complete")
           (Some "https://wplace.live/?x=1")).
  split; [reflexivity|]. exists "/?x=1". reflexivity.
Defined.

End WorkerFacts.

(* ===================================================================== *)
(** * Properties of the regular expressions *)
(* ===================================================================== *)

Section RegexFacts.
Import Regex Page.

Lemma sapp_cons c s t : String c s +:+ t = String c (s +:+ t).
Proof. reflexivity. Qed.

Lemma sapp_nil_r s : s +:+ "" = s.
Proof.
  induction s as [|c s IH]; [reflexivity|]. rewrite sapp_cons, IH. reflexivity.
Qed.

Lemma sapp_assoc a b c : (a +:+ b) +:+ c = a +:+ b +:+ c.
Proof.
  induction a as [|x a IH]; [reflexivity|]. rewrite !sapp_cons, IH. reflexivity.
Qed.

Lemma sapp_eq_nil s t : s +:+ t = "" -> s = "" /\ t = "".
Proof.
  destruct s; [intros H; split; [reflexivity | exact H]|].
  rewrite sapp_cons. discriminate.
Qed.

Lemma sapp_eq_cons s t c u :
  s +:+ t = String c u ->
  (s = "" /\ t = String c u) \/ exists s', s = String c s' /\ u = s' +:+ t.
Proof.
  destruct s as [|d s].
  - intros H. left. split; [reflexivity | exact H].
  - rewrite sapp_cons. intros [= -> <-]. right. exists s. split; reflexivity.
Qed.

Lemma denotes_Void s : ~ denotes Void s.
Proof. intros H. inversion H. Qed.

Lemma denotes_Eps s : denotes Eps s <-> s = "".
Proof. split; [intros H; inversion H; reflexivity | intros ->; constructor]. Qed.

Lemma denotes_Sym p s :
  denotes (Sym p) s <-> exists c, s = String c "" /\ p c = true.
Proof.
  split.
  - intros H. inversion H; subst. eexists. split; [reflexivity | assumption].
  - intros (c & -> & Hc). constructor. exact Hc.
Qed.

Lemma denotes_Cat a b s :
  denotes (Cat a b) s <->
  exists s1 s2, s = s1 +:+ s2 /\ denotes a s1 /\ denotes b s2.
Proof.
  split.
  - intros H. inversion H; subst. eauto.
  - intros (s1 & s2 & -> & H1 & H2). constructor; assumption.
Qed.

Lemma denotes_Alt a b s : denotes (Alt a b) s <-> denotes a s \/ denotes b s.
Proof.
  split.
  - intros H. inversion H; subst; auto.
  - intros [H|H]; [apply DAltL | apply DAltR]; exact H.
Qed.

Lemma denotes_nil_nullable r s : denotes r s -> s = "" -> nullable r = true.
Proof.
  induction 1 as [| | a b s t _ IHa _ IHb | a b s _ IH | a b s _ IH | |];
    intros Hs; cbn [nullable]; try reflexivity.
  - discriminate.
  - apply sapp_eq_nil in Hs. destruct Hs as [-> ->].
    rewrite IHa, IHb; reflexivity.
  - rewrite IH by exact Hs. reflexivity.
  - rewrite IH by exact Hs. apply orb_true_r.
Qed.

Lemma nullable_denotes r : nullable r = true <-> denotes r "".
Proof.
  split; [|intros H; apply (denotes_nil_nullable r "" H eq_refl)].
  induction r as [| | p | a IHa b IHb | a IHa b IHb | a IH]; cbn [nullable];
    intros H; try discriminate.
  - constructor.
  - apply andb_prop in H. destruct H as [Ha Hb].
    apply (DCat a b "" ""); auto.
  - apply orb_prop in H. destruct H as [H|H]; [apply DAltL | apply DAltR]; auto.
  - constructor.
Qed.

Lemma cat_denotes a b s : denotes (cat a b) s <-> denotes (Cat a b) s.
Proof.
  rewrite denotes_Cat.
  assert (Hv1 : forall x, (denotes Void s <->
            exists s1 s2, s = s1 +:+ s2 /\ denotes Void s1 /\ denotes x s2)).
  { intros x. split; [intros H; inversion H|].
    intros (s1 & s2 & _ & H & _). inversion H. }
  assert (Hv2 : forall x, (denotes Void s <->
            exists s1 s2, s = s1 +:+ s2 /\ denotes x s1 /\ denotes Void s2)).
  { intros x. split; [intros H; inversion H|].
    intros (s1 & s2 & _ & _ & H). inversion H. }
  assert (He : forall x, (denotes x s <->
            exists s1 s2, s = s1 +:+ s2 /\ denotes Eps s1 /\ denotes x s2)).
  { intros x. split.
    - intros H. exists "", s. repeat split; [constructor | exact H].
    - intros (s1 & s2 & -> & H1 & H2). apply denotes_Eps in H1. subst. exact H2. }
  destruct a; destruct b; cbn [cat];
    first [ apply Hv1 | apply Hv2 | apply He | rewrite denotes_Cat; reflexivity ].
Qed.

Lemma alt_denotes a b s : denotes (alt a b) s <-> denotes (Alt a b) s.
Proof.
  rewrite denotes_Alt.
  destruct a; destruct b; cbn [alt]; rewrite ?denotes_Alt;
    split; intros H; try tauto;
    try (destruct H as [H|H]; try (inversion H; fail); assumption).
Qed.

Lemma star_cons_inv a c s :
  denotes (Star a) (String c s) ->
  exists s1 s2, s = s1 +:+ s2 /\ denotes a (String c s1) /\ denotes (Star a) s2.
Proof.
  intros H. remember (Star a) as r eqn:Hr. remember (String c s) as w eqn:Hw.
  revert s Hw.
  induction H as [| | | | | |a' s0 t H1 _ H2 IH2]; intros rest Hw;
    try discriminate.
  injection Hr as ->.
  apply sapp_eq_cons in Hw. destruct Hw as [[-> ->] | (s' & -> & ->)].
  - apply IH2; reflexivity.
  - exists s', t. repeat split; assumption.
Qed.

Lemma deriv_denotes r c s : denotes (deriv c r) s <-> denotes r (String c s).
Proof.
  revert s. induction r as [| | p | a IHa b IHb | a IHa b IHb | a IH];
    intros s; cbn [deriv].
  - split; intros H; inversion H.
  - split; intros H; inversion H.
  - destruct (p c) eqn:Hp.
    + rewrite denotes_Eps, denotes_Sym. split.
      * intros ->. exists c. split; [reflexivity | exact Hp].
      * intros (d & [= <- ->] & _). reflexivity.
    + rewrite denotes_Sym. split; [intros H; inversion H|].
      intros (d & [= <- ->] & Hd). congruence.
  - assert (Hcat : denotes (cat (deriv c a) b) s <->
                   exists s1 s2, s = s1 +:+ s2 /\ denotes a (String c s1) /\ denotes b s2).
    { rewrite cat_denotes, denotes_Cat. split; intros (s1 & s2 & Hs & H1 & H2);
        exists s1, s2; repeat split; try assumption; apply IHa; exact H1. }
    destruct (nullable a) eqn:Hn.
    + rewrite alt_denotes, denotes_Alt, Hcat, IHb, denotes_Cat. split.
      * intros [(s1 & s2 & -> & H1 & H2) | H].
        -- exists (String c s1), s2. repeat split; assumption.
        -- exists "", (String c s). repeat split; [|exact H].
           apply nullable_denotes, Hn.
      * intros (s1 & s2 & Hs & H1 & H2). symmetry in Hs.
        apply sapp_eq_cons in Hs. destruct Hs as [[-> ->] | (s' & -> & ->)].
        -- right. exact H2.
        -- left. exists s', s2. repeat split; assumption.
    + rewrite Hcat, denotes_Cat. split.
      * intros (s1 & s2 & -> & H1 & H2).
        exists (String c s1), s2. repeat split; assumption.
      * intros (s1 & s2 & Hs & H1 & H2). symmetry in Hs.
        apply sapp_eq_cons in Hs. destruct Hs as [[-> ->] | (s' & -> & ->)].
        -- apply nullable_denotes in H1. congruence.
        -- exists s', s2. repeat split; assumption.
  - rewrite alt_denotes, !denotes_Alt, IHa, IHb. reflexivity.
  - rewrite cat_denotes, denotes_Cat. split.
    + intros (s1 & s2 & -> & H1 & H2). apply IH in H1.
      apply (DStarCons a (String c s1) s2 H1 H2).
    + intros H. apply star_cons_inv in H. destruct H as (s1 & s2 & -> & H1 & H2).
      exists s1, s2. repeat split; [apply IH; exact H1 | exact H2].
Qed.

Lemma matches_iff_denotes r s : matches r s = true <-> denotes r s.
Proof.
  revert r. induction s as [|c s IH]; intros r; cbn [matches].
  - apply nullable_denotes.
  - rewrite IH. apply deriv_denotes.
Qed.


Lemma star_any s : denotes (Star any) s.
Proof.
  induction s as [|c s IH]; [constructor|].
  apply (DStarCons any (String c "") s); [|exact IH].
  constructor. reflexivity.
Qed.

Lemma lit_denotes p s : denotes (lit p) s <-> s = p.
Proof.
  revert s. induction p as [|c p IH]; intros s; cbn [lit].
  - apply denotes_Eps.
  - rewrite denotes_Cat. unfold chr. split.
    + intros (s1 & s2 & -> & H1 & H2). apply denotes_Sym in H1.
      destruct H1 as (d & -> & Hd). apply Ascii.eqb_eq in Hd. subst d.
      apply IH in H2. subst. reflexivity.
    + intros ->. exists (String c ""), p. repeat split.
      * constructor. apply Ascii.eqb_refl.
      * apply IH. reflexivity.
Qed.

Lemma lit_i_denotes p s :
  denotes (lit_i p) s <-> toUpperCase s = toUpperCase p.
Proof.
  revert s. induction p as [|c p IH]; intros s; cbn [lit_i toUpperCase].
  - rewrite denotes_Eps. destruct s; [tauto|]. split; discriminate.
  - rewrite denotes_Cat. unfold chr_i. split.
    + intros (s1 & s2 & -> & H1 & H2). apply denotes_Sym in H1.
      destruct H1 as (d & -> & Hd). apply Ascii.eqb_eq in Hd.
      apply IH in H2. rewrite sapp_cons. cbn [toUpperCase].
      change ("" +:+ s2) with s2. rewrite Hd, H2. reflexivity.
    + destruct s as [|d s]; [discriminate|]. cbn [toUpperCase].
      intros [= Hd Hs]. exists (String d ""), s. repeat split.
      * constructor. rewrite Hd. apply Ascii.eqb_refl.
      * apply IH. exact Hs.
Qed.

Lemma test_denotes r s :
  test r s = true <->
  exists pre mid post, s = pre +:+ mid +:+ post /\ denotes r mid.
Proof.
  unfold test. rewrite matches_iff_denotes, denotes_Cat. split.
  - intros (pre & rest & -> & _ & H). apply denotes_Cat in H.
    destruct H as (mid & post & -> & Hm & _). eauto.
  - intros (pre & mid & post & -> & Hm).
    exists pre, (mid +:+ post). repeat split; [apply star_any|].
    constructor; [exact Hm | apply star_any].
Qed.

(** X23: the URL test of both hooks accepts exactly the URLs that contain
    the text [/s0/pixel/] somewhere; what stands before and after it,
    and on which host or path it occurs, plays no part. *)
Theorem pixel_url_contains_path (url : string) :
  is_pixel_post_url url = true <->
  exists pre post, url = pre +:+ "/s0/pixel/" +:+ post.
Proof.
  unfold is_pixel_post_url, pixel_path. rewrite test_denotes. split.
  - intros (pre & mid & post & -> & H). apply lit_denotes in H. subst. eauto.
  - intros (pre & post & ->). exists pre, "/s0/pixel/", post.
    split; [reflexivity | apply lit_denotes; reflexivity].
Qed.

(** X24: the scan accepts a script text exactly when it contains one of
    the two names [get_pawtected_endpoint_payload] and [__wbindgen_malloc]
    in any mix of upper and lower case; one of the two is enough. *)
Theorem signature_is_either_name (text : string) :
  has_pawtect_signature text = true <->
  exists pre mid post,
    text = pre +:+ mid +:+ post /\
    (toUpperCase mid = "GET_PAWTECTED_ENDPOINT_PAYLOAD" \/
     toUpperCase mid = "__WBINDGEN_MALLOC").
Proof.
  unfold has_pawtect_signature, pawtect_signature. rewrite test_denotes.
  split; intros (pre & mid & post & -> & H); exists pre, mid, post;
    (split; [reflexivity|]).
  - apply denotes_Alt in H. destruct H as [H|H]; apply lit_i_denotes in H;
      [left | right]; exact H.
  - apply denotes_Alt. destruct H as [H|H]; [left | right];
      apply lit_i_denotes; exact H.
Qed.

Lemma star_sym_denotes p s : denotes (Star (Sym p)) s <-> all_chars p s = true.
Proof.
  split.
  - intros H. remember (Star (Sym p)) as r eqn:Hr.
    induction H as [| | | | | |a s0 t H1 _ H2 IH2]; try discriminate.
    + reflexivity.
    + injection Hr as ->. apply denotes_Sym in H1. destruct H1 as (c & -> & Hc).
      rewrite sapp_cons. cbn [all_chars]. rewrite Hc.
      change ("" +:+ t) with t. apply IH2. reflexivity.
  - induction s as [|c s IH]; cbn [all_chars]; intros H; [constructor|].
    apply andb_prop in H. destruct H as [Hc Hs].
    apply (DStarCons (Sym p) (String c "") s); [constructor; exact Hc | auto].
Qed.

(** X25: the scan takes a collected URL for a chunk candidate exactly when
    it ends in a chunk path: the directory [/_app/immutable/chunks/] and
    the extension [.js] in any letter case, with any text on one line
    between them, followed by nothing or by [?] and a query on one line;
    anything may stand before the directory. *)
Theorem chunk_candidate_shape (src : string) :
  is_chunk_candidate src = true <->
  exists pre dir name ext query,
    src = pre +:+ dir +:+ name +:+ ext +:+ query /\
    toUpperCase dir = "/_APP/IMMUTABLE/CHUNKS/" /\
    one_line name = true /\
    toUpperCase ext = ".JS" /\
    (query = "" \/ exists q, query = "?" +:+ q /\ one_line q = true).
Proof.
  unfold is_chunk_candidate, test_to_end, chunk_path, opt.
  rewrite matches_iff_denotes, denotes_Cat. split.
  - intros (pre & rest & -> & _ & H).
    apply denotes_Cat in H. destruct H as (dir & r1 & -> & Hdir & H).
    apply denotes_Cat in H. destruct H as (name & r2 & -> & Hname & H).
    apply denotes_Cat in H. destruct H as (ext & query & -> & Hext & H).
    exists pre, dir, name, ext, query. split; [reflexivity|].
    apply lit_i_denotes in Hdir, Hext. apply star_sym_denotes in Hname.
    repeat split; try assumption.
    apply denotes_Alt in H. destruct H as [H|H].
    + right. apply denotes_Cat in H. destruct H as (qm & q & -> & Hq & Hrest).
      unfold chr in Hq. apply denotes_Sym in Hq. destruct Hq as (d & -> & Hd).
      apply Ascii.eqb_eq in Hd. subst d. apply star_sym_denotes in Hrest.
      exists q. split; [reflexivity | exact Hrest].
    + left. apply denotes_Eps in H. exact H.
  - intros (pre & dir & name & ext & query & -> & Hdir & Hname & Hext & Hq).
    exists pre, (dir +:+ name +:+ ext +:+ query). repeat split; [apply star_any|].
    constructor; [apply lit_i_denotes; exact Hdir|].
    constructor; [apply star_sym_denotes; exact Hname|].
    constructor; [apply lit_i_denotes; exact Hext|].
    destruct Hq as [-> | (q & -> & Hq)].
    + apply DAltR. constructor.
    + apply DAltL. apply (DCat (chr "?") (Star dot) "?" q).
      * constructor. reflexivity.
      * apply star_sym_denotes. exact Hq.
Qed.


Lemma pixel_url_contains_path_witness :
  is_pixel_post_url "https://backend.wplace.live/s0/pixel/12/34" = true.
Proof.
  apply (pixel_url_contains_path "https://backend.wplace.live/s0/pixel/12/34").
  exists "https://backend.wplace.live", "12/34". reflexivity.
Defined.

Lemma signature_is_either_name_witness :
  has_pawtect_signature "let m = wasm.__WBINDGEN_malloc(n, 1);" = true.
Proof.
  apply (signature_is_either_name "let m = wasm.__WBINDGEN_malloc(n, 1);").
  exists "let m = wasm.", "__WBINDGEN_malloc", "(n, 1);".
  split; [reflexivity | right; reflexivity].
Defined.

Lemma chunk_candidate_shape_witness :
  is_chunk_candidate "https://wplace.live/_app/immutable/chunks/Ab3.JS?v=2" = true.
Proof.
  apply (chunk_candidate_shape "https://wplace.live/_app/immutable/chunks/Ab3.JS?v=2").
  exists "https://wplace.live", "/_app/immutable/chunks/", "Ab3", ".JS", "?v=2".
  repeat split; try reflexivity. right. exists "v=2". split; reflexivity.
Defined.

End RegexFacts.
